(** * Verification of packages/client-twitter-api/src/base.ts

    A shallow embedding of the request queue ([RequestQueue]) and of the
    client core ([ClientBase]: token refresh guard, two-tier tweet cache,
    timeline reconciliation), with the properties of the specification
    stated and settled against it. *)

From Stdlib Require Import ZArith String List Lia.
From stdpp Require Import base option list gmap strings.

Local Open Scope string_scope.
Local Open Scope nat_scope.
Local Open Scope list_scope.

(** ** JavaScript values shared by both classes *)

(** What the guards read from a thrown value: [error.code] and
    [error.message]. *)
Record error := Error { code : option Z; message : option string }.

(** The settlement of an awaited call: it returns or it throws. *)
Inductive result (A : Type) : Type :=
| Ok (a : A)
| Throw (e : error).
Arguments Ok {A} a.
Arguments Throw {A} e.

(** A string-valued property that may be [undefined] or [null]. *)
Inductive nullable :=
| JsUndefined
| JsNull
| JsStr (s : string).

#[global] Instance nullable_eq_dec : EqDecision nullable.
Proof. solve_decision. Defined.

(** [a] is [null] or [undefined]. *)
Definition nullish (a : nullable) : Prop := a = JsNull ∨ a = JsUndefined.

(** [a ?? b] *)
Definition nullish_or (a : nullable) (b : string) : string :=
  match a with JsStr s => s | _ => b end.

(** Truthiness of a string property: [undefined], [null] and the empty
    string are falsy. *)
Definition truthy (a : nullable) : bool :=
  match a with JsStr "" => false | JsStr _ => true | _ => false end.

(** [a || b] *)
Definition falsy_or (a : nullable) (b : string) : string :=
  match a with JsStr "" => b | JsStr s => s | _ => b end.

(** String conversion inside [a + "..."]. *)
Definition to_string (a : nullable) : string :=
  match a with JsUndefined => "undefined" | JsNull => "null" | JsStr s => s end.

(** [hay.includes(needle)] *)
Fixpoint includes (needle hay : string) : bool :=
  String.prefix needle hay ||
  match hay with
  | EmptyString => false
  | String _ rest => includes needle rest
  end.

(** * RequestQueue *)

Module RequestQueue.
Section queue.
Context {T : Type}.

(** [request: () => Promise<T>]: its [k]-th invocation settles as
    [req k]. *)
Definition request := nat -> result T.

(** Settlement of the promise returned by [add]. *)
Inductive settlement :=
| Resolved (v : T)
| Rejected (e : error).

(** One invocation of a queued closure: what it does to the caller's
    promise, and whether the closure itself throws. *)
Record run := Run { settles : option settlement; throws : option error }.

(** An element of [this.queue]: a closure, identified by the index of the
    [add] call that created it. *)
Record entry := Entry { eid : nat; invoke : nat -> run }.

(** The closure pushed by [add]:
    [async () => { try { resolve(await request()) } catch (error) { reject(error) } }] *)
Definition wrap (id : nat) (req : request) : entry :=
  {| eid := id;
     invoke := fun k =>
       match req k with
       | Ok v => {| settles := Some (Resolved v); throws := None |}
       | Throw e => {| settles := Some (Rejected e); throws := None |}
       end |}.

(** The await at which a running [processQueue] is suspended. *)
Inductive phase :=
| AwaitRequest (e : entry) (k : nat)
| AwaitBackoff (delay : Z)
| AwaitRandomDelay (delay : Z).

Inductive event :=
| Invoked (id k : nat)
| Settled (id : nat) (s : settlement)
| Requeued (id : nat)
| Backoff (delay : Z)
| RandomDelay (delay : Z).

Record state := State {
  queue : list entry;
  processing : bool;
  workers : list phase;         (* the processQueue calls in flight *)
  added : nat;                  (* number of add calls so far *)
  calls : gmap nat nat;         (* invocations of each closure so far *)
  promises : gmap nat settlement;
  log : list event
}.

Definition init : state :=
  {| queue := []; processing := false; workers := []; added := 0;
     calls := ∅; promises := ∅; log := [] |}.

Definition set_queue (q : list entry) (s : state) : state :=
  State q (processing s) (workers s) (added s) (calls s) (promises s) (log s).
Definition set_processing (b : bool) (s : state) : state :=
  State (queue s) b (workers s) (added s) (calls s) (promises s) (log s).
Definition set_workers (w : list phase) (s : state) : state :=
  State (queue s) (processing s) w (added s) (calls s) (promises s) (log s).
Definition set_added (n : nat) (s : state) : state :=
  State (queue s) (processing s) (workers s) n (calls s) (promises s) (log s).
Definition set_calls (c : gmap nat nat) (s : state) : state :=
  State (queue s) (processing s) (workers s) (added s) c (promises s) (log s).
Definition set_promises (p : gmap nat settlement) (s : state) : state :=
  State (queue s) (processing s) (workers s) (added s) (calls s) p (log s).
Definition emit (e : event) (s : state) : state :=
  State (queue s) (processing s) (workers s) (added s) (calls s) (promises s)
        (log s ++ [e]).

(** [resolve]/[reject]: only the first settlement of a promise counts. *)
Definition settle (id : nat) (o : option settlement) (s : state) : state :=
  match o with
  | None => s
  | Some st =>
      match promises s !! id with
      | Some _ => s
      | None => emit (Settled id st) (set_promises (<[id := st]> (promises s)) s)
      end
  end.

(** The longest delay that a timer of Node keeps. *)
Definition TIMEOUT_MAX : Z := 2147483647.

(** [await new Promise((resolve) => setTimeout(resolve, delay))]: the
    time waited, in ms.  Node replaces a delay that is not between 1 and
    [TIMEOUT_MAX] by 1. *)
Definition setTimeout (delay : Z) : Z :=
  if (1 <=? delay)%Z && (delay <=? TIMEOUT_MAX)%Z then delay else 1%Z.

(** [exponentialBackoff(retryCount)]: the time it waits.
    [Math.pow(2, retryCount) * 1000] is computed in floating point: it is
    the exact integer as long as it is finite and [Infinity] beyond, and
    in both cases it is above [TIMEOUT_MAX] exactly when the integer
    is. *)
Definition exponentialBackoff (retryCount : nat) : Z :=
  setTimeout (2 ^ Z.of_nat retryCount * 1000)%Z.

(** [randomDelay()]: the time it waits, with [u] the value of
    [Math.floor(Math.random() * 2000)]; the delay is
    [Math.floor(Math.random() * 2000) + 1500]. *)
Definition randomDelay (u : Z) : Z := setTimeout (u + 1500)%Z.

(** The head of the [while] loop of [processQueue]: either the loop ends
    and [processing] is cleared, or the head closure is shifted out and
    invoked. *)
Definition loop_head (s : state) : state * option phase :=
  match queue s with
  | [] => (set_processing false s, None)
  | e :: q =>
      let k := default 0 (calls s !! eid e) in
      (emit (Invoked (eid e) k)
         (set_calls (<[eid e := S k]> (calls s)) (set_queue q s)),
       Some (AwaitRequest e k))
  end.

(** [processQueue], run up to its first await. *)
Definition processQueue (s : state) : state :=
  if processing s || Nat.eqb (length (queue s)) 0 then s
  else
    let '(s', ph) := loop_head (set_processing true s) in
    set_workers (workers s' ++ option_list ph) s'.

(** A suspended [processQueue] is resumed and runs to its next await. *)
Definition resume (ph : phase) (u : Z) (s : state) : state * option phase :=
  match ph with
  | AwaitRequest e k =>
      let r := invoke e k in
      let s1 := settle (eid e) (settles r) s in
      match throws r with
      | None =>
          let d := randomDelay u in
          (emit (RandomDelay d) s1, Some (AwaitRandomDelay d))
      | Some _ =>
          let s2 := emit (Requeued (eid e)) (set_queue (e :: queue s1) s1) in
          let d := exponentialBackoff (length (queue s2)) in
          (emit (Backoff d) s2, Some (AwaitBackoff d))
      end
  | AwaitBackoff _ =>
      let d := randomDelay u in
      (emit (RandomDelay d) s, Some (AwaitRandomDelay d))
  | AwaitRandomDelay _ => loop_head s
  end.

Definition tick (i : nat) (u : Z) (s : state) : state :=
  match workers s !! i with
  | None => s
  | Some ph =>
      let '(s', ph') := resume ph u s in
      set_workers
        (match ph' with
         | Some p => <[i := p]> (workers s')
         | None => delete i (workers s')
         end) s'
  end.

(** [add]: the executor of the new promise pushes the closure and calls
    [processQueue]. *)
Definition add (req : request) (s : state) : state :=
  let id := added s in
  processQueue (set_added (S id) (set_queue (queue s ++ [wrap id req]) s)).

(** What happens to the queue object over time: callers add requests,
    and the event loop resumes a suspended [processQueue]. *)
Inductive action :=
| Add (req : request)
| Tick (i : nat) (u : Z).

Definition step (s : state) (a : action) : state :=
  match a with
  | Add req => add req s
  | Tick i u => tick i u s
  end.

Definition exec (sched : list action) (s : state) : state :=
  fold_left step sched s.

(** Observations on the log. *)
Definition invoked_ids (l : list event) : list nat :=
  omap (fun e => match e with Invoked id _ => Some id | _ => None end) l.
Definition settled_ids (l : list event) : list nat :=
  omap (fun e => match e with Settled id _ => Some id | _ => None end) l.
Definition fulfilled_ids (l : list event) : list nat :=
  omap (fun e => match e with Settled id (Resolved _) => Some id | _ => None end) l.
Definition requeued_ids (l : list event) : list nat :=
  omap (fun e => match e with Requeued id => Some id | _ => None end) l.

Definition invocations (s : state) : list nat := invoked_ids (log s).
Definition completions (s : state) : list nat := settled_ids (log s).
Definition fulfilments (s : state) : list nat := fulfilled_ids (log s).
Definition retries (s : state) : list nat := requeued_ids (log s).

Fixpoint adds (sched : list action) : nat :=
  match sched with
  | [] => 0
  | Add _ :: rest => S (adds rest)
  | Tick _ _ :: rest => adds rest
  end.

(** ** Predicates and invariants used in the proofs *)

(** A closure built by [add] never throws and always settles its caller. *)
Definition wrapped (e : entry) : Prop :=
  ∀ k, throws (invoke e k) = None ∧ ∃ st, settles (invoke e k) = Some st.

Definition resolves (e : entry) : Prop :=
  ∃ v, invoke e 0 = {| settles := Some (Resolved v); throws := None |}.

Definition succeeds_first (a : action) : Prop :=
  match a with
  | Add req => ∃ v, req 0 = Ok v
  | Tick _ _ => True
  end.

(** At most one [processQueue] is in flight, and [processing] says so. *)
Definition single (s : state) : Prop :=
  (processing s = false ∧ workers s = []) ∨
  (processing s = true ∧ ∃ w, workers s = [w]).

(** The shape of every reachable state: [m] closures have been invoked
    and [f] of them have settled, both in the order of their [add]
    calls; the closures still queued are the later ones, in order.  [P]
    is any property of the requests that were added. *)
Section invariant.
Context (P : entry → Prop).

Definition worker_ok (m f : nat) (s : state) : Prop :=
  match workers s with
  | [] => processing s = false ∧ queue s = [] ∧ f = m
  | [AwaitRequest e k] =>
      processing s = true ∧ wrapped e ∧ P e ∧ k = 0 ∧ S (eid e) = m ∧ S f = m
  | [AwaitRandomDelay _] => processing s = true ∧ f = m
  | _ => False
  end.

Definition fifo_inv (s : state) : Prop :=
  ∃ m f,
    invocations s = seq 0 m ∧
    completions s = seq 0 f ∧
    retries s = [] ∧
    map eid (queue s) = seq m (added s - m) ∧
    m ≤ added s ∧
    Forall (λ e, wrapped e ∧ P e) (queue s) ∧
    (∀ id, m ≤ id → calls s !! id = None) ∧
    (∀ id, f ≤ id → promises s !! id = None) ∧
    ((∀ e, P e → resolves e) → fulfilments s = completions s) ∧
    worker_ok m f s.

(** Every request of the schedule, whichever position it is added at,
    has property [P]. *)
Fixpoint admissible_sched (sched : list action) : Prop :=
  match sched with
  | [] => True
  | Add req :: rest => (∀ id, P (wrap id req)) ∧ admissible_sched rest
  | Tick _ _ :: rest => admissible_sched rest
  end.

End invariant.

(** Remaining awaits of the running loop: two per queued closure. *)
Definition weight (s : state) : nat :=
  2 * length (queue s) +
  match workers s with
  | [AwaitRequest _ _] => 2
  | [AwaitRandomDelay _] => 1
  | _ => 0
  end.

End queue.

(** Requests used in the scenarios below; integers stand for the values
    the promises are fulfilled with. *)
Definition boom : error :=
  {| code := Some 500%Z; message := Some "Internal error" |}.

Definition succeeds (v : Z) : @request Z := fun _ => Ok v.

Definition fails_once (v : Z) : @request Z :=
  fun k => match k with 0 => Throw boom | S _ => Ok v end.

(** Task A fails on its first attempt, task B is added after it, and the
    loop is resumed until it ends. *)
Definition retry_scenario : list (@action Z) :=
  [Add (fails_once 1); Add (succeeds 2);
   Tick 0 0; Tick 0 0; Tick 0 0; Tick 0 0].

(** Three successful tasks, the last two added while the loop runs. *)
Definition fifo_scenario : list (@action Z) :=
  [Add (succeeds 1); Tick 0 7; Add (succeeds 2); Add (succeeds 3)].

(** The values of [Math.floor(Math.random() * 2000)] drawn while the
    loop drains that queue. *)
Definition fifo_delays : list Z := [0; 1999; 12; 700; 3; 1500]%Z.

End RequestQueue.

(** * ClientBase *)

Module Tweet.
(** [type Tweet].  The arrays [photos], [thread] and [videos] are empty
    wherever this file builds a tweet and are left out; [timestamp] is
    kept in milliseconds (the source divides [getTime()] by 1000 and
    multiplies by 1000 again when it writes a memory). *)
Record t := Make {
  id : string;
  text : string;
  conversationId : nullable;
  createdAt : string;
  userId : string;
  inReplyToStatusId : nullable;
  permanentUrl : string;
  username : nullable;
  name : nullable;
  hashtags : list string;
  mentions : list string;
  urls : list string;
  timestamp : Z
}.
End Tweet.

Module Wire.
(** What [twitterClient.v2] answers: the [data] of a tweet with its
    optional [entities], and [includes.users].  [author_id] is requested
    as an expansion by every call of this file and is taken to be
    present. *)
Record user := User { user_id : string; user_username : string; user_name : string }.

Record entities := Entities {
  ent_hashtags : list string;
  ent_mentions : list string;
  ent_urls : option (list string)
}.

Record t := Make {
  id : string;
  text : string;
  conversation_id : nullable;
  author_id : string;
  in_reply_to_user_id : nullable;
  created_at : nullable;
  data_entities : option entities
}.

(** The answer of [singleTweet]. *)
Record single := Single { data : t; includes_users : option (list user) }.

(** The answer of [search]. *)
Record page := Page { tweets : list t; page_users : option (list user) }.
End Wire.

Module Memory.
(** A record of the message manager; the [embedding] is the constant
    zero vector and is left out. *)
Record content := Content {
  text : string;
  url : string;
  source : string;
  inReplyTo : option string
}.

Record t := Make {
  id : string;
  userId : string;
  agentId : string;
  roomId : string;
  body : content;
  createdAt : Z
}.
End Memory.

(** * Paths *)

Module Path.
(** An absolute POSIX path in normal form, as [path.join] returns it
    from the absolute [__dirname]: the list of its segments. *)
Definition t := list string.

(** The pieces of a string between its slashes (character 47). *)
Fixpoint split (s : string) : list string :=
  match s with
  | EmptyString => [EmptyString]
  | String c rest =>
      if Ascii.eqb c (Ascii.ascii_of_nat 47) then EmptyString :: split rest
      else match split rest with
           | piece :: pieces => String c piece :: pieces
           | [] => [String c EmptyString]
           end
  end.

(** One piece of the normalization: empty pieces and [.] are dropped,
    [..] goes to the parent (the parent of the root is the root). *)
Definition enter (dir : t) (piece : string) : t :=
  if bool_decide (piece = "" ∨ piece = ".") then dir
  else if bool_decide (piece = "..") then removelast dir
  else dir ++ [piece].

(** [path.join(base, ...parts)] *)
Definition join (base : t) (parts : list string) : t :=
  fold_left enter (concat (map split parts)) base.

(** [path.dirname(p)] *)
Definition dirname (p : t) : t := removelast p.

(** A directory and every directory above it. *)
Definition ancestors (dir : t) : list t :=
  map (fun n => take n dir) (seq 0 (S (length dir))).

End Path.

Module ClientBase.

Definition UUID := string.
Definition handle := nat.

Inductive effect :=
| ApiCall (endpoint : string) (k : nat)
| Refresh (k : nat)
| Sleep (ms : Z)
| Mkdir (dir : Path.t)
| WriteFile (file : Path.t) (content : string)
| CacheSet (id : string)
| Warn (msg : string)
| EnsureUserExists (user : UUID)
| EnsureConnection (user room : UUID)
| CreateMemory (m : Memory.t)
| WriteTimelineCache.

(** A call of [fs.promises]. *)
Inductive fs_call :=
| FsMkdir (dir : Path.t)
| FsWriteFile (file : Path.t)
| FsReadFile (file : Path.t).

(** The object, the runtime it holds, the file system, and the counters
    that index the answers of the remote side and of the environment.
    [fs_fault k call] is the error with which the environment rejects the
    [k]-th call of [fs.promises] (permissions, a full disk, ...), if it
    does; [db_get_fault k] and [db_update_fault k] are the errors with
    which the database adapter rejects [getTwitterRefreshToken] and
    [updateTwitterAccessToken] during the [k]-th refresh, the latter
    with or without having written the tokens. *)
Record client := Client {
  isReady : bool;
  readyPromise : result unit;
  twitterClient : handle;
  _twitterClient : option handle;
  tweetCache : gmap string Tweet.t;
  twitterUserId : nullable;
  twitterUsername : nullable;
  twitterAccessToken : string;
  twitterRefreshToken : string;
  agentId : UUID;
  characterName : string;
  dbAccessToken : string;
  dbRefreshToken : string;
  memories : list Memory.t;
  dirs : gset Path.t;                      (* the directories *)
  files : gmap Path.t string;              (* the files and what they hold *)
  timeline_cache : option (list Tweet.t);  (* timeline_cache.json *)
  api_calls : nat;
  refreshes : nat;
  trace : list effect;
  __dirname : Path.t;
  fs_fault : nat → fs_call → option error;
  fs_calls : nat;
  db_get_fault : nat → option error;
  db_update_fault : nat → option (error * bool)
}.

Definition set_tokens (h : handle) (a r : string) (s : client) : client :=
  Client (isReady s) (readyPromise s) h (Some h) (tweetCache s)
    (twitterUserId s) (twitterUsername s) a r (agentId s) (characterName s)
    (dbAccessToken s) (dbRefreshToken s) (memories s) (dirs s) (files s)
    (timeline_cache s) (api_calls s) (refreshes s) (trace s) (__dirname s)
    (fs_fault s) (fs_calls s) (db_get_fault s) (db_update_fault s).
Definition set_db_tokens (a r : string) (s : client) : client :=
  Client (isReady s) (readyPromise s) (twitterClient s) (_twitterClient s)
    (tweetCache s) (twitterUserId s) (twitterUsername s)
    (twitterAccessToken s) (twitterRefreshToken s) (agentId s)
    (characterName s) a r (memories s) (dirs s) (files s) (timeline_cache s)
    (api_calls s) (refreshes s) (trace s) (__dirname s) (fs_fault s)
    (fs_calls s) (db_get_fault s) (db_update_fault s).
Definition set_tweetCache (c : gmap string Tweet.t) (s : client) : client :=
  Client (isReady s) (readyPromise s) (twitterClient s) (_twitterClient s) c
    (twitterUserId s) (twitterUsername s) (twitterAccessToken s)
    (twitterRefreshToken s) (agentId s) (characterName s) (dbAccessToken s)
    (dbRefreshToken s) (memories s) (dirs s) (files s) (timeline_cache s)
    (api_calls s) (refreshes s) (trace s) (__dirname s) (fs_fault s)
    (fs_calls s) (db_get_fault s) (db_update_fault s).
Definition set_memories (m : list Memory.t) (s : client) : client :=
  Client (isReady s) (readyPromise s) (twitterClient s) (_twitterClient s)
    (tweetCache s) (twitterUserId s) (twitterUsername s)
    (twitterAccessToken s) (twitterRefreshToken s) (agentId s)
    (characterName s) (dbAccessToken s) (dbRefreshToken s) m (dirs s)
    (files s) (timeline_cache s) (api_calls s) (refreshes s) (trace s)
    (__dirname s) (fs_fault s) (fs_calls s) (db_get_fault s)
    (db_update_fault s).
Definition set_dirs (d : gset Path.t) (s : client) : client :=
  Client (isReady s) (readyPromise s) (twitterClient s) (_twitterClient s)
    (tweetCache s) (twitterUserId s) (twitterUsername s)
    (twitterAccessToken s) (twitterRefreshToken s) (agentId s)
    (characterName s) (dbAccessToken s) (dbRefreshToken s) (memories s) d
    (files s) (timeline_cache s) (api_calls s) (refreshes s) (trace s)
    (__dirname s) (fs_fault s) (fs_calls s) (db_get_fault s)
    (db_update_fault s).
Definition set_files (f : gmap Path.t string) (s : client) : client :=
  Client (isReady s) (readyPromise s) (twitterClient s) (_twitterClient s)
    (tweetCache s) (twitterUserId s) (twitterUsername s)
    (twitterAccessToken s) (twitterRefreshToken s) (agentId s)
    (characterName s) (dbAccessToken s) (dbRefreshToken s) (memories s)
    (dirs s) f (timeline_cache s) (api_calls s) (refreshes s) (trace s)
    (__dirname s) (fs_fault s) (fs_calls s) (db_get_fault s)
    (db_update_fault s).
Definition set_timeline_cache (c : option (list Tweet.t)) (s : client) : client :=
  Client (isReady s) (readyPromise s) (twitterClient s) (_twitterClient s)
    (tweetCache s) (twitterUserId s) (twitterUsername s)
    (twitterAccessToken s) (twitterRefreshToken s) (agentId s)
    (characterName s) (dbAccessToken s) (dbRefreshToken s) (memories s)
    (dirs s) (files s) c (api_calls s) (refreshes s) (trace s) (__dirname s)
    (fs_fault s) (fs_calls s) (db_get_fault s) (db_update_fault s).
Definition set_api_calls (n : nat) (s : client) : client :=
  Client (isReady s) (readyPromise s) (twitterClient s) (_twitterClient s)
    (tweetCache s) (twitterUserId s) (twitterUsername s)
    (twitterAccessToken s) (twitterRefreshToken s) (agentId s)
    (characterName s) (dbAccessToken s) (dbRefreshToken s) (memories s)
    (dirs s) (files s) (timeline_cache s) n (refreshes s) (trace s)
    (__dirname s) (fs_fault s) (fs_calls s) (db_get_fault s)
    (db_update_fault s).
Definition set_refreshes (n : nat) (s : client) : client :=
  Client (isReady s) (readyPromise s) (twitterClient s) (_twitterClient s)
    (tweetCache s) (twitterUserId s) (twitterUsername s)
    (twitterAccessToken s) (twitterRefreshToken s) (agentId s)
    (characterName s) (dbAccessToken s) (dbRefreshToken s) (memories s)
    (dirs s) (files s) (timeline_cache s) (api_calls s) n (trace s)
    (__dirname s) (fs_fault s) (fs_calls s) (db_get_fault s)
    (db_update_fault s).
Definition set_trace (t : list effect) (s : client) : client :=
  Client (isReady s) (readyPromise s) (twitterClient s) (_twitterClient s)
    (tweetCache s) (twitterUserId s) (twitterUsername s)
    (twitterAccessToken s) (twitterRefreshToken s) (agentId s)
    (characterName s) (dbAccessToken s) (dbRefreshToken s) (memories s)
    (dirs s) (files s) (timeline_cache s) (api_calls s) (refreshes s) t
    (__dirname s) (fs_fault s) (fs_calls s) (db_get_fault s)
    (db_update_fault s).
Definition set_fs_calls (n : nat) (s : client) : client :=
  Client (isReady s) (readyPromise s) (twitterClient s) (_twitterClient s)
    (tweetCache s) (twitterUserId s) (twitterUsername s)
    (twitterAccessToken s) (twitterRefreshToken s) (agentId s)
    (characterName s) (dbAccessToken s) (dbRefreshToken s) (memories s)
    (dirs s) (files s) (timeline_cache s) (api_calls s) (refreshes s)
    (trace s) (__dirname s) (fs_fault s) n (db_get_fault s)
    (db_update_fault s).

(** ** Asynchronous methods: state passing with exceptions *)

Definition M (A : Type) : Type := client → result A * client.

Definition ret {A} (a : A) : M A := fun s => (Ok a, s).
Definition throw {A} (e : error) : M A := fun s => (Throw e, s).
Definition bind {A B} (c : M A) (k : A → M B) : M B :=
  fun s => match c s with
           | (Ok a, s') => k a s'
           | (Throw e, s') => (Throw e, s')
           end.
Definition try_catch {A} (c : M A) (h : error → M A) : M A :=
  fun s => match c s with
           | (Ok a, s') => (Ok a, s')
           | (Throw e, s') => h e s'
           end.
Definition get : M client := fun s => (Ok s, s).
Definition modify (f : client → client) : M unit := fun s => (Ok tt, f s).
Definition emit (e : effect) : M unit :=
  modify (fun s => set_trace (trace s ++ [e]) s).
Definition lift {A} (r : result A) : M A := fun s => (r, s).

Notation "x <- c ;; k" := (bind c (fun x => k))
  (at level 100, c at next level, right associativity).
Notation "c ;;; k" := (bind c (fun _ => k))
  (at level 100, right associativity).

(** [for (const x of l) { await body(x) }] *)
Fixpoint for_each {A} (l : list A) (body : A → M unit) : M unit :=
  match l with
  | [] => ret tt
  | x :: rest => body x ;;; for_each rest body
  end.

Definition TypeError (msg : string) : error :=
  {| code := None; message := Some msg |}.

(** The method never changes the part [f] of the state. *)
Definition preserves {B A} (f : client → B) (c : M A) : Prop :=
  ∀ s, f (c s).2 = f s.

(** The fields read by [ensureReady]. *)
Definition readiness (s : client) : bool * result unit * nullable * nullable :=
  (isReady s, readyPromise s, twitterUsername s, twitterUserId s).

(** ** executeWithTokenRefresh *)

(** [error.code === 401 || (error.message && error.message.includes("token"))] *)
Definition credentialExpired (e : error) : bool :=
  bool_decide (code e = Some 401%Z) ||
  match message e with
  | Some m => includes "token" m
  | None => false
  end.

(** [error.code === 429] *)
Definition rateLimited (e : error) : bool :=
  bool_decide (code e = Some 429%Z).

(** [const waitTime = 25 * 60 * 60 * 1000] *)
Definition waitTime : Z := (25 * 60 * 60 * 1000)%Z.

Definition sleep (ms : Z) : M unit := emit (Sleep ms).

Section client.
(** The collaborators that are not part of this file. *)
Context (stringToUuid : string → UUID).
Context (JSON_stringify : Tweet.t → string).
Context (JSON_parse : string → result Tweet.t).
(** [glob(pattern)] of the library of that name: the paths that match
    the pattern, for the directories and files that exist. *)
Context (glob : Path.t → gset Path.t → gmap Path.t string → result (list Path.t)).
(** [baseClient.refreshOAuth2Token(token)], at the [k]-th refresh. *)
Context (refreshOAuth2Token : string → nat → result (handle * string * string)).
(** [twitterClient.v2.singleTweet(id, ...)] and [twitterClient.v2.search],
    as the [k]-th remote call of the client. *)
Context (singleTweet : string → nat → result Wire.single).
Context (search : string → nat → result Wire.page).
(** [new Date().toISOString()], [Date.now()] and
    [new Date(s).getTime()]. *)
Context (now_iso : string) (now_ms : Z) (getTime : string → Z).

(** One call of the remote API. *)
Definition remote {A} (endpoint : string) (answer : nat → result A) : M A :=
  s <- get ;;
  modify (set_api_calls (S (api_calls s))) ;;;
  emit (ApiCall endpoint (api_calls s)) ;;;
  lift (answer (api_calls s)).

(** [await databaseAdapter.getTwitterRefreshToken(agentId)] during the
    [k]-th refresh. *)
Definition getTwitterRefreshToken (k : nat) : M string :=
  s <- get ;;
  match db_get_fault s k with
  | Some e => throw e
  | None => ret (dbRefreshToken s)
  end.

(** [await databaseAdapter.updateTwitterAccessToken(agentId, a, r)]
    during the [k]-th refresh. *)
Definition updateTwitterAccessToken (k : nat) (a r : string) : M unit :=
  s <- get ;;
  match db_update_fault s k with
  | Some (e, written) =>
      (if written then modify (set_db_tokens a r) else ret tt) ;;;
      throw e
  | None => modify (set_db_tokens a r)
  end.

(** The [catch] of the method logs the error and throws it again. *)
Definition refreshTwitterToken : M unit :=
  s <- get ;;
  modify (set_refreshes (S (refreshes s))) ;;;
  emit (Refresh (refreshes s)) ;;;
  existingRefreshToken <- getTwitterRefreshToken (refreshes s) ;;
  grant <- lift (refreshOAuth2Token existingRefreshToken (refreshes s)) ;;
  let '(refreshedClient, accessToken, newRefreshToken) := grant in
  updateTwitterAccessToken (refreshes s) accessToken newRefreshToken ;;;
  modify (set_tokens refreshedClient accessToken newRefreshToken).

Definition executeWithTokenRefresh {A} (operation : M A) : M A :=
  try_catch operation (fun error =>
    if credentialExpired error then
      refreshTwitterToken ;;; operation
    else if rateLimited error then
      sleep (waitTime + 1000) ;;; operation
    else throw error).

(** ** The tweet cache *)

Definition cacheFileName (tweetId : string) : string := tweetId +:+ ".json".

(** [path.join(__dirname, "tweetcache", conversationId, id + ".json")];
    [path.join] throws when an argument is not a string. *)
Definition cachePath (tweet : Tweet.t) (s : client) : result Path.t :=
  match Tweet.conversationId tweet with
  | JsStr g =>
      Ok (Path.join (__dirname s) ["tweetcache"; g; cacheFileName (Tweet.id tweet)])
  | _ => Throw (TypeError "The path argument must be of type string")
  end.

(** One call of [fs.promises]: it is counted, and the environment may
    reject it. *)
Definition fs (call : fs_call) : M unit :=
  s <- get ;;
  modify (set_fs_calls (S (fs_calls s))) ;;;
  match fs_fault s (fs_calls s) call with
  | Some e => throw e
  | None => ret tt
  end.

Definition ENOTDIR : error :=
  {| code := None; message := Some "ENOTDIR: not a directory" |}.
Definition ENOENT : error :=
  {| code := None; message := Some "ENOENT: no such file or directory" |}.
Definition EISDIR : error :=
  {| code := None; message := Some "EISDIR: illegal operation on a directory" |}.

(** [fs.promises.mkdir(dir, { recursive: true })]: it fails when [dir] or
    a directory above it is a file, and else makes every directory that
    is missing. *)
Definition mkdir (dir : Path.t) : M unit :=
  fs (FsMkdir dir) ;;;
  s <- get ;;
  if existsb (fun d => bool_decide (is_Some (files s !! d))) (Path.ancestors dir)
  then throw ENOTDIR
  else
    modify (set_dirs (list_to_set (Path.ancestors dir) ∪ dirs s)) ;;;
    emit (Mkdir dir).

(** [fs.promises.writeFile(file, content)] *)
Definition writeFile (file : Path.t) (content : string) : M unit :=
  fs (FsWriteFile file) ;;;
  s <- get ;;
  if negb (bool_decide (Path.dirname file ∈ dirs s)) then throw ENOENT
  else if bool_decide (file ∈ dirs s) then throw EISDIR
  else
    modify (set_files (<[file := content]> (files s))) ;;;
    emit (WriteFile file content).

(** [fs.promises.readFile(file, "utf-8")] *)
Definition readFile (file : Path.t) : M string :=
  fs (FsReadFile file) ;;;
  s <- get ;;
  match files s !! file with
  | Some data => ret data
  | None => throw (if bool_decide (file ∈ dirs s) then EISDIR else ENOENT)
  end.

Definition cacheTweet (tweet : option Tweet.t) : M unit :=
  match tweet with
  | None => emit (Warn "Tweet is undefined, skipping cache")
  | Some tweet =>
      s <- get ;;
      cacheDir <- lift (cachePath tweet s) ;;
      mkdir (Path.dirname cacheDir) ;;;
      writeFile cacheDir (JSON_stringify tweet) ;;;
      modify (fun s => set_tweetCache (<[Tweet.id tweet := tweet]> (tweetCache s)) s) ;;;
      emit (CacheSet (Tweet.id tweet))
  end.

(** [path.join(__dirname, "tweetcache", "*", tweetId + ".json")] *)
Definition cacheFile (tweetId : string) (s : client) : Path.t :=
  Path.join (__dirname s) ["tweetcache"; "*"; cacheFileName tweetId].

(** [await glob(cacheFile)] *)
Definition globbed (tweetId : string) (s : client) : result (list Path.t) :=
  glob (cacheFile tweetId s) (dirs s) (files s).

Definition getCachedTweet (tweetId : string) : M (option Tweet.t) :=
  s <- get ;;
  match tweetCache s !! tweetId with
  | Some tweet => ret (Some tweet)
  | None =>
      found <- lift (globbed tweetId s) ;;
      match found with
      | file :: _ =>
          tweetData <- readFile file ;;
          tweet <- lift (JSON_parse tweetData) ;;
          modify (fun s => set_tweetCache (<[Tweet.id tweet := tweet]> (tweetCache s)) s) ;;;
          emit (CacheSet (Tweet.id tweet)) ;;;
          ret (Some tweet)
      | [] => ret None
      end
  end.

Definition ensureReady : M unit :=
  s <- get ;;
  (if isReady s then ret tt else lift (readyPromise s)) ;;;
  if negb (truthy (twitterUsername s)) || negb (truthy (twitterUserId s))
  then throw {| code := None; message := Some "Twitter client not properly initialized" |}
  else ret tt.

(** [users.find(user => user.id === author_id)] *)
Definition findUser (author : string) (users : list Wire.user) : option Wire.user :=
  List.find (fun u => bool_decide (Wire.user_id u = author)) users.

(** [includes?.users?.find(...).<field>]: the optional chain stops at a
    missing [includes.users], and reading the field of a user that was
    not found throws. *)
Definition userField (field : Wire.user → string) (r : Wire.single) : result nullable :=
  match Wire.includes_users r with
  | None => Ok JsUndefined
  | Some users =>
      match findUser (Wire.author_id (Wire.data r)) users with
      | Some u => Ok (JsStr (field u))
      | None => Throw (TypeError "Cannot read properties of undefined")
      end
  end.

(** [created_at ? new Date(created_at).getTime() / 1000 : Date.now() / 1000] *)
Definition timestampOf (created_at : nullable) : Z :=
  match created_at with
  | JsStr d => if truthy created_at then getTime d else now_ms
  | _ => now_ms
  end.

(** The object literal built inside [getTweet]. *)
Definition tweetOfSingle (r : Wire.single) : result Tweet.t :=
  let w := Wire.data r in
  match userField Wire.user_username r, userField Wire.user_name r with
  | Ok username, Ok name =>
      match Wire.data_entities w with
      | Some (Wire.Entities hashtags mentions (Some urls)) =>
          Ok {| Tweet.id := Wire.id w;
                Tweet.text := Wire.text w;
                Tweet.conversationId :=
                  JsStr (falsy_or (Wire.conversation_id w) (Wire.id w));
                Tweet.createdAt := now_iso;
                Tweet.userId := Wire.author_id w;
                Tweet.inReplyToStatusId := Wire.in_reply_to_user_id w;
                Tweet.permanentUrl :=
                  "https://twitter.com/i/web/status/" +:+ Wire.id w;
                Tweet.username := username;
                Tweet.name := name;
                Tweet.hashtags := hashtags;
                Tweet.mentions := mentions;
                Tweet.urls := urls;
                Tweet.timestamp := timestampOf (Wire.created_at w) |}
      | _ => Throw (TypeError "Cannot read properties of undefined")
      end
  | Throw e, _ => Throw e
  | _, Throw e => Throw e
  end.

(** The operation that [getTweet] hands to the guard: the remote call
    and the mapping of its answer. *)
Definition fetch (tweetId : string) : M Tweet.t :=
  tweetResult <- remote "singleTweet" (singleTweet tweetId) ;;
  lift (tweetOfSingle tweetResult).

Definition getTweet (tweetId : string) : M Tweet.t :=
  ensureReady ;;;
  cachedTweet <- getCachedTweet tweetId ;;
  match cachedTweet with
  | Some tweet => ret tweet
  | None =>
      result <- executeWithTokenRefresh (fetch tweetId) ;;
      cacheTweet (Some result) ;;;
      ret result
  end.

(** ** fetchSearchTweets *)

(** [includes?.users?.find(...)?.<field>] *)
Definition userFieldOpt (field : Wire.user → string)
    (users : option (list Wire.user)) (author : string) : nullable :=
  match users with
  | None => JsUndefined
  | Some users =>
      match findUser author users with
      | Some u => JsStr (field u)
      | None => JsUndefined
      end
  end.

Definition tweetOfSearch (users : option (list Wire.user)) (w : Wire.t) : Tweet.t :=
  {| Tweet.id := Wire.id w;
     Tweet.text := Wire.text w;
     Tweet.conversationId :=
       JsStr (falsy_or (Wire.conversation_id w) (Wire.id w));
     Tweet.createdAt := falsy_or (Wire.created_at w) now_iso;
     Tweet.userId := falsy_or (JsStr (Wire.author_id w)) "";
     Tweet.inReplyToStatusId := Wire.in_reply_to_user_id w;
     Tweet.permanentUrl := "https://twitter.com/i/web/status/" +:+ Wire.id w;
     Tweet.username := userFieldOpt Wire.user_username users (Wire.author_id w);
     Tweet.name := userFieldOpt Wire.user_name users (Wire.author_id w);
     Tweet.hashtags := [];
     Tweet.mentions := [];
     Tweet.urls := [];
     Tweet.timestamp := timestampOf (Wire.created_at w) |}.

Definition fetchSearchTweets (query : string) : M (list Tweet.t) :=
  executeWithTokenRefresh (
    searchResults <- remote "search" (search query) ;;
    ret (map (tweetOfSearch (Wire.page_users searchResults))
             (Wire.tweets searchResults))).

(** ** The message manager *)

(** Modelled from the spec: the record store is an external collaborator
    ([queryExistingKeys(groupIds)], [insertRecord(record) -> ack |
    already-exists]); [getMemoriesByRoomIds] answers the records of the
    agent whose room is one of [roomIds]. *)
Definition getMemoriesByRoomIds (agent : UUID) (roomIds : list UUID)
    (store : list Memory.t) : list Memory.t :=
  List.filter (fun m => bool_decide (Memory.agentId m = agent) &&
                        bool_decide (Memory.roomId m ∈ roomIds)) store.

(** Modelled from the spec: [getMemoryById] answers the record with that
    id, if the store holds one. *)
Definition getMemoryById (id : UUID) (store : list Memory.t) : option Memory.t :=
  List.find (fun m => bool_decide (Memory.id m = id)) store.

(** Modelled from the spec: [createMemory] hands the record to the store,
    which keeps what it has when the id already exists. *)
Definition createMemory (m : Memory.t) : M unit :=
  emit (CreateMemory m) ;;;
  modify (fun s =>
    match getMemoryById (Memory.id m) (memories s) with
    | Some _ => s
    | None => set_memories (memories s ++ [m]) s
    end).

(** ** populateTimeline *)

(** The record key of a tweet: [stringToUuid(tweet.id + "-" + agentId)]. *)
Definition memoryId (agent : UUID) (tweetId : string) : UUID :=
  stringToUuid (tweetId +:+ "-" +:+ agent).

(** ["default-room-" + agentId] *)
Definition fallbackRoom (agent : UUID) : string := "default-room-" +:+ agent.

(** [stringToUuid(tweet.conversationId ?? "default-room-" + agentId)] *)
Definition roomIdOf (agent : UUID) (tweet : Tweet.t) : UUID :=
  stringToUuid (nullish_or (Tweet.conversationId tweet) (fallbackRoom agent)).

(** [tweet.userId === this.twitterUserId ? agentId : stringToUuid(tweet.userId)] *)
Definition tweetuserIdOf (agent : UUID) (me : nullable) (tweet : Tweet.t) : UUID :=
  if bool_decide (JsStr (Tweet.userId tweet) = me) then agent
  else stringToUuid (Tweet.userId tweet).

(** The memory written for a tweet in the loop over freshly fetched
    tweets. *)
Definition newTweetMemory (agent : UUID) (me : nullable) (tweet : Tweet.t) : Memory.t :=
  {| Memory.id := memoryId agent (Tweet.id tweet);
     Memory.userId := tweetuserIdOf agent me tweet;
     Memory.agentId := agent;
     Memory.roomId := roomIdOf agent tweet;
     Memory.body :=
       {| Memory.text := Tweet.text tweet;
          Memory.url := Tweet.permanentUrl tweet;
          Memory.source := "twitter";
          Memory.inReplyTo :=
            if truthy (Tweet.inReplyToStatusId tweet)
            then Some (stringToUuid (to_string (Tweet.inReplyToStatusId tweet)))
            else None |};
     Memory.createdAt := Tweet.timestamp tweet |}.

(** The memory written for a tweet read back from [timeline_cache.json]. *)
Definition cachedTweetMemory (agent : UUID) (me : nullable) (tweet : Tweet.t) : Memory.t :=
  {| Memory.id := memoryId agent (Tweet.id tweet);
     Memory.userId := tweetuserIdOf agent me tweet;
     Memory.agentId := agent;
     Memory.roomId := roomIdOf agent tweet;
     Memory.body :=
       {| Memory.text := Tweet.text tweet;
          Memory.url := Tweet.permanentUrl tweet;
          Memory.source := "twitter";
          Memory.inReplyTo :=
            if truthy (Tweet.inReplyToStatusId tweet)
            then Some (stringToUuid
                   (to_string (Tweet.inReplyToStatusId tweet) +:+ "-" +:+ agent))
            else None |};
     Memory.createdAt := Tweet.timestamp tweet |}.

(** Lines 722-755: the fetched tweets that are handed to the loop that
    writes memories. *)
Definition tweetsToSave (agent : UUID) (store : list Memory.t)
    (allTweets : list Tweet.t) : list Tweet.t :=
  let tweetIdsToCheck := remove_dups (map Tweet.id allTweets) in
  let tweetUuids := map (memoryId agent) tweetIdsToCheck in
  let existingMemories := getMemoriesByRoomIds agent tweetUuids store in
  let existingMemoryIds := map Memory.roomId existingMemories in
  List.filter
    (fun tweet =>
       negb (bool_decide (memoryId agent (Tweet.id tweet) ∈ existingMemoryIds)))
    allTweets.

(** Lines 609-635: the ids found for the cached tweets, and the cached
    tweets that are not among them. *)
Definition cachedExistingIds (agent : UUID) (store : list Memory.t)
    (cachedResults : list Tweet.t) : list string :=
  map Memory.id
    (getMemoriesByRoomIds agent
       (map (fun tweet =>
               stringToUuid (to_string (Tweet.conversationId tweet) +:+ "-" +:+ agent))
            cachedResults)
       store).

Definition cachedTweetsToSave (agent : UUID) (store : list Memory.t)
    (cachedResults : list Tweet.t) : list Tweet.t :=
  List.filter
    (fun tweet =>
       negb (bool_decide (Tweet.id tweet ∈ cachedExistingIds agent store cachedResults)))
    cachedResults.

Definition saveCachedTweet (tweet : Tweet.t) : M unit :=
  s <- get ;;
  let m := cachedTweetMemory (agentId s) (twitterUserId s) tweet in
  emit (EnsureConnection (Memory.userId m) (Memory.roomId m)) ;;;
  s <- get ;;
  match getMemoryById (memoryId (agentId s) (Tweet.id tweet)) (memories s) with
  | Some _ => ret tt
  | None => createMemory m
  end.

Definition saveNewTweet (tweet : Tweet.t) : M unit :=
  s <- get ;;
  let m := newTweetMemory (agentId s) (twitterUserId s) tweet in
  emit (EnsureConnection (Memory.userId m) (Memory.roomId m)) ;;;
  createMemory m.

Definition populateFresh : M unit :=
  s <- get ;;
  allTweets <- fetchSearchTweets ("@" +:+ to_string (twitterUsername s)) ;;
  s <- get ;;
  let toSave := tweetsToSave (agentId s) (memories s) allTweets in
  emit (EnsureUserExists (agentId s)) ;;;
  for_each toSave saveNewTweet ;;;
  modify (set_timeline_cache (Some allTweets)) ;;;
  emit WriteTimelineCache.

Definition populateTimeline : M unit :=
  s <- get ;;
  match timeline_cache s with
  | Some cachedResults =>
      let existingMemoryIds := cachedExistingIds (agentId s) (memories s) cachedResults in
      let someCachedTweetsExist :=
        existsb (fun tweet => bool_decide (Tweet.id tweet ∈ existingMemoryIds))
                cachedResults in
      if someCachedTweetsExist then
        for_each (cachedTweetsToSave (agentId s) (memories s) cachedResults)
                 saveCachedTweet
      else populateFresh
  | None => populateFresh
  end.

(** The tweets handed to [createMemory] during a run, in order. *)
Definition ingested (before after : client) : list UUID :=
  omap (fun e => match e with CreateMemory m => Some (Memory.id m) | _ => None end)
       (drop (length (trace before)) (trace after)).

End client.

(** ** Concrete collaborators and scenarios *)

Module Scenario.

Definition uuid (s : string) : UUID := "uuid:" +:+ s.

Definition stringify (tweet : Tweet.t) : string :=
  "tweet " +:+ Tweet.id tweet +:+ " in " +:+ to_string (Tweet.conversationId tweet)
  +:+ ": " +:+ Tweet.text tweet.

Definition parse (data : string) : result Tweet.t :=
  Throw {| code := None; message := Some "Unexpected end of JSON input" |}.

Definition refresh_granted (token : string) (k : nat) : result (handle * string * string) :=
  Ok (S k, "access-" +:+ token, "refresh-" +:+ token).

Definition denied : error :=
  {| code := Some 400%Z; message := Some "invalid_grant" |}.

Definition refresh_denied (token : string) (k : nat) : result (handle * string * string) :=
  Throw denied.

Definition expired : error :=
  {| code := Some 401%Z; message := Some "Unauthorized" |}.

Definition throttled : error :=
  {| code := Some 429%Z; message := Some "Too Many Requests" |}.

(** A throttling answer whose text names the token. *)
Definition throttled_token : error :=
  {| code := Some 429%Z; message := Some "Rate limit exceeded for this token" |}.

(** An operation that fails on its first remote call and answers 7 from
    then on. *)
Definition fails_first (e : error) (k : nat) : result Z :=
  match k with 0 => Throw e | S _ => Ok 7%Z end.

Definition me : M Z := remote "me" (fails_first expired).

Definition client0 : client :=
  {| isReady := true; readyPromise := Ok tt;
     twitterClient := 0; _twitterClient := Some 0;
     tweetCache := ∅;
     twitterUserId := JsStr "42"; twitterUsername := JsStr "chitti";
     twitterAccessToken := "a0"; twitterRefreshToken := "r0";
     agentId := "agent"; characterName := "Chitti";
     dbAccessToken := "a0"; dbRefreshToken := "r0";
     memories := []; dirs := ∅; files := ∅; timeline_cache := None;
     api_calls := 0; refreshes := 0; trace := [];
     __dirname := ["app"];
     fs_fault := fun _ _ => None; fs_calls := 0;
     db_get_fault := fun _ => None; db_update_fault := fun _ => None |}.

Definition wire (id conv : string) : Wire.t :=
  {| Wire.id := id; Wire.text := "hello " +:+ id;
     Wire.conversation_id := JsStr conv; Wire.author_id := "7";
     Wire.in_reply_to_user_id := JsUndefined; Wire.created_at := JsUndefined;
     Wire.data_entities := Some (Wire.Entities [] [] (Some [])) |}.

Definition answer (id conv : string) : Wire.single :=
  {| Wire.data := wire id conv; Wire.includes_users := None |}.

(** The remote side answers every [singleTweet] call. *)
Definition single_ok (id : string) (k : nat) : result Wire.single :=
  Ok (answer id "100").

(** The first [singleTweet] call meets an expired token. *)
Definition single_expired_once (id : string) (k : nat) : result Wire.single :=
  match k with 0 => Throw expired | S _ => Ok (answer id "100") end.


(** The search answers the batch A, B, C. *)
Definition search_abc (query : string) (k : nat) : result Wire.page :=
  Ok {| Wire.tweets := [wire "1" "1"; wire "2" "1"; wire "3" "3"];
        Wire.page_users := None |}.

Definition tweetOfSingle := ClientBase.tweetOfSingle "2024-01-01T00:00:00.000Z" 0%Z (fun _ => 0%Z).
Definition tweetOfSearch := ClientBase.tweetOfSearch "2024-01-01T00:00:00.000Z" 0%Z (fun _ => 0%Z).

(** A stand-in for the library [glob]: the files that match the pattern
    segment by segment, where the segment [*] matches every name that
    does not start with a dot. *)
Fixpoint matches (pattern file : Path.t) : bool :=
  match pattern, file with
  | [], [] => true
  | a :: pattern, b :: file =>
      (bool_decide (a = b) ||
       (bool_decide (a = "*") && negb (String.prefix "." b)))
      && matches pattern file
  | _, _ => false
  end.

Definition glob (pattern : Path.t) (dirs : gset Path.t)
    (files : gmap Path.t string) : result (list Path.t) :=
  Ok (List.filter (matches pattern) (map fst (map_to_list files))).

Definition getTweet (single : string → nat → result Wire.single) : string → M Tweet.t :=
  ClientBase.getTweet stringify parse glob refresh_granted single
    "2024-01-01T00:00:00.000Z" 0%Z (fun _ => 0%Z).

Definition populateTimeline : M unit :=
  ClientBase.populateTimeline uuid refresh_granted search_abc
    "2024-01-01T00:00:00.000Z" 0%Z (fun _ => 0%Z).

(** Tweet 5 as [getTweet] builds it from the answer of the remote side. *)
Definition tweet5 : Tweet.t :=
  {| Tweet.id := "5"; Tweet.text := "hello 5";
     Tweet.conversationId := JsStr "100";
     Tweet.createdAt := "2024-01-01T00:00:00.000Z"; Tweet.userId := "7";
     Tweet.inReplyToStatusId := JsUndefined;
     Tweet.permanentUrl := "https://twitter.com/i/web/status/5";
     Tweet.username := JsUndefined; Tweet.name := JsUndefined;
     Tweet.hashtags := []; Tweet.mentions := []; Tweet.urls := [];
     Tweet.timestamp := 0%Z |}.

Definition tweetA : Tweet.t := tweetOfSearch None (wire "1" "1").
Definition tweetB : Tweet.t := tweetOfSearch None (wire "2" "1").
Definition tweetC : Tweet.t := tweetOfSearch None (wire "3" "3").

(** The record store already holds A, as [populateTimeline] writes it. *)
Definition client_with_A : client :=
  set_memories [newTweetMemory uuid "agent" (JsStr "42") tweetA] client0.


End Scenario.

End ClientBase.

(** * RequestQueue: further observations *)

Module RequestQueueObs.
Import RequestQueue.
Section obs.
Context {T : Type}.

(** The requests of a schedule, in the order of their [add] calls. *)
Fixpoint requests (sched : list (@action T)) : list (@request T) :=
  match sched with
  | [] => []
  | Add req :: rest => req :: requests rest
  | Tick _ _ :: rest => requests rest
  end.

(** What the closure of [add] does to the promise for an outcome of the
    request: [resolve(result)] or [reject(error)]. *)
Definition outcome (r : result T) : @settlement T :=
  match r with
  | Ok v => Resolved v
  | Throw e => Rejected e
  end.

(** The closure is the one [add] built for the request of that index. *)
Definition built_from (all : list (@request T)) (e : @entry T) : Prop :=
  ∃ req, all !! eid e = Some req ∧ e = wrap (eid e) req.

(** Every settled promise holds the outcome of the first invocation of
    its request, and every logged settlement is in the map. *)
Definition promises_inv (all : list (@request T)) (s : @state T) : Prop :=
  (∀ id st, promises s !! id = Some st →
            ∃ req, all !! id = Some req ∧ st = outcome (req 0)) ∧
  (∀ id, id ∈ completions s → is_Some (promises s !! id)).

(** The backoff delays slept so far. *)
Definition backoff_delays (l : list (@event T)) : list Z :=
  omap (fun e => match e with Backoff d => Some d | _ => None end) l.
Definition backoffs (s : @state T) : list Z := backoff_delays (log s).

End obs.

(** A closure that throws at every invocation and never settles a
    promise, waiting behind nothing, with one closure queued behind it. *)
Definition thrower : @entry Z :=
  {| eid := 0;
     invoke := fun _ => {| settles := None; throws := Some boom |} |}.

Definition thrower_state : @state Z :=
  {| queue := [wrap 1 (succeeds 2)]; processing := true;
     workers := [AwaitRequest thrower 0]; added := 2;
     calls := {[0 := 1]}; promises := ∅; log := [Invoked 0 0] |}.

(** One failing and one successful request, added while idle. *)
Definition mixed_scenario : list (@action Z) :=
  [Add (fails_once 1); Add (succeeds 2)].

End RequestQueueObs.

(** * ClientBase: further observations and the rest of the file *)

Module ClientBaseObs.
Import ClientBase.

(** Every tweet of the in-memory map is stored under its own id. *)
Definition cache_keyed (s : client) : Prop :=
  ∀ k tweet, tweetCache s !! k = Some tweet → Tweet.id tweet = k.

(** The credentials held by the object and those held by the database. *)
Definition credentials (s : client)
  : handle * option handle * string * string * string * string :=
  (twitterClient s, _twitterClient s, twitterAccessToken s,
   twitterRefreshToken s, dbAccessToken s, dbRefreshToken s).

(** The object and the class share one client handle, and the tokens of
    the object are the ones the database holds. *)
Definition synced (s : client) : Prop :=
  _twitterClient s = Some (twitterClient s) ∧
  twitterAccessToken s = dbAccessToken s ∧
  twitterRefreshToken s = dbRefreshToken s.

(** The method keeps the property [I] of the state. *)
Definition keeps {A} (I : client → Prop) (c : M A) : Prop :=
  ∀ s, I s → I (c s).2.

(** The two tiers of the tweet cache. *)
Definition cache_tiers (s : client)
  : gmap string Tweet.t * gmap Path.t string * gset Path.t :=
  (tweetCache s, files s, dirs s).

(** The credentials held by the object, and those held by the database. *)
Definition object_credentials (s : client)
  : handle * option handle * string * string :=
  (twitterClient s, _twitterClient s, twitterAccessToken s, twitterRefreshToken s).
Definition db_credentials (s : client) : string * string :=
  (dbAccessToken s, dbRefreshToken s).

(** The file system lets [cacheTweet] store into [file]: the environment
    rejects neither of the two calls, no directory on the way is a file,
    and [file] is not a directory. *)
Definition storable (file : Path.t) (s : client) : Prop :=
  fs_fault s (fs_calls s) (FsMkdir (Path.dirname file)) = None ∧
  fs_fault s (S (fs_calls s)) (FsWriteFile file) = None ∧
  (∀ d, d ∈ Path.ancestors (Path.dirname file) → files s !! d = None) ∧
  file ∉ dirs s.

(** The state after [cacheTweet] has stored [tweet] in [file]. *)
Definition stored (JSON_stringify : Tweet.t → string) (tweet : Tweet.t)
    (file : Path.t) (s : client) : client :=
  set_trace
    (trace s ++ [Mkdir (Path.dirname file);
                 WriteFile file (JSON_stringify tweet);
                 CacheSet (Tweet.id tweet)])
    (set_tweetCache (<[Tweet.id tweet := tweet]> (tweetCache s))
       (set_files (<[file := JSON_stringify tweet]> (files s))
          (set_dirs (list_to_set (Path.ancestors (Path.dirname file)) ∪ dirs s)
             (set_fs_calls (S (S (fs_calls s))) s)))).

(** The client is ready and initialized: what [ensureReady] asks for. *)
Definition ready (s : client) : Prop :=
  (isReady s = true ∨ readyPromise s = Ok tt) ∧
  truthy (twitterUsername s) = true ∧ truthy (twitterUserId s) = true.

(** The client after a restart of the process: the in-memory map is
    empty, the files are still there. *)
Definition restart (s : client) : client := set_tweetCache ∅ s.

(** A serializer and a parser that undo each other on one tweet. *)
Definition round_trips (JSON_stringify : Tweet.t → string)
    (JSON_parse : string → result Tweet.t) (tweet : Tweet.t) : Prop :=
  JSON_parse (JSON_stringify tweet) = Ok tweet.

(** ** Scenarios *)

(** The client before its user name is known. *)
Definition unready : client :=
  {| isReady := true; readyPromise := Ok tt;
     twitterClient := 0; _twitterClient := Some 0;
     tweetCache := ∅;
     twitterUserId := JsStr "42"; twitterUsername := JsUndefined;
     twitterAccessToken := "a0"; twitterRefreshToken := "r0";
     agentId := "agent"; characterName := "Chitti";
     dbAccessToken := "a0"; dbRefreshToken := "r0";
     memories := []; dirs := ∅; files := ∅; timeline_cache := None;
     api_calls := 0; refreshes := 0; trace := [];
     __dirname := ["app"];
     fs_fault := fun _ _ => None; fs_calls := 0;
     db_get_fault := fun _ => None; db_update_fault := fun _ => None |}.

(** A cache file of tweet 5 that is not JSON. *)
Definition client_with_garbage : client :=
  set_files {[ ["app"; "tweetcache"; "100"; "5.json"] := "garbage" ]}
    (set_dirs (list_to_set (Path.ancestors ["app"; "tweetcache"; "100"]))
       Scenario.client0).

(** A serializer with its parser, exact on tweet 5. *)
Definition parse5 (data : string) : result Tweet.t :=
  if bool_decide (data = Scenario.stringify Scenario.tweet5)
  then Ok Scenario.tweet5
  else Throw {| code := None; message := Some "Unexpected token" |}.

(** The answer for a tweet without entities. *)
Definition answer_plain (id : string) : Wire.single :=
  {| Wire.data :=
       {| Wire.id := id; Wire.text := "plain";
          Wire.conversation_id := JsUndefined; Wire.author_id := "7";
          Wire.in_reply_to_user_id := JsUndefined;
          Wire.created_at := JsUndefined; Wire.data_entities := None |};
     Wire.includes_users := None |}.

Definition single_plain (id : string) (k : nat) : result Wire.single :=
  Ok (answer_plain id).

(** The remote side refuses every call. *)
Definition forbidden : error :=
  {| code := Some 403%Z; message := Some "Forbidden" |}.
Definition single_forbidden (id : string) (k : nat) : result Wire.single :=
  Throw forbidden.

Definition search_forbidden (query : string) (k : nat) : result Wire.page :=
  Throw forbidden.

(** The store holds the memory of A and the cache file lists A. *)
Definition client_cached_A : client :=
  set_timeline_cache (Some [Scenario.tweetA]) Scenario.client_with_A.

(** A reply to tweet 3. *)
Definition reply_tweet : Tweet.t :=
  {| Tweet.id := "4"; Tweet.text := "a reply";
     Tweet.conversationId := JsStr "3";
     Tweet.createdAt := "2024-01-01T00:00:00.000Z"; Tweet.userId := "7";
     Tweet.inReplyToStatusId := JsStr "3";
     Tweet.permanentUrl := "https://twitter.com/i/web/status/4";
     Tweet.username := JsUndefined; Tweet.name := JsUndefined;
     Tweet.hashtags := []; Tweet.mentions := []; Tweet.urls := [];
     Tweet.timestamp := 0%Z |}.



(** The database loses the connection while it answers the update: the
    tokens are written, the call is rejected. *)
Definition connection_lost : error :=
  {| code := None; message := Some "Connection terminated unexpectedly" |}.

Definition client_db_torn : client :=
  {| isReady := true; readyPromise := Ok tt;
     twitterClient := 0; _twitterClient := Some 0;
     tweetCache := ∅;
     twitterUserId := JsStr "42"; twitterUsername := JsStr "chitti";
     twitterAccessToken := "a0"; twitterRefreshToken := "r0";
     agentId := "agent"; characterName := "Chitti";
     dbAccessToken := "a0"; dbRefreshToken := "r0";
     memories := []; dirs := ∅; files := ∅; timeline_cache := None;
     api_calls := 0; refreshes := 0; trace := [];
     __dirname := ["app"];
     fs_fault := fun _ _ => None; fs_calls := 0;
     db_get_fault := fun _ => None;
     db_update_fault := fun _ => Some (connection_lost, true) |}.

(** The records handed to [createMemory] in a stretch of the trace. *)
Definition creations (l : list effect) : list Memory.t :=
  omap (fun e => match e with CreateMemory m => Some m | _ => None end) l.

(** A record of the agent whose id is the raw id of tweet A; its room is
    the key that the path of the cached results looks up. *)
Definition raw_memory : Memory.t :=
  {| Memory.id := "1"; Memory.userId := "uuid:7"; Memory.agentId := "agent";
     Memory.roomId := Scenario.uuid "1-agent";
     Memory.body := {| Memory.text := "hello"; Memory.url := "";
                       Memory.source := "twitter"; Memory.inReplyTo := None |};
     Memory.createdAt := 0%Z |}.

(** The cache file lists A, B and B again; the store holds
    [raw_memory]. *)
Definition client_cached_path : client :=
  set_timeline_cache (Some [Scenario.tweetA; Scenario.tweetB; Scenario.tweetB])
    (set_memories [raw_memory] Scenario.client0).

End ClientBaseObs.

(** * fetchHomeTimeline *)

Module HomeWire.
(** A tweet of the answer of [twitterClient.v2.homeTimeline];
    [created_at] and [author_id] are requested by the call and are taken
    to be present. *)
Record url := Url { short_url : string; expanded_url : string }.

Record entities := Entities {
  hashtags : option (list string);
  mentions : option (list string);
  urls : option (list url)
}.

Record t := Make {
  id : string;
  text : string;
  conversation_id : nullable;
  created_at : string;
  author_id : string;
  in_reply_to_user_id : nullable;
  tweet_entities : option entities
}.
End HomeWire.

Module HomeTimeline.
Import ClientBase.

(** [a || null] *)
Definition or_null (a : nullable) : nullable :=
  if truthy a then a else JsNull.

(** [tweet.entities?.<field> || []] *)
Definition entity_list {X} (field : HomeWire.entities → option (list X))
    (e : option HomeWire.entities) : list X :=
  match e with
  | Some e => default [] (field e)
  | None => []
  end.

Section home.
Context (refreshOAuth2Token : string → nat → result (handle * string * string)).
(** [twitterClient.v2.homeTimeline({..., max_results: count})] as the
    [k]-th remote call: [data.data], or [None] when it is not an array. *)
Context (homeTimeline : nat → nat → result (option (list HomeWire.t))).
Context (getTime : string → Z).

(** The object pushed onto [mappedTweets]. *)
Definition tweetOfHome (tweet : HomeWire.t) : Tweet.t :=
  {| Tweet.id := HomeWire.id tweet;
     Tweet.text := HomeWire.text tweet;
     Tweet.conversationId := or_null (HomeWire.conversation_id tweet);
     Tweet.createdAt := HomeWire.created_at tweet;
     Tweet.userId := HomeWire.author_id tweet;
     Tweet.inReplyToStatusId := or_null (HomeWire.in_reply_to_user_id tweet);
     Tweet.permanentUrl :=
       "https://twitter.com/" +:+ HomeWire.author_id tweet +:+ "/status/"
       +:+ HomeWire.id tweet;
     Tweet.username := JsNull;
     Tweet.name := JsNull;
     Tweet.hashtags := entity_list HomeWire.hashtags (HomeWire.tweet_entities tweet);
     Tweet.mentions := entity_list HomeWire.mentions (HomeWire.tweet_entities tweet);
     Tweet.urls :=
       map HomeWire.expanded_url
         (entity_list HomeWire.urls (HomeWire.tweet_entities tweet));
     Tweet.timestamp := getTime (HomeWire.created_at tweet) |}.

Definition notAnArray : error :=
  {| code := None; message := Some "Expected tweets to be an array, but got:" |}.

(** The operation handed to the guard; its own [catch] logs the error
    and throws it again. *)
Definition homeOperation (count : nat) : M (list Tweet.t) :=
  try_catch
    (tweets <- remote "homeTimeline" (homeTimeline count) ;;
     match tweets with
     | Some tweets => ret (map tweetOfHome tweets)
     | None => throw notAnArray
     end)
    (fun error => throw error).

Definition fetchHomeTimeline (count : nat) : M (list Tweet.t) :=
  ensureReady ;;;
  executeWithTokenRefresh refreshOAuth2Token (homeOperation count).

End home.

(** A home timeline of two tweets, the second without conversation id. *)
Definition home1 : HomeWire.t :=
  {| HomeWire.id := "11"; HomeWire.text := "first";
     HomeWire.conversation_id := JsStr "10";
     HomeWire.created_at := "2024-01-01T00:00:00.000Z";
     HomeWire.author_id := "7"; HomeWire.in_reply_to_user_id := JsUndefined;
     HomeWire.tweet_entities := None |}.

Definition home2 : HomeWire.t :=
  {| HomeWire.id := "12"; HomeWire.text := "second";
     HomeWire.conversation_id := JsUndefined;
     HomeWire.created_at := "2024-01-01T00:00:00.000Z";
     HomeWire.author_id := "7"; HomeWire.in_reply_to_user_id := JsUndefined;
     HomeWire.tweet_entities :=
       Some (HomeWire.Entities None None
               (Some [HomeWire.Url "https://t.co/x" "https://example.org/x"])) |}.

Definition home_ok (count k : nat) : result (option (list HomeWire.t)) :=
  Ok (Some [home1; home2]).

Definition home_not_array (count k : nat) : result (option (list HomeWire.t)) :=
  Ok None.

End HomeTimeline.

(** * initializeProfile *)

Module Profile.

(** [character.bio: string | string[]] *)
Inductive bio :=
| Text (s : string)
| Lines (l : list string).

Record character := Character {
  name : string;
  character_bio : bio;
  nicknames : option (list string)   (* twitterProfile?.nicknames *)
}.

Record t := Make {
  username : string;
  screenName : string;
  profile_bio : bio;
  profile_nicknames : list string
}.

(** [typeof bio === "string"] *)
Definition is_text (b : bio) : bool :=
  match b with Text _ => true | Lines _ => false end.

(** [description || typeof bio === "string" ? bio : bio.length > 0 ? bio[0] : ""]:
    the condition of the outer conditional is the whole disjunction. *)
Definition bioOf (twitterDescription : nullable) (b : bio) : bio :=
  if truthy twitterDescription || is_text b then b
  else match b with
       | Lines (first :: _) => Text first
       | _ => Text ""
       end.

(** [initializeProfile], from the three fields of the client it reads
    and the character of the runtime; [None] is [undefined]. *)
Definition initializeProfile (twitterUsername twitterDescription twitterName : nullable)
    (c : character) : option t :=
  if negb (truthy twitterUsername) then None
  else
    Some {| username := to_string twitterUsername;
            screenName := falsy_or twitterName (name c);
            profile_bio := bioOf twitterDescription (character_bio c);
            profile_nicknames := default [] (nicknames c) |}.

Definition poet : character :=
  {| name := "Chitti";
     character_bio := Lines ["writes verse"; "likes tea"];
     nicknames := None |}.

End Profile.

(** * extractAnswer *)

Module JsString.

(** A string of JavaScript is the sequence of its UTF-16 code units:
    [indexOf], [slice] and [length] count code units. *)
Definition t := list N.

(** The code units of a literal made of ASCII characters only. *)
Definition of_ascii (s : string) : t :=
  map Ascii.N_of_ascii (String.list_ascii_of_string s).

Fixpoint starts_with (needle hay : t) : bool :=
  match needle, hay with
  | [], _ => true
  | _ :: _, [] => false
  | a :: needle, b :: hay => (a =? b)%N && starts_with needle hay
  end.

(** The first index at which [needle] occurs in [hay], counted from [i]
    for the head of [hay]; [-1] when there is none. *)
Fixpoint search (needle hay : t) (i : nat) : Z :=
  if starts_with needle hay then Z.of_nat i
  else match hay with
       | [] => (-1)%Z
       | _ :: rest => search needle rest (S i)
       end.

(** [hay.indexOf(needle, position)] *)
Definition indexOf (needle : t) (position : nat) (hay : t) : Z :=
  let p := Nat.min position (length hay) in
  search needle (drop p hay) p.

(** An index argument of [slice], brought into the string. *)
Definition clamp (len i : Z) : Z :=
  if (i <? 0)%Z then Z.max (len + i) 0 else Z.min i len.

(** [s.slice(start, stop)] *)
Definition slice (start stop : Z) (s : t) : t :=
  let len := Z.of_nat (length s) in
  let from := clamp len start in
  let to := clamp len stop in
  take (Z.to_nat (to - from)) (drop (Z.to_nat from) s).

Definition label : t := of_ascii "Answer: ".
Definition endMarker : t := of_ascii "<|endoftext|>".

Definition extractAnswer (text : t) : t :=
  let startIndex := (indexOf label 0 text + 8)%Z in
  let endIndex := indexOf endMarker 11 text in
  slice startIndex endIndex text.

(** [needle] occurs in [hay] at index [i]. *)
Definition occurs_at (needle hay : t) (i : nat) : Prop :=
  starts_with needle (drop i hay) = true.

(** The code unit of the letter e with acute accent: one code unit, two
    bytes in UTF-8. *)
Definition e_acute : N := 233.

End JsString.

(** * Facts about RequestQueue *)

Module RequestQueueFacts.
Import RequestQueue.

#[local] Arguments seq : simpl never.
#[local] Arguments Nat.sub : simpl never.
#[local] Arguments invoked_ids : simpl never.
#[local] Arguments settled_ids : simpl never.
#[local] Arguments fulfilled_ids : simpl never.
#[local] Arguments requeued_ids : simpl never.
Section facts.
Context {T : Type}.
Implicit Types (s : @state T) (e : @entry T) (req : @request T).

Lemma wrap_wrapped id req : wrapped (wrap id req).
Proof.
  intros k. cbn. destruct (req k); cbn; eauto.
Qed.

Lemma wrap_resolves id req v : req 0 = Ok v → resolves (wrap id req).
Proof.
  intros H. exists v. cbn. by rewrite H.
Qed.

Lemma settle_frame id o s :
  queue (settle id o s) = queue s ∧ processing (settle id o s) = processing s ∧
  workers (settle id o s) = workers s ∧ added (settle id o s) = added s ∧
  calls (settle id o s) = calls s.
Proof.
  unfold settle. destruct o as [st|]; [|done].
  by destruct (promises s !! id).
Qed.

Lemma loop_head_frame s s' ph :
  loop_head s = (s', ph) →
  workers s' = workers s ∧ added s' = added s ∧
  match ph with
  | Some _ => processing s' = processing s
  | None => processing s' = false
  end.
Proof.
  unfold loop_head. destruct (queue s); intros [= <- <-]; done.
Qed.

Lemma resume_frame w u s s' ph :
  resume w u s = (s', ph) →
  workers s' = workers s ∧ added s' = added s ∧
  match ph with
  | Some _ => processing s' = processing s
  | None => processing s' = false
  end.
Proof.
  destruct w as [e k| |]; cbn.
  - destruct (settle_frame (eid e) (settles (invoke e k)) s) as (_ & Hp & Hw & Ha & _).
    destruct (throws (invoke e k)); intros [= <- <-]; cbn; auto.
  - intros [= <- <-]; done.
  - apply loop_head_frame.
Qed.

Lemma processQueue_idle s :
  processing s = true ∨ queue s = [] → processQueue s = s.
Proof.
  unfold processQueue. intros [-> | ->]; [done|].
  by rewrite orb_true_r.
Qed.

Lemma single_processQueue s : single s → single (processQueue s).
Proof.
  intros Hs. unfold processQueue.
  destruct (processing s) eqn:Hp; cbn; [done|].
  destruct (queue s) as [|e q] eqn:Hq; cbn; [done|].
  destruct Hs as [[_ Hw] | [Hp' _]]; [|congruence].
  right. unfold loop_head. cbn. rewrite Hq. cbn. rewrite Hw. eauto.
Qed.

Lemma single_step s a : single s → single (step s a).
Proof.
  intros Hs. destruct a as [req | i u]; cbn.
  - apply single_processQueue.
    destruct Hs as [[? ?] | [? ?]]; [left | right]; done.
  - unfold tick. destruct (workers s !! i) as [w|] eqn:Hi; [|done].
    destruct (resume w u s) as [s' ph] eqn:Hr.
    apply resume_frame in Hr as (Hw & _ & Hph).
    destruct Hs as [[_ Hnil] | [Hp [w0 Hone]]].
    { rewrite Hnil in Hi. done. }
    rewrite Hone in Hi. destruct i; [|done].
    rewrite Hw, Hone.
    destruct ph; cbn; [right | left]; split; try congruence; eauto.
Qed.

Lemma single_exec sched s : single s → single (exec sched s).
Proof.
  revert s. induction sched as [|a sched IH]; intros s Hs; [done|].
  cbn. apply IH. by apply single_step.
Qed.

(** C3: at most one drain loop is ever active.  In every reachable state
    of the queue at most one [processQueue] call is in flight and the
    [processing] flag is true exactly when one is; a [processQueue] call
    made while the flag is set, or on an empty queue, returns at once and
    changes nothing. *)
Theorem single_drain_worker (sched : list (@action T)) :
  let s := exec sched init in
  length (workers s) ≤ 1 ∧
  (processing s = true ↔ length (workers s) = 1) ∧
  (∀ s', processing s' = true ∨ queue s' = [] → processQueue s' = s').
Proof.
  cbn. assert (Hs : single (exec sched (@init T))).
  { apply single_exec. by left. }
  split; [|split].
  - destruct Hs as [[_ ->] | [_ [w ->]]]; cbn; lia.
  - destruct Hs as [[Hp ->] | [Hp [w ->]]]; cbn; rewrite Hp; split; done.
  - apply processQueue_idle.
Qed.

(** ** First-in first-out order *)

Lemma invoked_ids_snoc (l : list (@event T)) ev :
  invoked_ids (l ++ [ev]) =
  invoked_ids l ++ match ev with Invoked id _ => [id] | _ => [] end.
Proof.
  unfold invoked_ids. rewrite omap_app. by destruct ev.
Qed.

Lemma settled_ids_snoc (l : list (@event T)) ev :
  settled_ids (l ++ [ev]) =
  settled_ids l ++ match ev with Settled id _ => [id] | _ => [] end.
Proof.
  unfold settled_ids. rewrite omap_app. by destruct ev.
Qed.

Lemma fulfilled_ids_snoc (l : list (@event T)) ev :
  fulfilled_ids (l ++ [ev]) =
  fulfilled_ids l ++
  match ev with Settled id (Resolved _) => [id] | _ => [] end.
Proof.
  unfold fulfilled_ids. rewrite omap_app. destruct ev as [| ? [] | | |]; done.
Qed.

Lemma requeued_ids_snoc (l : list (@event T)) ev :
  requeued_ids (l ++ [ev]) =
  requeued_ids l ++ match ev with Requeued id => [id] | _ => [] end.
Proof.
  unfold requeued_ids. rewrite omap_app. by destruct ev.
Qed.

Ltac log_simpl :=
  unfold invocations, completions, fulfilments, retries in *; cbn;
  rewrite ?invoked_ids_snoc, ?settled_ids_snoc, ?fulfilled_ids_snoc,
    ?requeued_ids_snoc; cbn; rewrite ?app_nil_r.

Section fifo.
Context (P : @entry T → Prop).

Abbreviation worker_ok := (worker_ok P).
Abbreviation fifo_inv := (fifo_inv P).
Abbreviation admissible_sched := (admissible_sched P).

Lemma fifo_inv_init : fifo_inv (@init T).
Proof.
  exists 0, 0. unfold worker_ok. cbn. split_and!; done.
Qed.

Lemma worker_ok_busy m f s :
  worker_ok m f s → processing s = true →
  ∀ q, worker_ok m f (set_queue q s).
Proof.
  unfold worker_ok. cbn. intros Hw Hp q.
  destruct (workers s) as [|[e k| |] [|]]; try done.
  destruct Hw as [Hw _]. congruence.
Qed.

Lemma worker_ok_idle m f s :
  worker_ok m f s → processing s = false →
  workers s = [] ∧ queue s = [] ∧ f = m.
Proof.
  unfold worker_ok. intros Hw Hp.
  destruct (workers s) as [|[e k| |] [|]]; try done.
  - by destruct Hw as (_ & ? & ?).
  - destruct Hw as [Hw _]. congruence.
  - destruct Hw as [Hw _]. congruence.
Qed.

Lemma fifo_inv_add req s :
  P (wrap (added s) req) → fifo_inv s → fifo_inv (add req s).
Proof.
  intros HP (m & f & Hinv & Hcmp & Hret & Hq & Hle & Hwr & Hcalls & Hprom & Hful & Hw).
  unfold add, processQueue. cbn.
  destruct (processing s) eqn:Hp; cbn.
  - (* a loop is running: the closure waits at the tail *)
    exists m, f. split_and!; try done.
    + cbn. rewrite map_app, Hq. cbn.
      replace (S (added s) - m) with (S (added s - m)) by lia.
      rewrite seq_S. do 2 f_equal. lia.
    + cbn. lia.
    + cbn. apply Forall_app. split; [done|].
      apply Forall_singleton. split; [apply wrap_wrapped | done].
    + by apply (worker_ok_busy m f s).
  - (* idle: a new loop starts and invokes the closure at once *)
    destruct (worker_ok_idle _ _ _ Hw Hp) as (Hwk & Hqe & ->).
    rewrite Hqe in Hq. cbn in Hq.
    assert (added s = m) as Ha.
    { destruct (added s - m) eqn:E; [lia | done]. }
    rewrite Ha in HP.
    rewrite Hqe. cbn. unfold loop_head. cbn.
    rewrite Ha, (Hcalls m) by lia. cbn.
    exists (S m), m. unfold worker_ok. log_simpl. rewrite Hwk. cbn.
    rewrite Nat.sub_diag.
    split_and!; try done.
    + by rewrite seq_S, Hinv.
    + intros id Hid. rewrite lookup_insert_ne by lia. apply Hcalls. lia.
    + apply wrap_wrapped.
Qed.

Lemma fifo_inv_tick i u s : fifo_inv s → fifo_inv (tick i u s).
Proof.
  intros (m & f & Hinv & Hcmp & Hret & Hq & Hle & Hwr & Hcalls & Hprom & Hful & Hw).
  unfold tick. destruct (workers s !! i) as [w|] eqn:Hi.
  2:{ exists m, f. done. }
  unfold worker_ok in Hw.
  destruct (workers s) as [|w0 [|]] eqn:Hwk; try done.
  2:{ by destruct w0. }
  destruct i; [|done]. injection Hi as ->.
  destruct w as [e k | d | d]; [| done |].
  - (* the awaited closure settles *)
    destruct Hw as (Hp & Hwe & HPe & -> & Hm & Hf).
    destruct (Hwe 0) as [Hth [st Hst]].
    cbn. rewrite Hth, Hst. unfold settle.
    assert (eid e = f) as He by lia.
    rewrite He, (Hprom f) by lia. cbn. rewrite Hwk. cbn.
    exists m, m. unfold worker_ok. log_simpl.
    split_and!; try done.
    + by rewrite Hcmp, <- Hf, seq_S.
    + intros id Hid. rewrite lookup_insert_ne by lia. apply Hprom. lia.
    + intros Hres. destruct (Hres e HPe) as [v Hv].
      rewrite Hv in Hst. cbn in Hst. injection Hst as <-.
      by rewrite Hful.
  - (* the loop goes round *)
    destruct Hw as (Hp & ->).
    cbn. unfold loop_head.
    destruct (queue s) as [|e q] eqn:Hqs; cbn.
    + rewrite Hwk. cbn. exists m, m. unfold worker_ok. cbn.
      rewrite Hqs. split_and!; done.
    + rewrite Hwk. cbn. cbn in Hq.
      destruct (added s - m) as [|n] eqn:E; [done|].
      cbn in Hq. injection Hq as He Hq. rewrite He.
      rewrite (Hcalls m) by lia. cbn.
      exists (S m), m. unfold worker_ok. log_simpl.
      apply Forall_cons in Hwr as [[Hwe HPe] Hwq].
      split_and!; try done.
      * by rewrite seq_S, Hinv.
      * rewrite Hq. f_equal. lia.
      * lia.
      * intros id Hid. rewrite lookup_insert_ne by lia. apply Hcalls. lia.
      * by rewrite He.
Qed.

Lemma fifo_inv_exec sched s :
  admissible_sched sched → fifo_inv s → fifo_inv (exec sched s).
Proof.
  revert s. induction sched as [|a sched IH]; intros s Hok Hs; [done|].
  cbn. destruct a as [req | i u]; cbn in Hok.
  - destruct Hok as [Hreq Hok]. apply IH; [done|]. by apply fifo_inv_add.
  - apply IH; [done|]. by apply fifo_inv_tick.
Qed.

(** *** The loop drains the queue *)

Lemma added_add req s : added (add req s) = S (added s).
Proof.
  unfold add, processQueue. cbn.
  destruct (processing s); cbn; [done|].
  destruct (queue s ++ [wrap (added s) req]) eqn:E; cbn; done.
Qed.

Lemma added_tick i u s : added (tick i u s) = added s.
Proof.
  unfold tick. destruct (workers s !! i) as [w|]; [|done].
  destruct (resume w u s) as [s' ph] eqn:Hr.
  by apply resume_frame in Hr as (_ & Ha & _).
Qed.

Lemma exec_cons a sched s : exec (a :: sched) s = exec sched (step s a).
Proof. done. Qed.

Lemma added_exec sched s : added (exec sched s) = adds sched + added s.
Proof.
  revert s. induction sched as [|[req|i u] sched IH]; intros s; [done| |].
  - rewrite exec_cons, IH. cbn. rewrite added_add. lia.
  - rewrite exec_cons, IH. cbn. by rewrite added_tick.
Qed.

Lemma weight_add req s : fifo_inv s → weight (add req s) = weight s + 2.
Proof.
  intros (m & f & _ & _ & _ & _ & _ & _ & _ & _ & _ & Hw).
  unfold add, processQueue, weight. cbn.
  destruct (processing s) eqn:Hp; cbn.
  - rewrite length_app. cbn. lia.
  - destruct (worker_ok_idle _ _ _ Hw Hp) as (Hwk & Hqe & ->).
    rewrite Hqe, ?Hwk. cbn. unfold loop_head. cbn. rewrite ?Hwk. cbn. lia.
Qed.

Lemma weight_tick i u s :
  fifo_inv s →
  weight (tick i u s) = weight s - match i with 0 => 1 | S _ => 0 end.
Proof.
  intros (m & f & _ & _ & _ & _ & _ & _ & _ & _ & _ & Hw).
  unfold tick, weight. unfold worker_ok in Hw.
  destruct (workers s) as [|w0 [|]] eqn:Hwk.
  - rewrite lookup_nil, Hwk. destruct Hw as (_ & -> & _). cbn. lia.
  - destruct i as [|i].
    2:{ replace ([w0] !! S i) with (@None (@phase T)) by done.
        rewrite Hwk. cbn. lia. }
    cbn -[Nat.mul].
    destruct w0 as [e k | d | d]; [| done |].
    + destruct Hw as (_ & Hwe & _).
      destruct (Hwe k) as [Hth [st Hst]]. unfold resume. rewrite Hth.
      destruct (settle_frame (eid e) (settles (invoke e k)) s) as (Hq & _ & Hws & _).
      cbn -[Nat.mul]. rewrite Hq, Hws, Hwk. cbn. lia.
    + unfold resume, loop_head.
      destruct (queue s) as [|e q] eqn:Hqs; cbn; rewrite Hwk, ?Hqs; cbn; lia.
  - by destruct w0.
Qed.

Lemma weight_exec sched s :
  admissible_sched sched → fifo_inv s →
  weight (exec sched s) ≤ weight s + 2 * adds sched.
Proof.
  revert s. induction sched as [|a sched IH]; intros s Hok Hs; [cbn; lia|].
  rewrite exec_cons. destruct a as [req | i u]; cbn in Hok.
  - destruct Hok as [Hreq Hok].
    assert (Hs' : fifo_inv (add req s)) by by apply fifo_inv_add.
    specialize (IH (add req s) Hok Hs').
    rewrite weight_add in IH by done.
    change (adds (Add req :: sched)) with (S (adds sched)).
    change (step s (Add req)) with (add req s). lia.
  - assert (Hs' : fifo_inv (tick i u s)) by by apply fifo_inv_tick.
    specialize (IH (tick i u s) Hok Hs').
    rewrite weight_tick in IH by done.
    change (adds (Tick i u :: sched)) with (adds sched).
    change (step s (Tick i u)) with (tick i u s). destruct i; lia.
Qed.

Lemma weight_drain (us : list Z) s :
  fifo_inv s → weight s ≤ length us →
  weight (exec (map (Tick 0) us) s) = 0.
Proof.
  revert s. induction us as [|u us IH]; intros s Hs Hle.
  { change (exec (map (Tick 0) []) s) with s. cbn [length] in Hle. lia. }
  change (map (Tick 0) (u :: us)) with (@Tick T 0 u :: map (Tick 0) us).
  rewrite exec_cons. apply IH; [by apply fifo_inv_tick|].
  change (step s (Tick 0 u)) with (tick 0 u s).
  rewrite weight_tick by done. cbn [length] in Hle. lia.
Qed.

Lemma admissible_ticks (us : list Z) : admissible_sched (map (Tick 0) us).
Proof.
  induction us; done.
Qed.

Lemma adds_ticks (us : list Z) : adds (map (@Tick T 0) us) = 0.
Proof.
  induction us; done.
Qed.

(** In a state without pending awaits everything added has been invoked
    and has settled, in the order of the [add] calls. *)
Lemma drained s :
  fifo_inv s → weight s = 0 →
  processing s = false ∧ queue s = [] ∧
  invocations s = seq 0 (added s) ∧ completions s = seq 0 (added s) ∧
  retries s = [] ∧
  ((∀ e, P e → resolves e) → fulfilments s = seq 0 (added s)).
Proof.
  intros (m & f & Hinv & Hcmp & Hret & Hq & Hle & _ & _ & _ & Hful & Hw) Hz.
  unfold weight in Hz. unfold worker_ok in Hw.
  destruct (workers s) as [|[e k| |] [|]]; try done; try lia.
  destruct Hw as (Hp & Hqe & ->).
  rewrite Hqe in Hq. cbn in Hq.
  assert (added s = m) as ->.
  { destruct (added s - m) eqn:E; [lia | done]. }
  split_and!; try done. intros Hres. by rewrite Hful.
Qed.

(** At every moment the invocations and the settlements are initial
    segments of the order of the [add] calls, and nothing is retried. *)
Lemma prefixes s :
  fifo_inv s →
  ∃ m f, f ≤ m ∧ m ≤ added s ∧
    invocations s = seq 0 m ∧ completions s = seq 0 f ∧ retries s = [] ∧
    ((∀ e, P e → resolves e) → fulfilments s = seq 0 f).
Proof.
  intros (m & f & Hinv & Hcmp & Hret & Hq & Hle & _ & _ & _ & Hful & Hw).
  exists m, f. split_and!; try done.
  - unfold worker_ok in Hw.
    destruct (workers s) as [|[e k| |] [|]]; try done.
    + destruct Hw as (_ & _ & ->). done.
    + destruct Hw as (_ & _ & _ & _ & _ & <-). lia.
    + destruct Hw as (_ & ->). done.
  - intros Hres. by rewrite Hful.
Qed.

End fifo.

Lemma succeeds_first_admissible (sched : list (@action T)) :
  Forall succeeds_first sched → admissible_sched resolves sched.
Proof.
  induction 1 as [|a sched Ha _ IH]; [done|].
  destruct a as [req | i u]; cbn; [|done].
  split; [|done]. destruct Ha as [v Hv]. intros id. by eapply wrap_resolves.
Qed.

Lemma any_admissible (sched : list (@action T)) :
  admissible_sched (λ _, True) sched.
Proof.
  induction sched as [|[|] sched IH]; done.
Qed.

(** Whatever the requests do, a closure built by [add] is invoked once:
    the invocations follow the order of the [add] calls without
    repetition and the catch branch of [processQueue] is never taken. *)
Lemma added_requests_run_once (sched : list (@action T)) :
  let s := exec sched init in
  retries s = [] ∧ ∃ m, m ≤ adds sched ∧ invocations s = seq 0 m.
Proof.
  cbn.
  destruct (prefixes (λ _, True) (exec sched init)) as
    (m & f & _ & Hm & Hinv & _ & Hret & _).
  { apply fifo_inv_exec; [apply any_admissible | apply fifo_inv_init]. }
  split; [done|]. exists m. split; [|done].
  rewrite added_exec in Hm. cbn in Hm. lia.
Qed.

End facts.

(** C1 (the behaviour of the code on the scenario of the claim): task A
    fails on its first attempt and task B is added after it.  A's promise
    is rejected, A is not put back into the queue and is never invoked
    again, no backoff delay is slept, and B runs next. *)
Theorem failed_task_is_not_retried :
  let s := exec retry_scenario init in
  log s =
    [Invoked 0 0; Settled 0 (Rejected boom); RandomDelay 1500;
     Invoked 1 0; Settled 1 (Resolved 2%Z); RandomDelay 1500] ∧
  invocations s = [0; 1] ∧ retries s = [] ∧
  queue s = [] ∧ processing s = false.
Proof.
  vm_compute. split_and!; reflexivity.
Qed.

End RequestQueueFacts.

(** * Facts about ClientBase *)

Module ClientBaseFacts.
Import ClientBase ClientBaseObs.

#[local] Arguments Path.ancestors : simpl never.
#[local] Arguments Path.join : simpl never.
#[local] Arguments Path.dirname : simpl never.

Section guard.
Context (refreshOAuth2Token : string → nat → result (handle * string * string)).
Context {A : Type}.
Implicit Types (operation : M A) (s : client) (e : error).

Abbreviation refreshTwitterToken := (refreshTwitterToken refreshOAuth2Token).
Abbreviation executeWithTokenRefresh :=
  (executeWithTokenRefresh refreshOAuth2Token).

Example includes_token_inside :
  includes "token" "Invalid or expired token" = true ∧
  includes "token" "Token revoked" = false ∧
  includes "token" "" = false.
Proof. done. Qed.

Lemma credentialExpired_spec e :
  credentialExpired e = true ↔
  code e = Some 401%Z ∨ ∃ m, message e = Some m ∧ includes "token" m = true.
Proof.
  unfold credentialExpired. rewrite orb_true_iff, bool_decide_eq_true.
  split; (intros [H | H]; [by left | right]).
  - destruct (message e) as [m|]; [eauto | done].
  - destruct H as (m & -> & H). done.
Qed.

Lemma executeWithTokenRefresh_ok operation s v s1 :
  operation s = (Ok v, s1) → executeWithTokenRefresh operation s = (Ok v, s1).
Proof.
  intros H. unfold ClientBase.executeWithTokenRefresh, try_catch. by rewrite H.
Qed.

(** Every call of [refreshTwitterToken] is counted and logged, whether
    the exchange succeeds or not. *)
Lemma refreshTwitterToken_counts s :
  refreshes (refreshTwitterToken s).2 = S (refreshes s) ∧
  trace (refreshTwitterToken s).2 = trace s ++ [Refresh (refreshes s)] ∧
  api_calls (refreshTwitterToken s).2 = api_calls s.
Proof.
  unfold ClientBase.refreshTwitterToken, getTwitterRefreshToken,
    updateTwitterAccessToken, bind, get, modify, emit, lift, ret, throw. cbn.
  destruct (db_get_fault s (refreshes s)); [done|].
  destruct (refreshOAuth2Token (dbRefreshToken s) (refreshes s))
    as [[[h a] r]|e]; [|done]. cbn.
  destruct (db_update_fault s (refreshes s)) as [[e []]|]; done.
Qed.

(** C4, as the code has it: an operation whose first invocation fails
    with a credential-expired error (code 401, or a message containing
    "token") makes the guard call [refreshTwitterToken] exactly once.
    When that refresh succeeds the operation is invoked exactly once
    more, from the refreshed state, and the outcome of that second
    invocation is the outcome of the guard: a success is returned, a
    failure propagates unmodified, and nothing runs after it.  When the
    refresh itself throws, its error propagates and the operation is not
    invoked again. *)
Theorem refresh_once operation s e s1 :
  operation s = (Throw e, s1) →
  code e = Some 401%Z ∨ (∃ m, message e = Some m ∧ includes "token" m = true) →
  match refreshTwitterToken s1 with
  | (Ok _, s2) =>
      refreshes s2 = S (refreshes s1) ∧
      executeWithTokenRefresh operation s = operation s2 ∧
      (∀ v s3, operation s2 = (Ok v, s3) →
               executeWithTokenRefresh operation s = (Ok v, s3)) ∧
      (∀ e2 s3, operation s2 = (Throw e2, s3) →
                executeWithTokenRefresh operation s = (Throw e2, s3))
  | (Throw e', s2) =>
      refreshes s2 = S (refreshes s1) ∧
      executeWithTokenRefresh operation s = (Throw e', s2)
  end.
Proof.
  intros Hop He. apply credentialExpired_spec in He.
  pose proof (refreshTwitterToken_counts s1) as (Hcount & _).
  unfold ClientBase.executeWithTokenRefresh, try_catch. rewrite Hop, He.
  unfold bind.
  destruct (refreshTwitterToken s1) as [[[]|e'] s2] eqn:Hr; cbn in Hcount.
  - split_and!; [done | done | |]; by intros ? ? ->.
  - done.
Qed.

(** C5, as the code has it: an operation whose first invocation fails
    with code 429, and whose error is not classified as credential-expired
    first, makes the guard sleep the fixed 90 001 000 ms (25 hours and
    one second, whatever happened before) and then invoke the operation
    exactly once more, whose outcome is the outcome of the guard.  A
    failure that is neither credential-expired nor rate-limited
    propagates unchanged, without a second invocation. *)
Theorem cooldown_once operation s e s1 :
  operation s = (Throw e, s1) →
  credentialExpired e = false →
  (code e = Some 429%Z →
     executeWithTokenRefresh operation s =
       operation (set_trace (trace s1 ++ [Sleep 90001000%Z]) s1)) ∧
  (code e ≠ Some 429%Z →
     executeWithTokenRefresh operation s = (Throw e, s1)).
Proof.
  intros Hop He.
  unfold ClientBase.executeWithTokenRefresh, try_catch. rewrite Hop, He.
  unfold rateLimited. split; intros Hc.
  - by rewrite bool_decide_eq_true_2.
  - by rewrite bool_decide_eq_false_2.
Qed.

End guard.

(** The guarded operation of the scenarios, with the state after its
    first, failing, invocation. *)
Lemma me_fails_first (e : error) :
  remote "me" (Scenario.fails_first e) Scenario.client0 =
  (Throw e,
   set_trace [ApiCall "me" 0] (set_api_calls 1 Scenario.client0)).
Proof. reflexivity. Qed.

Lemma refresh_once_witness :
  Scenario.me Scenario.client0 =
    (Throw Scenario.expired,
     set_trace [ApiCall "me" 0] (set_api_calls 1 Scenario.client0)) ∧
  code Scenario.expired = Some 401%Z ∧
  let out := executeWithTokenRefresh Scenario.refresh_granted Scenario.me
               Scenario.client0 in
  out.1 = Ok 7%Z ∧ refreshes out.2 = 1 ∧ api_calls out.2 = 2 ∧
  trace out.2 = [ApiCall "me" 0; Refresh 0; ApiCall "me" 1].
Proof.
  assert (Hop := me_fails_first Scenario.expired).
  assert (He : code Scenario.expired = Some 401%Z) by reflexivity.
  split; [exact Hop|]. split; [exact He|].
  pose proof (refresh_once Scenario.refresh_granted Scenario.me _ _ _ Hop
                (or_introl He)) as H.
  cbn in H. destruct H as (_ & -> & _).
  vm_compute. split_and!; reflexivity.
Defined.

(** C4 fails as stated: the operation fails once with code 401 and would
    succeed when invoked again, but the refresh is refused, so the guard
    throws the error of the refresh and never invokes the operation a
    second time. *)
Lemma refresh_failure_counterexample :
  let out := executeWithTokenRefresh Scenario.refresh_denied Scenario.me
               Scenario.client0 in
  (Scenario.me Scenario.client0).1 = Throw Scenario.expired ∧
  credentialExpired Scenario.expired = true ∧
  Scenario.fails_first Scenario.expired 1 = Ok 7%Z ∧
  out.1 = Throw Scenario.denied ∧ out.1 ≠ Ok 7%Z ∧
  trace out.2 = [ApiCall "me" 0; Refresh 0].
Proof.
  vm_compute. split_and!; done.
Qed.

Lemma cooldown_once_witness :
  let operation := remote "me" (Scenario.fails_first Scenario.throttled) in
  operation Scenario.client0 =
    (Throw Scenario.throttled,
     set_trace [ApiCall "me" 0] (set_api_calls 1 Scenario.client0)) ∧
  credentialExpired Scenario.throttled = false ∧
  let out := executeWithTokenRefresh Scenario.refresh_granted operation
               Scenario.client0 in
  out.1 = Ok 7%Z ∧
  trace out.2 = [ApiCall "me" 0; Sleep 90001000%Z; ApiCall "me" 1].
Proof.
  assert (Hop := me_fails_first Scenario.throttled).
  assert (He : credentialExpired Scenario.throttled = false) by reflexivity.
  split; [exact Hop|]. split; [exact He|].
  destruct (cooldown_once Scenario.refresh_granted _ _ _ _ Hop He) as [H _].
  cbn zeta. rewrite (H eq_refl).
  vm_compute. split; reflexivity.
Defined.

(** C5 fails as stated: the error has code 429, but its message contains
    "token", so the guard takes the credential-expired branch: it
    refreshes the token and invokes the operation again at once, without
    any cooldown. *)
Lemma throttled_token_counterexample :
  let operation := remote "me" (Scenario.fails_first Scenario.throttled_token) in
  let out := executeWithTokenRefresh Scenario.refresh_granted operation
               Scenario.client0 in
  (operation Scenario.client0).1 = Throw Scenario.throttled_token ∧
  code Scenario.throttled_token = Some 429%Z ∧
  trace out.2 = [ApiCall "me" 0; Refresh 0; ApiCall "me" 1] ∧
  Sleep 90001000%Z ∉ trace out.2.
Proof.
  vm_compute. split_and!; try done.
  intros H. repeat (inversion H as [|? ? ? H']; subst; clear H; rename H' into H).
Qed.

(** ** What a method leaves alone *)

Section frame.
Context {B : Type} (f : client → B).

Abbreviation preserves := (preserves f).

Lemma preserves_ret {A} (a : A) : preserves (ret a).
Proof. done. Qed.

Lemma preserves_throw {A} e : preserves (@throw A e).
Proof. done. Qed.

Lemma preserves_lift {A} (r : result A) : preserves (lift r).
Proof. done. Qed.

Lemma preserves_get : preserves get.
Proof. done. Qed.

Lemma preserves_modify g : (∀ s, f (g s) = f s) → preserves (modify g).
Proof. intros H s. apply H. Qed.

Lemma preserves_bind {A C} (c : M A) (k : A → M C) :
  preserves c → (∀ a, preserves (k a)) → preserves (bind c k).
Proof.
  intros Hc Hk s. unfold bind. specialize (Hc s).
  destruct (c s) as [[a|e] s']; cbn in *; [|done].
  by rewrite Hk.
Qed.

Lemma preserves_try_catch {A} (c : M A) (h : error → M A) :
  preserves c → (∀ e, preserves (h e)) → preserves (try_catch c h).
Proof.
  intros Hc Hh s. unfold try_catch. specialize (Hc s).
  destruct (c s) as [[a|e] s']; cbn in *; [done|].
  by rewrite Hh.
Qed.

Lemma preserves_emit ev : (∀ t s, f (set_trace t s) = f s) → preserves (emit ev).
Proof. intros H. apply preserves_modify. intros s. apply H. Qed.

End frame.

Ltac frame :=
  repeat first
    [ apply preserves_ret | apply preserves_throw | apply preserves_lift
    | apply preserves_get
    | apply preserves_emit; done
    | apply preserves_modify; done
    | apply preserves_bind; [|intros ?]
    | apply preserves_try_catch; [|intros ?]
    | match goal with |- preserves _ (if ?b then _ else _) => destruct b end
    | match goal with |- preserves _ (match ?x with _ => _ end) => destruct x end
    | match goal with |- preserves _ (let '(_, _) := ?x in _) => destruct x end
    | assumption ].

(** ** Paths *)

Lemma append_cons c (a b : string) : String c a +:+ b = String c (a +:+ b).
Proof. reflexivity. Qed.

Lemma length_append (a b : string) :
  String.length (a +:+ b) = String.length a + String.length b.
Proof.
  induction a as [|c a IH]; [done|]. rewrite append_cons. cbn. by rewrite IH.
Qed.

(** A name that ends in [.json] is a segment of its own. *)
Lemma json_name piece :
  piece +:+ ".json" ≠ "" ∧ piece +:+ ".json" ≠ "." ∧ piece +:+ ".json" ≠ "..".
Proof.
  split_and!; intros H%(f_equal String.length);
    rewrite length_append in H; cbn in H; lia.
Qed.

Lemma split_last (a b : string) :
  Path.split b = [b] →
  ∃ pieces piece, Path.split (a +:+ b) = pieces ++ [piece +:+ b].
Proof.
  intros Hb. induction a as [|c a (pieces & piece & IH)].
  - exists [], "". change ("" +:+ b) with b. by rewrite Hb.
  - rewrite append_cons. cbn [Path.split]. rewrite IH.
    destruct (Ascii.eqb c _).
    + by exists ("" :: pieces), piece.
    + destruct pieces as [|p0 ps].
      * by exists [], (String c piece).
      * by exists (String c p0 :: ps), piece.
Qed.

Lemma enter_name dir piece :
  piece ≠ "" → piece ≠ "." → piece ≠ ".." → Path.enter dir piece = dir ++ [piece].
Proof.
  intros H1 H2 H3. unfold Path.enter.
  rewrite bool_decide_eq_false_2 by (by intros [|]).
  by rewrite bool_decide_eq_false_2.
Qed.

(** The file name of a tweet is the last segment of every path joined
    from it. *)
Lemma join_file base parts tweetId :
  ∃ dir piece,
    Path.join base (parts ++ [cacheFileName tweetId]) = dir ++ [piece +:+ ".json"].
Proof.
  unfold Path.join, cacheFileName.
  rewrite map_app, concat_app, fold_left_app. cbn [map concat].
  rewrite app_nil_r.
  destruct (split_last tweetId ".json" eq_refl) as (pieces & piece & ->).
  rewrite fold_left_app. cbn [fold_left].
  destruct (json_name piece) as (? & ? & ?).
  rewrite enter_name by done. eauto.
Qed.

(** [path.join] drops an empty argument, resolves [..] and splits an
    argument at its slashes. *)
Example join_normalizes :
  Path.join ["app"] ["tweetcache"; "100"; "5.json"]
    = ["app"; "tweetcache"; "100"; "5.json"] ∧
  Path.join ["app"] ["tweetcache"; ""; "5.json"] = ["app"; "tweetcache"; "5.json"] ∧
  Path.join ["app"] ["tweetcache"; ".."; "5.json"] = ["app"; "5.json"] ∧
  Path.join ["app"] ["tweetcache"; "a/./b"; "5.json"]
    = ["app"; "tweetcache"; "a"; "b"; "5.json"].
Proof. vm_compute. by split_and!. Qed.

Lemma cachePath_file tweet s file :
  cachePath tweet s = Ok file → ∃ dir name, file = dir ++ [name].
Proof.
  unfold cachePath. destruct (Tweet.conversationId tweet) as [| |g]; try done.
  intros [= <-].
  destruct (join_file (__dirname s) ["tweetcache"; g] (Tweet.id tweet))
    as (dir & piece & H).
  by exists dir, (piece +:+ ".json").
Qed.


Lemma ancestors_elem d dir :
  d ∈ Path.ancestors dir ↔ ∃ n, n ≤ length dir ∧ d = take n dir.
Proof.
  unfold Path.ancestors. rewrite list_elem_of_fmap. split.
  - intros (n & -> & Hn%elem_of_seq). exists n. split; [lia | done].
  - intros (n & Hn & ->). exists n. split; [done|]. apply elem_of_seq. lia.
Qed.

Lemma ancestors_self dir : dir ∈ Path.ancestors dir.
Proof.
  apply ancestors_elem. exists (length dir). split; [done|].
  by rewrite firstn_all.
Qed.

Lemma ancestors_shorter d dir : d ∈ Path.ancestors dir → length d ≤ length dir.
Proof.
  intros (n & Hn & ->)%ancestors_elem. rewrite length_take. lia.
Qed.

Lemma dirname_file dir name : Path.dirname (dir ++ [name]) = dir.
Proof. apply removelast_last. Qed.

Lemma ancestors_free (fs : gmap Path.t string) dir :
  (∀ d, d ∈ Path.ancestors dir → fs !! d = None) →
  existsb (fun d => bool_decide (is_Some (fs !! d))) (Path.ancestors dir) = false.
Proof.
  intros H. apply not_true_is_false. intros (d & Hd & Hs)%existsb_exists.
  apply bool_decide_eq_true in Hs. rewrite (H d) in Hs.
  - by destruct Hs.
  - by apply list_elem_of_In.
Qed.

(** ** The calls of the file system, spelled out *)

Lemma fs_run call s :
  fs call s =
  (match fs_fault s (fs_calls s) call with
   | Some e => Throw e
   | None => Ok tt
   end, set_fs_calls (S (fs_calls s)) s).
Proof.
  unfold fs, bind, get, modify, ret, throw. cbn.
  by destruct (fs_fault s (fs_calls s) call).
Qed.

Lemma mkdir_run dir s :
  mkdir dir s =
  let s1 := set_fs_calls (S (fs_calls s)) s in
  match fs_fault s (fs_calls s) (FsMkdir dir) with
  | Some e => (Throw e, s1)
  | None =>
      if existsb (fun d => bool_decide (is_Some (files s !! d))) (Path.ancestors dir)
      then (Throw ENOTDIR, s1)
      else (Ok tt,
            set_trace (trace s ++ [Mkdir dir])
              (set_dirs (list_to_set (Path.ancestors dir) ∪ dirs s) s1))
  end.
Proof.
  unfold mkdir, bind at 1. rewrite fs_run.
  destruct (fs_fault s (fs_calls s) _); [done|].
  unfold bind, get, modify, emit, modify, throw. cbn.
  by destruct (existsb _ _).
Qed.

Lemma writeFile_run file content s :
  writeFile file content s =
  let s1 := set_fs_calls (S (fs_calls s)) s in
  match fs_fault s (fs_calls s) (FsWriteFile file) with
  | Some e => (Throw e, s1)
  | None =>
      if negb (bool_decide (Path.dirname file ∈ dirs s)) then (Throw ENOENT, s1)
      else if bool_decide (file ∈ dirs s) then (Throw EISDIR, s1)
      else (Ok tt,
            set_trace (trace s ++ [WriteFile file content])
              (set_files (<[file := content]> (files s)) s1))
  end.
Proof.
  unfold writeFile, bind at 1. rewrite fs_run.
  destruct (fs_fault s (fs_calls s) _); [done|].
  unfold bind, get, modify, emit, modify, throw. cbn.
  destruct (negb _); [done|]. by destruct (bool_decide _).
Qed.

Lemma readFile_run file s :
  readFile file s =
  let s1 := set_fs_calls (S (fs_calls s)) s in
  match fs_fault s (fs_calls s) (FsReadFile file) with
  | Some e => (Throw e, s1)
  | None =>
      match files s !! file with
      | Some data => (Ok data, s1)
      | None => (Throw (if bool_decide (file ∈ dirs s) then EISDIR else ENOENT), s1)
      end
  end.
Proof.
  unfold readFile, bind at 1. rewrite fs_run.
  destruct (fs_fault s (fs_calls s) _); [done|].
  unfold bind, get, ret, throw. cbn. by destruct (files s !! file).
Qed.

Section put.
Context (JSON_stringify : Tweet.t → string).
Implicit Types (s : client) (tweet : Tweet.t).

Abbreviation cacheTweet := (cacheTweet JSON_stringify).

Lemma cacheTweet_eq tweet s :
  cacheTweet (Some tweet) s =
  match cachePath tweet s with
  | Throw e => (Throw e, s)
  | Ok file =>
      match mkdir (Path.dirname file) s with
      | (Throw e, s1) => (Throw e, s1)
      | (Ok _, s1) =>
          match writeFile file (JSON_stringify tweet) s1 with
          | (Throw e, s2) => (Throw e, s2)
          | (Ok _, s2) =>
              (Ok tt,
               set_trace (trace s2 ++ [CacheSet (Tweet.id tweet)])
                 (set_tweetCache (<[Tweet.id tweet := tweet]> (tweetCache s2)) s2))
          end
      end
  end.
Proof.
  unfold ClientBase.cacheTweet, bind, get, lift, modify, emit, modify.
  destruct (cachePath tweet s) as [file|e]; [|done].
  destruct (mkdir _ s) as [[[]|e] s1]; [|done].
  by destruct (writeFile _ _ s1) as [[[]|e] s2].
Qed.

(** C10: [cacheTweet] of an undefined or null tweet returns without an
    error; it only prints the warning: no directory is made, no file is
    written and the in-memory map is not touched. *)
Theorem cacheTweet_undefined s :
  let out := cacheTweet None s in
  out.1 = Ok tt ∧
  out.2 = set_trace (trace s ++ [Warn "Tweet is undefined, skipping cache"]) s ∧
  files out.2 = files s ∧ dirs out.2 = dirs s ∧
  tweetCache out.2 = tweetCache s.
Proof. done. Qed.

(** The run of [cacheTweet] that stores the tweet, spelled out. *)
Lemma cacheTweet_run tweet file s :
  cachePath tweet s = Ok file → storable file s →
  cacheTweet (Some tweet) s = (Ok tt, stored JSON_stringify tweet file s).
Proof.
  intros Hpath (Hm & Hw & Hfree & Hnd).
  destruct (cachePath_file _ _ _ Hpath) as (dir & name & ->).
  rewrite cacheTweet_eq, Hpath, mkdir_run, Hm. cbn zeta.
  rewrite (ancestors_free _ _ Hfree), writeFile_run. cbn.
  rewrite Hw, bool_decide_eq_true_2
    by (apply elem_of_union_l, elem_of_list_to_set, ancestors_self).
  cbn. rewrite bool_decide_eq_false_2.
  - unfold stored. cbn. by rewrite <- !app_assoc.
  - rewrite dirname_file.
    intros [H%elem_of_list_to_set%ancestors_shorter | H]%elem_of_union; [|done].
    rewrite length_app in H. cbn in H. lia.
Qed.

(** Without a conversation id there is no path: [path.join] throws
    before anything is written. *)
Lemma cacheTweet_no_partition tweet s :
  nullish (Tweet.conversationId tweet) →
  cacheTweet (Some tweet) s =
  (Throw (TypeError "The path argument must be of type string"), s).
Proof.
  intros [H | H]; rewrite cacheTweet_eq; unfold cachePath; by rewrite H.
Qed.

(** The ways in which [cacheTweet] ends: it returns, with the tweet in
    both tiers, or it throws, with the map and the files as they were
    and, when [writeFile] was what failed, the directories made. *)
Lemma cacheTweet_outcomes tweet s :
  let out := cacheTweet (Some tweet) s in
  (∃ file, cachePath tweet s = Ok file ∧ out.1 = Ok tt ∧
     tweetCache out.2 = <[Tweet.id tweet := tweet]> (tweetCache s) ∧
     files out.2 = <[file := JSON_stringify tweet]> (files s) ∧
     dirs out.2 = list_to_set (Path.ancestors (Path.dirname file)) ∪ dirs s) ∨
  (∃ e, out.1 = Throw e ∧
     tweetCache out.2 = tweetCache s ∧ files out.2 = files s ∧
     (dirs out.2 = dirs s ∨
      ∃ file, cachePath tweet s = Ok file ∧
        dirs out.2 = list_to_set (Path.ancestors (Path.dirname file)) ∪ dirs s)).
Proof.
  cbn zeta. rewrite cacheTweet_eq.
  destruct (cachePath tweet s) as [file|e] eqn:Hpath.
  2:{ right. exists e. cbn. auto. }
  rewrite mkdir_run. cbn zeta.
  destruct (fs_fault s (fs_calls s) _) as [e|]; cbn.
  { right. exists e. auto. }
  destruct (existsb _ _); cbn.
  { right. eexists. auto. }
  rewrite writeFile_run. cbn.
  destruct (fs_fault s (S (fs_calls s)) _) as [e|]; cbn.
  { right. exists e. split_and!; eauto. }
  destruct (negb _); cbn.
  { right. eexists. split_and!; eauto. }
  destruct (bool_decide _); cbn.
  { right. eexists. split_and!; eauto. }
  left. exists file. auto.
Qed.


End put.




Section read_through.
Context (JSON_stringify : Tweet.t → string).
Context (JSON_parse : string → result Tweet.t).
Context (glob : Path.t → gset Path.t → gmap Path.t string → result (list Path.t)).
Context (refreshOAuth2Token : string → nat → result (handle * string * string)).
Context (singleTweet : string → nat → result Wire.single).
Context (now_iso : string) (now_ms : Z) (getTime : string → Z).
Implicit Types (s : client) (tweet : Tweet.t).

Abbreviation globbed := (globbed glob).
Abbreviation getCachedTweet := (getCachedTweet JSON_parse glob).
Abbreviation tweetOfSingle := (tweetOfSingle now_iso now_ms getTime).
Abbreviation getTweet :=
  (getTweet JSON_stringify JSON_parse glob refreshOAuth2Token singleTweet
     now_iso now_ms getTime).
Abbreviation fetch := (fetch singleTweet now_iso now_ms getTime).

Lemma ensureReady_state s : (ensureReady s).2 = s.
Proof.
  unfold ensureReady, bind, get, lift, ret, throw.
  destruct (isReady s); [|destruct (readyPromise s) as [[]|]]; cbn;
    try done; by destruct (_ || _).
Qed.

Lemma ensureReady_readiness s s' :
  readiness s = readiness s' → (ensureReady s).1 = (ensureReady s').1.
Proof.
  unfold readiness. intros [= Hi Hp Hu Hd].
  unfold ensureReady, bind, get, lift, ret, throw. rewrite Hi, Hp, Hu, Hd.
  destruct (isReady s'); [|destruct (readyPromise s') as [[]|]]; cbn;
    try done; by destruct (_ || _).
Qed.

Lemma cacheTweet_readiness o : preserves readiness (cacheTweet JSON_stringify o).
Proof.
  unfold ClientBase.cacheTweet, mkdir, writeFile, fs. destruct o; frame.
Qed.

Lemma cacheTweet_api_calls o : preserves api_calls (cacheTweet JSON_stringify o).
Proof.
  unfold ClientBase.cacheTweet, mkdir, writeFile, fs. destruct o; frame.
Qed.

Lemma guard_readiness {A} (operation : M A) :
  preserves readiness operation →
  preserves readiness (executeWithTokenRefresh refreshOAuth2Token operation).
Proof.
  intros Hop.
  unfold executeWithTokenRefresh, refreshTwitterToken, getTwitterRefreshToken,
    updateTwitterAccessToken, sleep.
  frame.
Qed.

Lemma fetch_readiness x : preserves readiness (fetch x).
Proof.
  unfold fetch, remote. frame.
Qed.

Lemma cacheTweet_ok tweet s s' :
  cacheTweet JSON_stringify (Some tweet) s = (Ok tt, s') →
  tweetCache s' !! Tweet.id tweet = Some tweet.
Proof.
  intros H.
  destruct (cacheTweet_outcomes JSON_stringify tweet s)
    as [(file & _ & _ & Hc & _) | (e & He & _)]; rewrite H in *; cbn in *.
  - rewrite Hc. apply lookup_insert_eq.
  - done.
Qed.

(** [getCachedTweet], spelled out. *)
Lemma getCachedTweet_eq x s :
  getCachedTweet x s =
  match tweetCache s !! x with
  | Some tweet => (Ok (Some tweet), s)
  | None =>
      match globbed x s with
      | Throw e => (Throw e, s)
      | Ok [] => (Ok None, s)
      | Ok (file :: _) =>
          match readFile file s with
          | (Throw e, s1) => (Throw e, s1)
          | (Ok tweetData, s1) =>
              match JSON_parse tweetData with
              | Throw e => (Throw e, s1)
              | Ok tweet =>
                  (Ok (Some tweet),
                   set_trace (trace s1 ++ [CacheSet (Tweet.id tweet)])
                     (set_tweetCache (<[Tweet.id tweet := tweet]> (tweetCache s1)) s1))
              end
          end
      end
  end.
Proof.
  unfold ClientBase.getCachedTweet, bind at 1, get at 1.
  destruct (tweetCache s !! x); [done|].
  unfold bind at 1, lift at 1.
  destruct (globbed x s) as [[|file rest]|e]; [done | | done].
  unfold bind at 1. destruct (readFile file s) as [[data|e] s1]; [|done].
  unfold bind, lift, modify, emit, modify, ret.
  by destruct (JSON_parse data).
Qed.

(** A tweet held by the in-memory map is answered without any effect. *)
Lemma getTweet_hit x s tweet :
  (ensureReady s).1 = Ok tt → tweetCache s !! x = Some tweet →
  getTweet x s = (Ok tweet, s).
Proof.
  intros Hr Hc. unfold ClientBase.getTweet.
  unfold bind at 1. pose proof (ensureReady_state s) as Hs.
  destruct (ensureReady s) as [r s0]. cbn in Hr, Hs. subst r s0.
  unfold bind at 1. by rewrite getCachedTweet_eq, Hc.
Qed.

Lemma bind_ok {A C} (c : M A) (k : A → M C) s b s' :
  bind c k s = (Ok b, s') → ∃ a s0, c s = (Ok a, s0) ∧ k a s0 = (Ok b, s').
Proof.
  unfold bind. destruct (c s) as [[a|e] s0]; [eauto | done].
Qed.

(** The three ways [getCachedTweet] returns: a hit in memory, a miss in
    both tiers, a hit on disk that is read, parsed and copied into
    memory. *)
Lemma getCachedTweet_cases x s cached sc :
  getCachedTweet x s = (Ok cached, sc) →
  (is_Some (tweetCache s !! x) ∧ cached = tweetCache s !! x ∧ sc = s) ∨
  (tweetCache s !! x = None ∧ globbed x s = Ok [] ∧ cached = None ∧ sc = s) ∨
  (tweetCache s !! x = None ∧
   ∃ file rest tweetData t0,
     globbed x s = Ok (file :: rest) ∧
     fs_fault s (fs_calls s) (FsReadFile file) = None ∧
     files s !! file = Some tweetData ∧ JSON_parse tweetData = Ok t0 ∧
     cached = Some t0 ∧
     sc = set_trace (trace s ++ [CacheSet (Tweet.id t0)])
            (set_tweetCache (<[Tweet.id t0 := t0]> (tweetCache s))
               (set_fs_calls (S (fs_calls s)) s))).
Proof.
  rewrite getCachedTweet_eq.
  destruct (tweetCache s !! x) as [t0|] eqn:Hmem.
  { intros [= <- <-]. left. eauto. }
  destruct (globbed x s) as [[|file rest]|e] eqn:Hglob; [| |done].
  { intros [= <- <-]. right. left. done. }
  rewrite readFile_run. cbn zeta.
  destruct (fs_fault s (fs_calls s) _) eqn:Hfault; [done|].
  destruct (files s !! file) as [data|] eqn:Hfile; [|done].
  destruct (JSON_parse data) as [t0|e] eqn:Hparse; [|done].
  intros [= <- <-]. right. right. split; [done|].
  exists file, rest, data, t0. by split_and!.
Qed.

(** What the mapping of [getTweet] throws is a [TypeError], which the
    guard classifies neither as credential-expired nor as rate-limited. *)
Lemma tweetOfSingle_error r e :
  tweetOfSingle r = Throw e →
  e = TypeError "Cannot read properties of undefined".
Proof.
  unfold ClientBase.tweetOfSingle, userField.
  repeat case_match; intros [= <-]; congruence.
Qed.

(** C7, as the code has it: when a call [getTweet(x)] has returned a
    tweet with id [x], the next call [getTweet(x)] returns that same tweet
    from the in-memory map and changes nothing, so makes no remote call;
    and when [x] was in neither tier of the cache and the remote call
    answered at its first attempt, the first call made exactly one remote
    call.  (A first call whose remote call fails with an expired token
    makes two.) *)
Theorem getTweet_twice x s tweet s1 :
  getTweet x s = (Ok tweet, s1) →
  Tweet.id tweet = x →
  getTweet x s1 = (Ok tweet, s1) ∧
  (tweetCache s !! x = None → globbed x s = Ok [] →
   (∃ r, singleTweet x (api_calls s) = Ok r) →
   api_calls s1 = S (api_calls s)).
Proof.
  intros Hget Hid. unfold ClientBase.getTweet in Hget.
  apply bind_ok in Hget as ([] & s0 & Hready & Hget).
  pose proof (ensureReady_state s) as Hs0.
  rewrite Hready in Hs0. cbn in Hs0. subst s0.
  assert (Hr : ∀ s', readiness s' = readiness s → (ensureReady s').1 = Ok tt).
  { intros s' E. rewrite (ensureReady_readiness s' s E). by rewrite Hready. }
  apply bind_ok in Hget as (cached & sc & Hcached & Hget).
  apply getCachedTweet_cases in Hcached
    as [(Hmem & -> & ->) | [(Hmem & Hglob & -> & ->) | (Hmem & Hsc)]].
  - (* held in memory *)
    destruct Hmem as [t0 Hmem]. rewrite Hmem in Hget.
    cbn in Hget. injection Hget as -> ->.
    split; [by apply getTweet_hit; [apply Hr|] | congruence].
  - (* a miss in both tiers: the remote call *)
    apply bind_ok in Hget as (result & s2 & Hexec & Hget).
    change (executeWithTokenRefresh refreshOAuth2Token (fetch x) s = (Ok result, s2))
      in Hexec.
    apply bind_ok in Hget as ([] & s3 & Hput & Hget).
    cbn in Hget. injection Hget as -> ->.
    pose proof (guard_readiness (fetch x) (fetch_readiness x) s) as Hg.
    pose proof (cacheTweet_readiness (Some tweet) s2) as Hcr.
    pose proof (cacheTweet_api_calls (Some tweet) s2) as Hca.
    rewrite Hexec in Hg. rewrite Hput in Hcr, Hca. cbn in Hg, Hcr, Hca.
    split.
    + apply getTweet_hit; [apply Hr; congruence|].
      rewrite <- Hid. by eapply cacheTweet_ok.
    + intros _ _ [r Hsingle]. rewrite Hca.
      unfold executeWithTokenRefresh, try_catch in Hexec.
      unfold fetch at 1, remote, bind, get, modify, emit, modify, lift in Hexec.
      cbn in Hexec. rewrite Hsingle in Hexec.
      destruct (tweetOfSingle r) as [t'|e'] eqn:Hmap.
      * by injection Hexec as _ <-.
      * exfalso. apply tweetOfSingle_error in Hmap. by rewrite Hmap in Hexec.
  - (* found on disk *)
    destruct Hsc as (file & rest & data & t0 & Hglob & _ & _ & _ & -> & ->).
    cbn in Hget. injection Hget as -> <-.
    split; [|intros _ E; by rewrite Hglob in E].
    apply getTweet_hit; [by apply Hr|].
    cbn. rewrite <- Hid. apply lookup_insert_eq.
Qed.

End read_through.

Lemma getTweet_twice_witness :
  let first := Scenario.getTweet Scenario.single_ok "5" Scenario.client0 in
  first = (Ok Scenario.tweet5, first.2) ∧
  Tweet.id Scenario.tweet5 = "5" ∧
  Scenario.getTweet Scenario.single_ok "5" first.2 = (Ok Scenario.tweet5, first.2) ∧
  api_calls first.2 = 1.
Proof.
  cbn zeta.
  set (first := Scenario.getTweet Scenario.single_ok "5" Scenario.client0).
  assert (Hget : first = (Ok Scenario.tweet5, first.2)) by (vm_compute; reflexivity).
  assert (Hid : Tweet.id Scenario.tweet5 = "5") by reflexivity.
  destruct (getTweet_twice Scenario.stringify Scenario.parse Scenario.glob
              Scenario.refresh_granted Scenario.single_ok
              "2024-01-01T00:00:00.000Z" 0%Z (fun _ => 0%Z)
              "5" Scenario.client0 Scenario.tweet5 first.2 Hget Hid)
    as [Hsecond Hone].
  split_and!; [exact Hget | exact Hid | exact Hsecond |].
  apply Hone; [reflexivity | reflexivity | by eexists].
Defined.

(** C7 fails as stated: the first remote call for tweet 5 meets an
    expired token, the guard refreshes the token and calls again, so two
    calls [getTweet("5")] that both return the tweet have made two remote
    calls for the same id. *)
Lemma getTweet_two_fetches_counterexample :
  let first := Scenario.getTweet Scenario.single_expired_once "5" Scenario.client0 in
  let second := Scenario.getTweet Scenario.single_expired_once "5" first.2 in
  first.1 = Ok Scenario.tweet5 ∧
  second.1 = Ok Scenario.tweet5 ∧
  api_calls second.2 = 2 ∧
  trace second.2 =
    [ApiCall "singleTweet" 0; Refresh 0; ApiCall "singleTweet" 1;
     Mkdir ["app"; "tweetcache"; "100"];
     WriteFile ["app"; "tweetcache"; "100"; "5.json"]
       (Scenario.stringify Scenario.tweet5);
     CacheSet "5"].
Proof.
  vm_compute. split_and!; reflexivity.
Qed.

Section reconcile.
Context (stringToUuid : string → UUID).
Implicit Types (s : client) (tweet : Tweet.t) (agent : UUID).

Abbreviation roomIdOf := (roomIdOf stringToUuid).
Abbreviation newTweetMemory := (newTweetMemory stringToUuid).
Abbreviation cachedTweetMemory := (cachedTweetMemory stringToUuid).
Abbreviation saveNewTweet := (saveNewTweet stringToUuid).



End reconcile.



(** C8 (the behaviour of the code on the scenario of the claim): the
    record store holds the memory of tweet A, under the composite key
    built from A's id and the agent id, and the search answers the batch
    A, B, C.  The filter looks for the composite keys among the room ids
    of the stored memories, where they never are, so it keeps all three
    tweets and A is handed to [createMemory] again; a second run, made
    after B and C have been stored, hands over all three once more. *)
Theorem existing_tweet_is_ingested_again :
  let key := memoryId Scenario.uuid "agent" in
  let batch := [Scenario.tweetA; Scenario.tweetB; Scenario.tweetC] in
  let run1 := Scenario.populateTimeline Scenario.client_with_A in
  let run2 := Scenario.populateTimeline run1.2 in
  map Memory.id (memories Scenario.client_with_A) = [key "1"] ∧
  tweetsToSave Scenario.uuid "agent" (memories Scenario.client_with_A) batch = batch ∧
  run1.1 = Ok tt ∧
  ingested Scenario.client_with_A run1.2 = [key "1"; key "2"; key "3"] ∧
  map Memory.id (memories run1.2) = [key "1"; key "2"; key "3"] ∧
  run2.1 = Ok tt ∧
  ingested run1.2 run2.2 = [key "1"; key "2"; key "3"].
Proof.
  vm_compute. split_and!; reflexivity.
Qed.

End ClientBaseFacts.

(** * Further facts about RequestQueue *)

Module RequestQueueMore.
Import RequestQueue RequestQueueObs RequestQueueFacts.

#[local] Arguments seq : simpl never.
#[local] Arguments Nat.sub : simpl never.
#[local] Arguments invoked_ids : simpl never.
#[local] Arguments settled_ids : simpl never.
#[local] Arguments requeued_ids : simpl never.
#[local] Arguments backoff_delays : simpl never.

Section more.
Context {T : Type}.
Implicit Types (s : @state T) (e : @entry T) (req : @request T).

Lemma settled_ids_app (l1 l2 : list (@event T)) :
  settled_ids (l1 ++ l2) = settled_ids l1 ++ settled_ids l2.
Proof. apply omap_app. Qed.

Lemma backoff_delays_app (l1 l2 : list (@event T)) :
  backoff_delays (l1 ++ l2) = backoff_delays l1 ++ backoff_delays l2.
Proof. apply omap_app. Qed.

Lemma requeued_ids_app (l1 l2 : list (@event T)) :
  requeued_ids (l1 ++ l2) = requeued_ids l1 ++ requeued_ids l2.
Proof. apply omap_app. Qed.

(** [add] settles nothing by itself. *)
Lemma add_promises req s :
  promises (add req s) = promises s ∧ completions (add req s) = completions s.
Proof.
  unfold add, processQueue, completions. cbn.
  destruct (processing s); cbn; [done|].
  destruct (queue s ++ [wrap (added s) req]) as [|e q]; cbn; [done|].
  by rewrite settled_ids_app, app_nil_r.
Qed.

(** A resumption settles nothing, or it settles the promise of the
    closure that was awaited, for the first time. *)
Lemma tick_promises (P : @entry T → Prop) i u s :
  fifo_inv P s →
  (promises (tick i u s) = promises s ∧
   completions (tick i u s) = completions s) ∨
  (∃ e st, P e ∧ settles (invoke e 0) = Some st ∧
     promises (tick i u s) = <[eid e := st]> (promises s) ∧
     completions (tick i u s) = completions s ++ [eid e]).
Proof.
  intros (m & f & Hinv & Hcmp & Hret & Hq & Hle & Hwr & Hcalls & Hprom & Hful & Hw).
  unfold tick. destruct (workers s !! i) as [w|] eqn:Hi; [|by left].
  unfold worker_ok in Hw.
  destruct (workers s) as [|w0 [|]] eqn:Hwk; try done.
  2:{ by destruct w0. }
  destruct i; [|done]. injection Hi as ->.
  destruct w as [e k | d | d]; [| done |].
  - destruct Hw as (Hp & Hwe & HPe & -> & Hm & Hf).
    destruct (Hwe 0) as [Hth [st Hst]].
    right. exists e, st. split; [done|]. split; [done|].
    cbn. rewrite Hth, Hst. unfold settle.
    assert (eid e = f) as He by lia.
    rewrite He, (Hprom f) by lia. unfold completions. cbn.
    rewrite !settled_ids_app. cbn. by rewrite app_nil_r.
  - left. cbn. unfold loop_head, completions.
    destruct (queue s) as [|e q]; cbn; [done|].
    by rewrite settled_ids_app, app_nil_r.
Qed.

Lemma promises_inv_add all req s :
  promises_inv all s → promises_inv all (add req s).
Proof.
  destruct (add_promises req s) as [Hp Hc]. unfold promises_inv.
  by rewrite Hp, Hc.
Qed.

Lemma promises_inv_tick all i u s :
  fifo_inv (built_from all) s → promises_inv all s →
  promises_inv all (tick i u s).
Proof.
  intros Hinv [Hval Hdom].
  destruct (tick_promises _ i u s Hinv)
    as [[Hp Hc] | (e & st & (req & Hreq & He) & Hst & Hp & Hc)];
    unfold promises_inv; rewrite Hp, Hc; [done|].
  split.
  - intros id st' Hl. destruct (decide (id = eid e)) as [->|Hne].
    + rewrite lookup_insert_eq in Hl. injection Hl as <-.
      exists req. split; [done|].
      rewrite He in Hst. cbn in Hst. destruct (req 0); by injection Hst as <-.
    + rewrite lookup_insert_ne in Hl by done. by apply Hval.
  - intros id Hin. apply elem_of_app in Hin as [Hin | Hin].
    + destruct (decide (id = eid e)) as [->|Hne].
      * rewrite lookup_insert_eq. by eexists.
      * rewrite lookup_insert_ne by done. by apply Hdom.
    + apply list_elem_of_singleton in Hin as ->.
      rewrite lookup_insert_eq. by eexists.
Qed.

Lemma exec_from all (rest : list (@action T)) s :
  fifo_inv (built_from all) s → promises_inv all s →
  (∀ i req, requests rest !! i = Some req → all !! (added s + i) = Some req) →
  fifo_inv (built_from all) (exec rest s) ∧ promises_inv all (exec rest s).
Proof.
  revert s. induction rest as [|a rest IH]; intros s Hinv Hprom Hall; [done|].
  rewrite exec_cons. destruct a as [req | i u].
  - apply IH.
    + apply fifo_inv_add; [|done]. exists req. split; [|done].
      cbn. rewrite <- (Nat.add_0_r (added s)). by apply Hall.
    + by apply promises_inv_add.
    + intros i r Hr. cbn. rewrite added_add.
      replace (S (added s) + i) with (added s + S i) by lia. by apply Hall.
  - apply IH.
    + by apply fifo_inv_tick.
    + by apply promises_inv_tick.
    + intros j r Hr. cbn. rewrite added_tick. by apply Hall.
Qed.

Lemma requests_length (sched : list (@action T)) :
  length (requests sched) = adds sched.
Proof.
  induction sched as [|[|] sched IH]; cbn; lia.
Qed.

Lemma requests_app (l1 l2 : list (@action T)) :
  requests (l1 ++ l2) = requests l1 ++ requests l2.
Proof.
  induction l1 as [|[|] l1 IH]; cbn; by rewrite ?IH.
Qed.

Lemma requests_ticks (us : list Z) : requests (map (@Tick T 0) us) = [].
Proof.
  induction us; done.
Qed.

Lemma reachable (sched : list (@action T)) :
  fifo_inv (built_from (requests sched)) (exec sched init) ∧
  promises_inv (requests sched) (exec sched init).
Proof.
  apply exec_from.
  - apply fifo_inv_init.
  - split; [intros id st Hl; cbn in Hl; by rewrite lookup_empty in Hl|].
    intros id Hin. by apply elem_of_nil in Hin.
  - intros i req. done.
Qed.

(** The promises settled so far are those of the first [f] requests. *)
Lemma settled_prefix (P : @entry T → Prop) s :
  fifo_inv P s →
  ∃ m f, f ≤ m ∧ m ≤ added s ∧
    invocations s = seq 0 m ∧ completions s = seq 0 f ∧
    ((∀ e, P e → resolves e) → fulfilments s = seq 0 f) ∧
    (∀ id, f ≤ id → promises s !! id = None).
Proof.
  intros (m & f & Hinv & Hcmp & Hret & Hq & Hle & _ & _ & Hprom & Hful & Hw).
  exists m, f. split_and!; try done.
  - unfold worker_ok in Hw.
    destruct (workers s) as [|[e k| |] [|]]; try done.
    + destruct Hw as (_ & _ & ->). done.
    + destruct Hw as (_ & _ & _ & _ & _ & <-). lia.
    + destruct Hw as (_ & ->). done.
  - intros Hres. by rewrite Hful.
Qed.

Lemma requests_succeed (sched : list (@action T)) id req :
  Forall succeeds_first sched → requests sched !! id = Some req →
  ∃ v, req 0 = Ok v.
Proof.
  intros Hok. revert id. induction Hok as [|a sched Ha _ IH]; intros id; [done|].
  destruct a as [r | i u]; cbn; [|apply IH].
  destruct id as [|id]; cbn; [|apply IH]. by intros [= <-].
Qed.

Lemma adds_app_ticks (sched : list (@action T)) (us : list Z) :
  adds (sched ++ map (Tick 0) us) = adds sched.
Proof.
  induction sched as [|[|] sched IH]; cbn; rewrite ?IH; try done.
  induction us; done.
Qed.

(** C2: strict first-in first-out order under success.  Let every request
    added by a schedule succeed on its first attempt.  At every moment
    the requests invoked so far, and the promises fulfilled so far, are
    initial segments of the order of the [add] calls: the promises of
    the first [f] callers, and only theirs, are settled, each fulfilled
    with the value of its own request.  Once the loop has been resumed
    often enough (twice per request, whatever the random delays [us]) it
    has stopped with an empty queue, every request invoked and every
    promise fulfilled with the value of its request, in the order of the
    [add] calls. *)
Theorem fifo_under_success (sched : list (@action T)) (us : list Z) :
  Forall succeeds_first sched →
  2 * adds sched ≤ length us →
  (∃ m f, f ≤ m ∧ m ≤ adds sched ∧
     invocations (exec sched init) = seq 0 m ∧
     fulfilments (exec sched init) = seq 0 f ∧
     (∀ id, f ≤ id → promises (exec sched init) !! id = None) ∧
     (∀ id, id < f →
        ∃ req v, requests sched !! id = Some req ∧ req 0 = Ok v ∧
                 promises (exec sched init) !! id = Some (Resolved v))) ∧
  let s := exec (sched ++ map (Tick 0) us) init in
  processing s = false ∧ queue s = [] ∧
  invocations s = seq 0 (adds sched) ∧
  fulfilments s = seq 0 (adds sched) ∧
  (∀ id, id < adds sched →
     ∃ req v, requests sched !! id = Some req ∧ req 0 = Ok v ∧
              promises s !! id = Some (Resolved v)).
Proof.
  intros Hok Hfuel.
  assert (Hadm := succeeds_first_admissible _ Hok).
  assert (Hsettled : ∀ (full : list (@action T)) f id,
            Forall succeeds_first full →
            completions (exec full init) = seq 0 f → id < f →
            ∃ req v, requests full !! id = Some req ∧ req 0 = Ok v ∧
                     promises (exec full init) !! id = Some (Resolved v)).
  { intros full f id Hfull Hcmp Hid.
    destruct (reachable full) as [_ [Hval Hdom]].
    destruct (Hdom id) as [st Hst].
    { rewrite Hcmp. apply elem_of_seq. lia. }
    destruct (Hval id st Hst) as (req & Hreq & ->).
    destruct (requests_succeed full id req Hfull Hreq) as [v Hv].
    exists req, v. split_and!; [done | done |]. by rewrite Hst, Hv. }
  split.
  - assert (Hinv : fifo_inv resolves (exec sched init)).
    { apply fifo_inv_exec; [done | apply fifo_inv_init]. }
    destruct (settled_prefix _ _ Hinv) as (m & f & Hfm & Hm & Hi & Hc & Hf & Hnone).
    exists m, f. rewrite added_exec in Hm. cbn in Hm.
    split_and!; [done | lia | done | by apply Hf | done |].
    intros id Hid. by apply (Hsettled sched f).
  - cbn zeta. set (full := sched ++ map (Tick 0) us).
    assert (Hsplit : exec full init = exec (map (Tick 0) us) (exec sched (@init T)))
      by (unfold full, exec; by rewrite fold_left_app).
    pose proof (weight_exec _ _ _ Hadm (fifo_inv_init resolves)) as Hw.
    change (weight (@init T)) with 0 in Hw.
    destruct (drained resolves (exec full init))
      as (Hp & Hq & Hi & Hc & _ & Hf).
    { rewrite Hsplit. apply fifo_inv_exec; [apply admissible_ticks|].
      apply fifo_inv_exec; [done | apply fifo_inv_init]. }
    { rewrite Hsplit. apply (weight_drain resolves); [|lia].
      apply fifo_inv_exec; [done | apply fifo_inv_init]. }
    assert (Hadded : added (exec full init) = adds sched).
    { rewrite added_exec. cbn. unfold full. by rewrite adds_app_ticks. }
    rewrite Hadded in Hi, Hc, Hf.
    split_and!; [done | done | done | by apply Hf |].
    intros id Hid.
    destruct (Hsettled full (adds sched) id) as (req & v & Hreq & Hv & Hprom);
      [|done|done|].
    { unfold full. apply Forall_app. split; [done|].
      clear. induction us; by constructor. }
    exists req, v. split_and!; [|done|done].
    unfold full in Hreq. by rewrite requests_app, requests_ticks, app_nil_r in Hreq.
Qed.

(** X1: each caller gets the outcome of the single attempt of its own
    request.  Whatever the requests do and however [add] calls and
    resumptions of the loop interleave, a promise is never settled with
    anything but the outcome of the first invocation of its request; and
    once the loop has been resumed twice per request, every promise is
    settled: fulfilled with the value of its request, or rejected with
    its error. *)
Theorem promise_outcomes (sched : list (@action T)) (us : list Z) :
  2 * adds sched ≤ length us →
  (∀ id st, promises (exec sched init) !! id = Some st →
     ∃ req, requests sched !! id = Some req ∧ st = outcome (req 0)) ∧
  (∀ id req, requests sched !! id = Some req →
     promises (exec (sched ++ map (Tick 0) us) init) !! id
     = Some (outcome (req 0))).
Proof.
  intros Hfuel. split.
  { apply (reachable sched). }
  intros id req Hreq.
  set (full := sched ++ map (Tick 0) us).
  assert (Hall : requests full = requests sched).
  { unfold full. by rewrite requests_app, requests_ticks, app_nil_r. }
  destruct (reachable full) as [_ [Hval Hdom]]. rewrite Hall in Hval.
  assert (Htriv : fifo_inv (λ _, True) (exec sched (@init T))).
  { apply fifo_inv_exec; [apply any_admissible | apply fifo_inv_init]. }
  pose proof (weight_exec _ _ _ (any_admissible sched)
                (fifo_inv_init (λ _ : @entry T, True))) as Hw.
  change (weight (@init T)) with 0 in Hw.
  destruct (drained (λ _, True) (exec full init)) as (_ & _ & _ & Hcmp & _).
  { apply fifo_inv_exec; [apply any_admissible | apply fifo_inv_init]. }
  { replace (exec full init)
      with (exec (map (Tick 0) us) (exec sched (@init T)))
      by (unfold full, exec; by rewrite fold_left_app).
    apply (weight_drain (λ _, True)); [done | lia]. }
  assert (Hadded : added (exec full init) = adds sched).
  { rewrite added_exec. unfold full. cbn.
    clear. induction sched as [|[|] sched IH]; cbn; rewrite ?IH; try done.
    induction us; done. }
  rewrite Hadded in Hcmp.
  destruct (Hdom id) as [st Hst].
  { rewrite Hcmp. apply elem_of_seq. apply lookup_lt_Some in Hreq.
    rewrite requests_length in Hreq. lia. }
  destruct (Hval id st Hst) as (req' & Hreq' & ->).
  pose proof (eq_trans (eq_sym Hreq) Hreq') as E. injection E as <-. exact Hst.
Qed.

(** ** What the loop never does, and what it does for a closure that throws *)

Lemma add_log req s :
  ∃ l, log (add req s) = log s ++ l ∧
       backoff_delays l = [] ∧ requeued_ids l = [].
Proof.
  unfold add, processQueue. cbn.
  destruct (processing s); cbn; [exists []; by rewrite app_nil_r|].
  destruct (queue s ++ [wrap (added s) req]) as [|e q]; cbn.
  - exists []. by rewrite app_nil_r.
  - eexists. split; [reflexivity|]. done.
Qed.

Lemma tick_log i u s :
  ∃ l, log (tick i u s) = log s ++ l ∧
       length (backoff_delays l) = length (requeued_ids l).
Proof.
  unfold tick. destruct (workers s !! i) as [w|]; [|exists []; by rewrite app_nil_r].
  destruct w as [e k | d | d]; cbn.
  - assert (Hs : ∃ l0, log (settle (eid e) (settles (invoke e k)) s) = log s ++ l0
                       ∧ backoff_delays l0 = [] ∧ requeued_ids l0 = []).
    { unfold settle. destruct (settles (invoke e k)) as [st|].
      - destruct (promises s !! eid e); cbn.
        + exists []. by rewrite app_nil_r.
        + eexists. split; [reflexivity|]. done.
      - exists []. by rewrite app_nil_r. }
    destruct Hs as (l0 & Hl0 & Hb0 & Hr0).
    destruct (throws (invoke e k)); cbn; rewrite Hl0, <- ?app_assoc;
      eexists; (split; [reflexivity|]);
      rewrite backoff_delays_app, requeued_ids_app, Hb0, Hr0; done.
  - eexists. split; [reflexivity|]. done.
  - unfold loop_head. destruct (queue s) as [|e q]; cbn.
    + exists []. by rewrite app_nil_r.
    + eexists. split; [reflexivity|]. done.
Qed.

Lemma backoffs_follow_retries (sched : list (@action T)) s :
  length (backoffs s) = length (retries s) →
  length (backoffs (exec sched s)) = length (retries (exec sched s)).
Proof.
  revert s. induction sched as [|a sched IH]; intros s Hs; [done|].
  rewrite exec_cons. apply IH. unfold backoffs, retries in *.
  destruct a as [req | i u]; cbn [step].
  - destruct (add_log req s) as (l & -> & Hb & Hr).
    by rewrite backoff_delays_app, requeued_ids_app, Hb, Hr, !app_nil_r.
  - destruct (tick_log i u s) as (l & -> & Hl).
    rewrite backoff_delays_app, requeued_ids_app, !length_app. lia.
Qed.

(** X2: a request added through [add] is never retried.  Whatever the
    requests do, in every reachable state no closure has been put back
    into the queue, no backoff delay has been slept, and no request has
    been invoked twice: the invocations are distinct indices of [add]
    calls made so far. *)
Theorem never_retries (sched : list (@action T)) :
  let s := exec sched init in
  retries s = [] ∧ backoffs s = [] ∧
  NoDup (invocations s) ∧
  (∀ id, id ∈ invocations s → id < adds sched).
Proof.
  cbn. destruct (added_requests_run_once sched) as (Hret & m & Hm & Hinv).
  split; [done|]. split.
  { pose proof (backoffs_follow_retries sched (@init T) eq_refl) as Hlen.
    rewrite Hret in Hlen. by apply nil_length_inv. }
  rewrite Hinv. split; [apply NoDup_seq|].
  intros id Hin. apply elem_of_seq in Hin. lia.
Qed.

(** The backoff as [setTimeout] performs it: the power of two up to 21
    queued closures, one millisecond from 22 on. *)
Lemma exponentialBackoff_cases (n : nat) :
  (n ≤ 21 → exponentialBackoff n = (2 ^ Z.of_nat n * 1000)%Z) ∧
  (22 ≤ n → exponentialBackoff n = 1%Z).
Proof.
  unfold exponentialBackoff, setTimeout, TIMEOUT_MAX. split; intros Hn.
  - assert (1 ≤ 2 ^ Z.of_nat n ≤ 2 ^ 21)%Z as Hb.
    { split; [pose proof (Z.pow_pos_nonneg 2 (Z.of_nat n)); lia|].
      apply Z.pow_le_mono_r; lia. }
    change (2 ^ 21)%Z with 2097152%Z in Hb.
    destruct (Z.leb_spec 1 (2 ^ Z.of_nat n * 1000)); [|lia].
    destruct (Z.leb_spec (2 ^ Z.of_nat n * 1000) 2147483647); [done | lia].
  - assert (2 ^ 22 ≤ 2 ^ Z.of_nat n)%Z as Hb by (apply Z.pow_le_mono_r; lia).
    change (2 ^ 22)%Z with 4194304%Z in Hb.
    destruct (Z.leb_spec (2 ^ Z.of_nat n * 1000) 2147483647); [lia|].
    by rewrite andb_false_r.
Qed.

(** X3: the catch branch of [processQueue].  When the closure that the
    loop awaits throws, the loop puts that same closure back at the head
    of the queue, waits [exponentialBackoff(n)] where [n] is the length
    of the queue with the closure back in it, waits the random delay,
    and then invokes that closure again, before anything that was queued
    behind it.  The backoff waited is [2 ^ n * 1000] ms as long as [n]
    is at most 21; from 22 queued closures on the delay exceeds what a
    timer keeps and the wait is 1 ms. *)
Theorem thrown_closure_is_retried_first s e k err (u1 u2 u3 : Z) :
  workers s = [AwaitRequest e k] →
  throws (invoke e k) = Some err →
  calls s !! eid e = Some (S k) →
  let s1 := settle (eid e) (settles (invoke e k)) s in
  let s3 := exec [Tick 0 u1; Tick 0 u2; Tick 0 u3] s in
  let n := S (length (queue s)) in
  workers s3 = [AwaitRequest e (S k)] ∧
  queue s3 = queue s ∧
  log s3 =
    log s1 ++ [Requeued (eid e);
               Backoff (exponentialBackoff n);
               RandomDelay (randomDelay u2);
               Invoked (eid e) (S k)] ∧
  (n ≤ 21 → exponentialBackoff n = (2 ^ Z.of_nat n * 1000)%Z) ∧
  (22 ≤ n → exponentialBackoff n = 1%Z).
Proof.
  intros Hw Hth Hcalls.
  destruct (settle_frame (eid e) (settles (invoke e k)) s)
    as (Hq & Hp & Hws & Ha & Hc).
  cbn zeta.
  destruct (exponentialBackoff_cases (S (length (queue s)))) as [Hlow Hhigh].
  rewrite (and_assoc _ _ (_ ∧ _)), (and_assoc _ (_ = _ ++ _)).
  split; [|done].
  unfold exec. cbn [fold_left step].
  set (s1 := settle (eid e) (settles (invoke e k)) s) in *.
  assert (H1 : tick 0 u1 s =
    set_workers [AwaitBackoff (exponentialBackoff (S (length (queue s))))]
      (emit (Backoff (exponentialBackoff (S (length (queue s)))))
         (emit (Requeued (eid e)) (set_queue (e :: queue s) s1)))).
  { unfold tick. rewrite Hw. cbn. rewrite Hth. fold s1. cbn.
    by rewrite Hws, Hw, Hq. }
  rewrite H1.
  unfold tick at 2. cbn. unfold tick. cbn.
  rewrite Hc, Hcalls. cbn. rewrite <- !app_assoc. done.
Qed.

(** X4: the two delays of the queue, as waited.  The random delay
    between requests lies in the window from 1500 to 3499 ms.  Up to 21
    queued closures the backoff is [2 ^ n * 1000] ms: it is at least
    1000 ms, doubles with each further closure and, from two closures
    on, exceeds every random delay, while with a single one (2000 ms) it
    can be shorter than the random delay.  From 22 closures on the
    requested delay is more than a timer keeps and the backoff waited is
    1 ms, shorter than every random delay. *)
Theorem delay_bounds (u : Z) (n : nat) :
  (0 ≤ u < 2000)%Z →
  (1500 ≤ randomDelay u < 3500)%Z ∧
  (n ≤ 21 → exponentialBackoff n = (2 ^ Z.of_nat n * 1000)%Z ∧
            (1000 ≤ exponentialBackoff n)%Z) ∧
  (n < 21 → exponentialBackoff (S n) = (2 * exponentialBackoff n)%Z) ∧
  (2 ≤ n ≤ 21 → (randomDelay u < exponentialBackoff n)%Z) ∧
  (22 ≤ n → exponentialBackoff n = 1%Z ∧
            (exponentialBackoff n < randomDelay u)%Z) ∧
  (exponentialBackoff 1 < randomDelay 1999)%Z.
Proof.
  intros Hu.
  assert (Hr : randomDelay u = (u + 1500)%Z).
  { unfold randomDelay, setTimeout, TIMEOUT_MAX.
    destruct (Z.leb_spec 1 (u + 1500)); [|lia].
    destruct (Z.leb_spec (u + 1500) 2147483647); [done | lia]. }
  assert (Hpow : ∀ m, (1 ≤ 2 ^ Z.of_nat m)%Z).
  { intros m. pose proof (Z.pow_pos_nonneg 2 (Z.of_nat m)). lia. }
  destruct (exponentialBackoff_cases n) as [Hlow Hhigh].
  rewrite Hr. split_and!.
  - lia.
  - lia.
  - intros Hn. rewrite (Hlow Hn). split; [done|]. specialize (Hpow n). lia.
  - intros Hn. rewrite (Hlow ltac:(lia)).
    rewrite (proj1 (exponentialBackoff_cases (S n))) by lia.
    rewrite Nat2Z.inj_succ, Z.pow_succ_r by lia. lia.
  - intros Hn. rewrite (Hlow ltac:(lia)).
    destruct n as [|[|n]]; [lia | lia |].
    rewrite !Nat2Z.inj_succ, !Z.pow_succ_r by lia. specialize (Hpow n). lia.
  - intros Hn. rewrite (Hhigh Hn). split; [done | lia].
  - done.
Qed.

(** X5: a request added to an idle queue is invoked at once, inside the
    [add] call, and the loop is then running; a request added while the
    loop runs only joins the tail of the queue. *)
Theorem add_starts_or_waits (sched : list (@action T)) req :
  let s := exec sched init in
  (processing s = false →
     log (add req s) = log s ++ [Invoked (added s) 0] ∧
     processing (add req s) = true ∧
     queue (add req s) = [] ∧
     workers (add req s) = [AwaitRequest (wrap (added s) req) 0]) ∧
  (processing s = true →
     log (add req s) = log s ∧
     queue (add req s) = queue s ++ [wrap (added s) req] ∧
     workers (add req s) = workers s).
Proof.
  cbn zeta. set (s := exec sched init).
  assert (Hinv : fifo_inv (λ _, True) s).
  { apply fifo_inv_exec; [apply any_admissible | apply fifo_inv_init]. }
  destruct Hinv as (m & f & _ & _ & _ & Hq & Hle & _ & Hcalls & _ & _ & Hw).
  split; intros Hp.
  - destruct (worker_ok_idle _ _ _ _ Hw Hp) as (Hwk & Hqe & ->).
    rewrite Hqe in Hq. cbn in Hq.
    assert (added s = m) as Ha.
    { destruct (added s - m) eqn:E; [lia | done]. }
    unfold add, processQueue. cbn. rewrite Hp, Hqe. cbn.
    unfold loop_head. cbn. rewrite Hwk, (Hcalls (added s)) by lia. done.
  - unfold add, processQueue. cbn. by rewrite Hp.
Qed.

End more.

Lemma fifo_under_success_witness :
  Forall succeeds_first fifo_scenario ∧
  2 * adds fifo_scenario ≤ length fifo_delays ∧
  let s := exec (fifo_scenario ++ map (Tick 0) fifo_delays) init in
  processing s = false ∧ queue s = [] ∧
  invocations s = [0; 1; 2] ∧ fulfilments s = [0; 1; 2] ∧
  promises s !! 0 = Some (Resolved 1%Z) ∧
  promises s !! 1 = Some (Resolved 2%Z) ∧
  promises s !! 2 = Some (Resolved 3%Z).
Proof.
  assert (Hok : Forall succeeds_first fifo_scenario).
  { repeat constructor; by eexists. }
  assert (Hfuel : 2 * adds fifo_scenario ≤ length fifo_delays) by (cbn; lia).
  split; [exact Hok|]. split; [exact Hfuel|].
  destruct (fifo_under_success fifo_scenario fifo_delays Hok Hfuel)
    as (_ & Hp & Hq & Hi & Hf & Hprom).
  split_and!; [exact Hp | exact Hq | exact Hi | exact Hf | | |].
  - destruct (Hprom 0) as (req & v & Hreq & Hv & H); [cbn; lia|].
    injection Hreq as <-. injection Hv as <-. exact H.
  - destruct (Hprom 1) as (req & v & Hreq & Hv & H); [cbn; lia|].
    injection Hreq as <-. injection Hv as <-. exact H.
  - destruct (Hprom 2) as (req & v & Hreq & Hv & H); [cbn; lia|].
    injection Hreq as <-. injection Hv as <-. exact H.
Defined.

Lemma promise_outcomes_witness :
  2 * adds mixed_scenario ≤ length fifo_delays ∧
  let s := exec (mixed_scenario ++ map (Tick 0) fifo_delays) init in
  promises s !! 0 = Some (Rejected boom) ∧
  promises s !! 1 = Some (Resolved 2%Z).
Proof.
  assert (Hfuel : 2 * adds mixed_scenario ≤ length fifo_delays) by (cbn; lia).
  split; [exact Hfuel|].
  destruct (promise_outcomes mixed_scenario fifo_delays Hfuel) as [_ H].
  split.
  - exact (H 0 (fails_once 1) eq_refl).
  - exact (H 1 (succeeds 2) eq_refl).
Defined.

Lemma thrown_closure_is_retried_first_witness :
  workers thrower_state = [AwaitRequest thrower 0] ∧
  throws (invoke thrower 0) = Some boom ∧
  calls thrower_state !! eid thrower = Some 1 ∧
  let s3 := exec [Tick 0 5%Z; Tick 0 6%Z; Tick 0 7%Z] thrower_state in
  workers s3 = [AwaitRequest thrower 1] ∧
  queue s3 = [wrap 1 (succeeds 2)] ∧
  log s3 = [Invoked 0 0; Requeued 0; Backoff 4000; RandomDelay 1506;
            Invoked 0 1].
Proof.
  assert (Hw : workers thrower_state = [AwaitRequest thrower 0]) by reflexivity.
  assert (Hth : throws (invoke thrower 0) = Some boom) by reflexivity.
  assert (Hc : calls thrower_state !! eid thrower = Some 1) by reflexivity.
  split; [exact Hw|]. split; [exact Hth|]. split; [exact Hc|].
  destruct (thrown_closure_is_retried_first thrower_state thrower 0 boom
              5%Z 6%Z 7%Z Hw Hth Hc) as (H1 & H2 & H3 & _).
  split; [exact H1|]. split; [exact H2 | exact H3].
Defined.

Lemma delay_bounds_witness :
  (0 ≤ 1999 < 2000)%Z ∧
  (1500 ≤ randomDelay 1999 < 3500)%Z ∧
  exponentialBackoff 3 = (2 * exponentialBackoff 2)%Z ∧
  (randomDelay 1999 < exponentialBackoff 2)%Z ∧
  exponentialBackoff 21 = 2097152000%Z ∧
  exponentialBackoff 22 = 1%Z.
Proof.
  assert (Hu : (0 ≤ 1999 < 2000)%Z) by lia.
  destruct (delay_bounds 1999 2 Hu) as (H1 & _ & H3 & H4 & _).
  destruct (delay_bounds 1999 21 Hu) as (_ & H21 & _).
  destruct (delay_bounds 1999 22 Hu) as (_ & _ & _ & _ & H22 & _).
  split; [exact Hu|]. split; [exact H1|].
  split; [apply H3; lia|]. split; [apply H4; lia|].
  split; [apply H21; lia | apply H22; lia].
Defined.

End RequestQueueMore.

(** * Further facts about ClientBase *)

Module ClientBaseMore.
Import ClientBase ClientBaseObs ClientBaseFacts.

#[local] Arguments Path.ancestors : simpl never.
#[local] Arguments Path.join : simpl never.
#[local] Arguments Path.dirname : simpl never.

Section keeping.
Context (I : client → Prop).

Lemma keeps_bind {A C} (c : M A) (k : A → M C) :
  keeps I c → (∀ a, keeps I (k a)) → keeps I (bind c k).
Proof.
  intros Hc Hk s Hs. unfold bind. specialize (Hc s Hs).
  destruct (c s) as [[a|e] s']; cbn in *; [|done].
  by apply Hk.
Qed.

Lemma keeps_try_catch {A} (c : M A) (h : error → M A) :
  keeps I c → (∀ e, keeps I (h e)) → keeps I (try_catch c h).
Proof.
  intros Hc Hh s Hs. unfold try_catch. specialize (Hc s Hs).
  destruct (c s) as [[a|e] s']; cbn in *; [done|].
  by apply Hh.
Qed.

End keeping.

(** A property that only reads the part [f] of the state is kept by a
    method that leaves [f] alone. *)
Lemma preserves_keeps {B A} (f : client → B) (I : client → Prop) (c : M A) :
  (∀ s s', f s = f s' → I s → I s') → preserves f c → keeps I c.
Proof.
  intros Hf Hc s Hs. by apply (Hf s), Hs.
Qed.

Section guard_more.
Context (refreshOAuth2Token : string → nat → result (handle * string * string)).

Abbreviation refreshTwitterToken := (refreshTwitterToken refreshOAuth2Token).
Abbreviation executeWithTokenRefresh :=
  (executeWithTokenRefresh refreshOAuth2Token).

(** X6: what one guarded remote call can do.  For an operation that
    makes one remote call and maps its answer, [executeWithTokenRefresh]
    makes one remote call, or one remote call and a refresh that fails,
    or two remote calls with exactly one refresh between them, or two
    remote calls with exactly one cooldown of 90 001 000 ms between
    them: never more than two calls, and never a refresh and a cooldown
    in the same call. *)
Theorem guard_effects {A B} (endpoint : string) (answer : nat → result B)
    (f : B → result A) (s : client) :
  let operation := (x <- remote endpoint answer ;; lift (f x)) in
  let out := executeWithTokenRefresh operation s in
  let k := api_calls s in
  let r := refreshes s in
  (trace out.2 = trace s ++ [ApiCall endpoint k] ∧
   api_calls out.2 = S k ∧ refreshes out.2 = r) ∨
  (trace out.2 = trace s ++ [ApiCall endpoint k; Refresh r] ∧
   api_calls out.2 = S k ∧ refreshes out.2 = S r ∧ ∃ e, out.1 = Throw e) ∨
  (trace out.2 = trace s ++ [ApiCall endpoint k; Refresh r; ApiCall endpoint (S k)] ∧
   api_calls out.2 = S (S k) ∧ refreshes out.2 = S r) ∨
  (trace out.2 =
     trace s ++ [ApiCall endpoint k; Sleep 90001000%Z; ApiCall endpoint (S k)] ∧
   api_calls out.2 = S (S k) ∧ refreshes out.2 = r).
Proof.
  cbn zeta.
  unfold ClientBase.executeWithTokenRefresh, try_catch.
  unfold remote, bind at 1 2 3 4, get, modify, emit, modify, lift. cbn.
  assert (Hfirst : ∀ e : error,
    (let op := (x <- remote endpoint answer ;; lift (f x)) in
     let s1 := set_trace (trace s ++ [ApiCall endpoint (api_calls s)])
                 (set_api_calls (S (api_calls s)) s) in
     let out := (if credentialExpired e then refreshTwitterToken ;;; op
                 else if rateLimited e then sleep (waitTime + 1000) ;;; op
                 else throw e) s1 in
     (trace out.2 = trace s ++ [ApiCall endpoint (api_calls s)] ∧
      api_calls out.2 = S (api_calls s) ∧ refreshes out.2 = refreshes s) ∨
     (trace out.2 = trace s ++ [ApiCall endpoint (api_calls s); Refresh (refreshes s)] ∧
      api_calls out.2 = S (api_calls s) ∧ refreshes out.2 = S (refreshes s) ∧
      ∃ e', out.1 = Throw e') ∨
     (trace out.2 = trace s ++ [ApiCall endpoint (api_calls s); Refresh (refreshes s);
                                ApiCall endpoint (S (api_calls s))] ∧
      api_calls out.2 = S (S (api_calls s)) ∧ refreshes out.2 = S (refreshes s)) ∨
     (trace out.2 = trace s ++ [ApiCall endpoint (api_calls s); Sleep 90001000%Z;
                                ApiCall endpoint (S (api_calls s))] ∧
      api_calls out.2 = S (S (api_calls s)) ∧ refreshes out.2 = refreshes s))).
  { intros e. cbn zeta. destruct (credentialExpired e).
    - unfold bind.
      match goal with |- context [refreshTwitterToken ?x] =>
        pose proof (refreshTwitterToken_counts refreshOAuth2Token x)
          as (Hr & Ht & Ha);
        destruct (refreshTwitterToken x) as [[[]|e'] s2]
      end; cbn in Hr, Ht, Ha.
      + right. right. left. unfold remote, bind, get, modify, emit, modify, lift.
        cbn. rewrite Ht, Ha, <- !app_assoc. cbn.
        destruct (answer (S (api_calls s))) as [b|]; cbn; [|done].
        by destruct (f b).
      + right. left. cbn. rewrite Ht, <- !app_assoc. cbn. split_and!; eauto.
    - destruct (rateLimited e).
      + right. right. right.
        unfold sleep, remote, bind, get, modify, emit, modify, lift. cbn.
        rewrite <- !app_assoc. cbn.
        destruct (answer (S (api_calls s))) as [b|]; cbn; [|done].
        by destruct (f b).
      + left. done. }
  destruct (answer (api_calls s)) as [b|e]; cbn.
  - destruct (f b) as [a|e]; cbn; [by left|]. apply Hfirst.
  - apply Hfirst.
Qed.

(** X7: the credentials of the object are replaced together or not at
    all.  [refreshTwitterToken] exchanges the refresh token held by the
    database (not the one held by the object).  When the database
    answers both calls and the exchange succeeds, it returns; and
    whenever it returns, the handle of the object, the handle of the
    class, both tokens of the object and both tokens of the database are
    the granted ones.  Whenever it throws (the database refuses the
    read, the exchange fails, or the database rejects the update) the
    error is rethrown with none of the four fields of the object
    changed; the tokens of the database are unchanged too, unless the
    update was rejected after it had been written, in which case the
    database holds the granted tokens and the object the old ones.  The
    tweet cache and the memories are never touched. *)
Theorem refresh_all_or_nothing (s : client) :
  let out := refreshTwitterToken s in
  let k := refreshes s in
  let grant := refreshOAuth2Token (dbRefreshToken s) k in
  (db_get_fault s k = None → db_update_fault s k = None →
   (∃ g, grant = Ok g) → out.1 = Ok tt) ∧
  (out.1 = Ok tt →
   ∃ h a r, grant = Ok (h, a, r) ∧
     credentials out.2 = (h, Some h, a, r, a, r) ∧ synced out.2) ∧
  (∀ e, out.1 = Throw e →
     object_credentials out.2 = object_credentials s ∧
     (db_credentials out.2 = db_credentials s ∨
      ∃ h a r, grant = Ok (h, a, r) ∧ db_update_fault s k = Some (e, true) ∧
               db_credentials out.2 = (a, r))) ∧
  cache_tiers out.2 = cache_tiers s ∧ memories out.2 = memories s.
Proof.
  cbn zeta.
  unfold ClientBase.refreshTwitterToken, getTwitterRefreshToken,
    updateTwitterAccessToken, bind, get, modify, emit, lift, ret, throw. cbn.
  destruct (db_get_fault s (refreshes s)) as [e0|]; cbn.
  { split_and!; try done. intros e [= <-]. auto. }
  destruct (refreshOAuth2Token _ _) as [[[h a] r]|e0]; cbn.
  2:{ split_and!; try done.
      - by intros _ _ [g Hg].
      - intros e [= <-]. auto. }
  destruct (db_update_fault s (refreshes s)) as [[e0 []]|]; cbn.
  - split_and!; try done. intros e [= <-]. split; [done|].
    right. exists h, a, r. done.
  - split_and!; try done. intros e [= <-]. auto.
  - split_and!; try done. intros _. exists h, a, r. done.
Qed.

End guard_more.

Lemma refresh_all_or_nothing_witness :
  let out := refreshTwitterToken Scenario.refresh_granted client_db_torn in
  out.1 = Throw connection_lost ∧
  object_credentials out.2 = (0, Some 0, "a0", "r0") ∧
  db_credentials out.2 = ("access-r0", "refresh-r0").
Proof.
  destruct (refresh_all_or_nothing Scenario.refresh_granted client_db_torn)
    as (_ & _ & H & _).
  destruct (H connection_lost eq_refl) as [Hobj Hdb].
  split; [reflexivity|]. split; [exact Hobj|].
  destruct Hdb as [Hdb | (h & a & r & Hg & _ & Hdb)].
  - discriminate Hdb.
  - injection Hg as <- <- <-. exact Hdb.
Defined.

Section cache_more.
Context (JSON_stringify : Tweet.t → string).
Context (JSON_parse : string → result Tweet.t).
Context (glob : Path.t → gset Path.t → gmap Path.t string → result (list Path.t)).
Context (refreshOAuth2Token : string → nat → result (handle * string * string)).
Context (singleTweet : string → nat → result Wire.single).
Context (now_iso : string) (now_ms : Z) (getTime : string → Z).
Implicit Types (s : client) (tweet : Tweet.t).

Abbreviation cacheTweet := (cacheTweet JSON_stringify).
Abbreviation globbed := (globbed glob).
Abbreviation getCachedTweet := (getCachedTweet JSON_parse glob).
Abbreviation tweetOfSingle := (tweetOfSingle now_iso now_ms getTime).
Abbreviation fetch := (fetch singleTweet now_iso now_ms getTime).
Abbreviation guarded_fetch x :=
  (executeWithTokenRefresh refreshOAuth2Token (fetch x)).
Abbreviation getTweet :=
  (getTweet JSON_stringify JSON_parse glob refreshOAuth2Token singleTweet
     now_iso now_ms getTime).

Lemma ensureReady_cases s :
  (ready s ∧ ensureReady s = (Ok tt, s)) ∨
  (¬ ready s ∧ ∃ e, ensureReady s = (Throw e, s)).
Proof.
  unfold ready, ensureReady, bind, get, lift, ret, throw.
  destruct (isReady s); [|destruct (readyPromise s) as [[]|e]]; cbn.
  3:{ right. split; [|eauto]. intros [[|] _]; done. }
  all: destruct (truthy (twitterUsername s)), (truthy (twitterUserId s)); cbn;
    first [ left; split; [split_and!; auto | done]
          | right; split; [by intros (_ & ? & ?) | eauto] ].
Qed.

(** X8: [ensureReady] never changes anything, and it returns normally
    exactly when the client is ready (or its ready promise is fulfilled)
    and both the user name and the user id are set.  Otherwise [getTweet]
    throws the error of [ensureReady] before it looks at the cache or
    calls the remote side. *)
Theorem getTweet_not_ready x s :
  (ensureReady s = (Ok tt, s) ↔ ready s) ∧
  (¬ ready s →
   ∃ e, ensureReady s = (Throw e, s) ∧ getTweet x s = (Throw e, s)).
Proof.
  destruct (ensureReady_cases s) as [[Hr He] | [Hn [e He]]].
  - split; [done|]. by intros Hn.
  - split.
    + split; [by rewrite He | done].
    + intros _. exists e. split; [done|].
      unfold ClientBase.getTweet, bind at 1. by rewrite He.
Qed.

Lemma insert_keyed (c : gmap string Tweet.t) tweet :
  (∀ k t, c !! k = Some t → Tweet.id t = k) →
  ∀ k t, <[Tweet.id tweet := tweet]> c !! k = Some t → Tweet.id t = k.
Proof.
  intros Hc k t. destruct (decide (k = Tweet.id tweet)) as [->|Hne].
  - rewrite lookup_insert_eq. by intros [= <-].
  - rewrite lookup_insert_ne by done. apply Hc.
Qed.

Lemma cacheTweet_keyed o : keeps cache_keyed (cacheTweet o).
Proof.
  intros s Hs. destruct o as [tweet|]; [|done].
  unfold cache_keyed.
  destruct (cacheTweet_outcomes JSON_stringify tweet s)
    as [(file & _ & _ & -> & _) | (e & _ & -> & _)]; [|done].
  by apply insert_keyed.
Qed.

Lemma getCachedTweet_keyed x : keeps cache_keyed (getCachedTweet x).
Proof.
  intros s Hs. rewrite getCachedTweet_eq.
  destruct (tweetCache s !! x); [done|].
  destruct (globbed x s) as [[|file rest]|e]; [done | | done].
  rewrite readFile_run. cbn zeta.
  destruct (fs_fault s (fs_calls s) _); [done|].
  destruct (files s !! file) as [data|]; [|done].
  destruct (JSON_parse data) as [t0|e]; [|done].
  unfold cache_keyed. cbn. by apply insert_keyed.
Qed.

Lemma guard_tweetCache x : preserves tweetCache (guarded_fetch x).
Proof.
  unfold executeWithTokenRefresh, ClientBase.refreshTwitterToken,
    getTwitterRefreshToken, updateTwitterAccessToken, sleep,
    ClientBase.fetch, remote.
  frame.
Qed.



Lemma getTweet_keyed x : keeps cache_keyed (getTweet x).
Proof.
  unfold ClientBase.getTweet. apply keeps_bind.
  { intros s Hs. by rewrite ensureReady_state. }
  intros _. apply keeps_bind; [apply getCachedTweet_keyed|].
  intros [t|]; [by intros s Hs|].
  apply keeps_bind.
  { apply (preserves_keeps tweetCache); [|apply guard_tweetCache].
    unfold cache_keyed. by intros s s' ->. }
  intros result. apply keeps_bind; [apply cacheTweet_keyed | by intros _ s Hs].
Qed.

(** X9: every tweet of the in-memory map is stored under its own id.
    [cacheTweet], [getCachedTweet] and [getTweet] keep that property,
    whether they return or throw; and a tweet returned by [getTweet] is
    in the map under its id afterwards. *)
Theorem cache_stays_keyed o x s :
  cache_keyed s →
  cache_keyed (cacheTweet o s).2 ∧
  cache_keyed (getCachedTweet x s).2 ∧
  cache_keyed (getTweet x s).2 ∧
  (∀ tweet s1, getTweet x s = (Ok tweet, s1) →
     tweetCache s1 !! Tweet.id tweet = Some tweet).
Proof.
  intros Hs. split_and!.
  - by apply cacheTweet_keyed.
  - by apply getCachedTweet_keyed.
  - by apply getTweet_keyed.
  - intros tweet s1 Hget. unfold ClientBase.getTweet in Hget.
    apply bind_ok in Hget as ([] & s0 & Hready & Hget).
    pose proof (ensureReady_state s) as Hs0.
    rewrite Hready in Hs0. cbn in Hs0. subst s0.
    apply bind_ok in Hget as (cached & sc & Hcached & Hget).
    apply (getCachedTweet_cases JSON_parse) in Hcached
      as [(Hmem & -> & ->) | [(Hmem & Hglob & -> & ->) | (Hmem & Hsc)]].
    + destruct Hmem as [t0 Hmem]. rewrite Hmem in Hget.
      cbn in Hget. injection Hget as -> ->.
      by rewrite (Hs _ _ Hmem).
    + apply bind_ok in Hget as (result & s2 & Hexec & Hget).
      apply bind_ok in Hget as ([] & s3 & Hput & Hget).
      cbn in Hget. injection Hget as -> ->.
      by eapply cacheTweet_ok.
    + destruct Hsc as (file & rest & data & t0 & _ & _ & _ & _ & -> & ->).
      cbn in Hget. injection Hget as -> <-.
      cbn. apply lookup_insert_eq.
Qed.


(** X11: the persistent tier survives a restart.  After [cacheTweet] has
    stored a tweet, and the process has restarted with an empty
    in-memory map, [getCachedTweet] of the id of the tweet returns the
    tweet and puts it back into the map, without a remote call, provided
    that [glob] lists the cache file of the tweet first, that the file
    can be read, and that parsing undoes the serialization of the
    tweet. *)
Theorem cache_survives_restart tweet file rest s :
  cachePath tweet s = Ok file →
  storable file s →
  round_trips JSON_stringify JSON_parse tweet →
  let s1 := restart (cacheTweet (Some tweet) s).2 in
  globbed (Tweet.id tweet) s1 = Ok (file :: rest) →
  fs_fault s1 (fs_calls s1) (FsReadFile file) = None →
  let out := getCachedTweet (Tweet.id tweet) s1 in
  out.1 = Ok (Some tweet) ∧
  tweetCache out.2 !! Tweet.id tweet = Some tweet ∧
  files out.2 = files s1 ∧ api_calls out.2 = api_calls s.
Proof.
  intros Hpath Hst Hrt. cbn zeta.
  rewrite (cacheTweet_run JSON_stringify tweet file s Hpath Hst). cbn [snd].
  set (s1 := restart _). intros Hglob Hread.
  assert (Hfile : files s1 !! file = Some (JSON_stringify tweet))
    by apply lookup_insert_eq.
  rewrite getCachedTweet_eq.
  change (tweetCache s1) with (∅ : gmap string Tweet.t).
  rewrite lookup_empty, Hglob, readFile_run, Hread, Hfile. cbn beta iota zeta.
  unfold round_trips in Hrt. rewrite Hrt. cbn. split_and!; try done. apply lookup_insert_eq.
Qed.

(** X12: the in-memory tier is authoritative and a corrupt file is
    fatal.  A tweet held by the in-memory map is returned without
    reading the disk and without any effect.  When the map misses and
    the file that [glob] lists first is read but does not parse,
    [getTweet] throws the parse error and stops there: it makes no remote
    call and, apart from the count of file-system calls, changes
    nothing. *)
Theorem corrupt_cache_file_is_fatal x s file tweetData rest e :
  ready s →
  tweetCache s !! x = None →
  globbed x s = Ok (file :: rest) →
  fs_fault s (fs_calls s) (FsReadFile file) = None →
  files s !! file = Some tweetData →
  JSON_parse tweetData = Throw e →
  getTweet x s = (Throw e, set_fs_calls (S (fs_calls s)) s) ∧
  (∀ tweet s', tweetCache s' !! x = Some tweet →
     getCachedTweet x s' = (Ok (Some tweet), s')).
Proof.
  intros Hr Hmem Hglob Hread Hfile Hparse. split.
  - destruct (ensureReady_cases s) as [[_ He] | [Hn _]]; [|done].
    unfold ClientBase.getTweet, bind at 1. rewrite He.
    unfold bind at 1.
    rewrite getCachedTweet_eq, Hmem, Hglob, readFile_run, Hread, Hfile.
    cbn beta iota zeta. by rewrite Hparse.
  - intros tweet s' Hhit. by rewrite getCachedTweet_eq, Hhit.
Qed.


Lemma guard_result {A} (operation : M A) s v s' :
  executeWithTokenRefresh refreshOAuth2Token operation s = (Ok v, s') →
  ∃ s0 s0', operation s0 = (Ok v, s0').
Proof.
  unfold executeWithTokenRefresh, try_catch.
  destruct (operation s) as [[a|e] s1] eqn:Hop.
  { intros [= <- <-]. eauto. }
  destruct (credentialExpired e); [|destruct (rateLimited e)].
  - intros H. apply bind_ok in H as (_ & s2 & _ & H). eauto.
  - intros H. apply bind_ok in H as (_ & s2 & _ & H). eauto.
  - done.
Qed.

(** What [getTweet] builds always has a conversation id: that of the
    answer, or else the id of the tweet. *)
Lemma tweetOfSingle_fields r tweet :
  tweetOfSingle r = Ok tweet →
  Tweet.id tweet = Wire.id (Wire.data r) ∧
  Tweet.conversationId tweet =
    JsStr (falsy_or (Wire.conversation_id (Wire.data r)) (Wire.id (Wire.data r))).
Proof.
  unfold ClientBase.tweetOfSingle.
  repeat case_match; intros [= <-]; done.
Qed.

Lemma fetch_result x s0 tweet s0' :
  fetch x s0 = (Ok tweet, s0') →
  ∃ g, Tweet.conversationId tweet = JsStr g.
Proof.
  unfold ClientBase.fetch. intros H.
  apply bind_ok in H as (r & s1 & _ & H). unfold lift in H.
  injection H as H _. apply tweetOfSingle_fields in H as [_ H]. eauto.
Qed.



(** X14: a tweet whose answer carries no [entities] cannot be fetched.
    The client being ready and the tweet in neither tier of the cache,
    [getTweet] makes its one remote call, the mapping of the answer
    throws a [TypeError], which the guard classifies neither as an
    expired token nor as a rate limit, so nothing is retried and nothing
    is cached: the error reaches the caller. *)
Theorem getTweet_without_entities x s r :
  ready s →
  tweetCache s !! x = None →
  globbed x s = Ok [] →
  singleTweet x (api_calls s) = Ok r →
  Wire.data_entities (Wire.data r) = None →
  getTweet x s =
    (Throw (TypeError "Cannot read properties of undefined"),
     set_trace (trace s ++ [ApiCall "singleTweet" (api_calls s)])
       (set_api_calls (S (api_calls s)) s)).
Proof.
  intros Hr Hmem Hglob Hsingle Hent.
  destruct (ensureReady_cases s) as [[_ He] | [Hn _]]; [|done].
  unfold ClientBase.getTweet, bind at 1. rewrite He.
  unfold bind at 1. rewrite getCachedTweet_eq, Hmem, Hglob.
  assert (Hmap : tweetOfSingle r = Throw (TypeError "Cannot read properties of undefined")).
  { destruct (tweetOfSingle r) as [t|e] eqn:Hmap.
    - exfalso. revert Hmap. unfold ClientBase.tweetOfSingle. rewrite Hent.
      by repeat case_match.
    - by rewrite (tweetOfSingle_error _ _ _ _ _ Hmap). }
  unfold bind at 1, executeWithTokenRefresh, try_catch, ClientBase.fetch, remote.
  unfold bind, get, modify, emit, modify, lift. cbn.
  by rewrite Hsingle, Hmap.
Qed.

End cache_more.

Lemma getTweet_not_ready_witness :
  ¬ ready unready ∧
  ∃ e, Scenario.getTweet Scenario.single_ok "5" unready = (Throw e, unready).
Proof.
  assert (Hn : ¬ ready unready) by (by intros (_ & ? & _)).
  split; [exact Hn|].
  destruct (getTweet_not_ready Scenario.stringify Scenario.parse Scenario.glob
              Scenario.refresh_granted Scenario.single_ok
              "2024-01-01T00:00:00.000Z" 0%Z (fun _ => 0%Z) "5" unready)
    as [_ H].
  destruct (H Hn) as (e & _ & He). by exists e.
Defined.

Lemma cache_keyed_client0 : cache_keyed Scenario.client0.
Proof. intros k t H. cbn in H. by rewrite lookup_empty in H. Qed.

Lemma cache_stays_keyed_witness :
  cache_keyed Scenario.client0 ∧
  cache_keyed (Scenario.getTweet Scenario.single_ok "5" Scenario.client0).2.
Proof.
  split; [exact cache_keyed_client0|].
  exact (proj1 (proj2 (proj2
    (cache_stays_keyed Scenario.stringify Scenario.parse Scenario.glob
       Scenario.refresh_granted Scenario.single_ok
       "2024-01-01T00:00:00.000Z" 0%Z (fun _ => 0%Z)
       None "5" Scenario.client0 cache_keyed_client0)))).
Defined.


Lemma storable_tweet5 :
  storable ["app"; "tweetcache"; "100"; "5.json"] Scenario.client0.
Proof.
  split_and!;
    first [done | intros d _; apply lookup_empty | apply not_elem_of_empty].
Qed.

Lemma cache_survives_restart_witness :
  let file := ["app"; "tweetcache"; "100"; "5.json"] in
  cachePath Scenario.tweet5 Scenario.client0 = Ok file ∧
  storable file Scenario.client0 ∧
  round_trips Scenario.stringify parse5 Scenario.tweet5 ∧
  let s1 := restart (cacheTweet Scenario.stringify (Some Scenario.tweet5)
                       Scenario.client0).2 in
  globbed Scenario.glob "5" s1 = Ok [file] ∧
  (getCachedTweet parse5 Scenario.glob "5" s1).1 = Ok (Some Scenario.tweet5).
Proof.
  assert (Hp : cachePath Scenario.tweet5 Scenario.client0
               = Ok ["app"; "tweetcache"; "100"; "5.json"]) by reflexivity.
  assert (Hrt : round_trips Scenario.stringify parse5 Scenario.tweet5)
    by reflexivity.
  assert (Hg : globbed Scenario.glob "5"
                 (restart (cacheTweet Scenario.stringify (Some Scenario.tweet5)
                             Scenario.client0).2)
               = Ok [["app"; "tweetcache"; "100"; "5.json"]])
    by (vm_compute; reflexivity).
  cbn zeta. split; [exact Hp|]. split; [exact storable_tweet5|].
  split; [exact Hrt|]. split; [exact Hg|].
  exact (proj1 (cache_survives_restart Scenario.stringify parse5 Scenario.glob
                  Scenario.tweet5 _ [] Scenario.client0 Hp storable_tweet5 Hrt
                  Hg eq_refl)).
Defined.

Lemma client0_ready : ready Scenario.client0.
Proof. split_and!; auto. Qed.

Lemma corrupt_cache_file_is_fatal_witness :
  let file := ["app"; "tweetcache"; "100"; "5.json"] in
  ready client_with_garbage ∧
  tweetCache client_with_garbage !! "5" = None ∧
  globbed Scenario.glob "5" client_with_garbage = Ok [file] ∧
  files client_with_garbage !! file = Some "garbage" ∧
  Scenario.getTweet Scenario.single_ok "5" client_with_garbage =
    (Throw {| code := None; message := Some "Unexpected end of JSON input" |},
     set_fs_calls 1 client_with_garbage).
Proof.
  assert (Hr : ready client_with_garbage) by exact client0_ready.
  assert (Hm : tweetCache client_with_garbage !! "5" = None) by reflexivity.
  assert (Hg : globbed Scenario.glob "5" client_with_garbage
               = Ok [["app"; "tweetcache"; "100"; "5.json"]])
    by (vm_compute; reflexivity).
  assert (Hf : files client_with_garbage !! ["app"; "tweetcache"; "100"; "5.json"]
               = Some "garbage") by (vm_compute; reflexivity).
  cbn zeta. split; [exact Hr|]. split; [exact Hm|]. split; [exact Hg|].
  split; [exact Hf|].
  exact (proj1 (corrupt_cache_file_is_fatal Scenario.stringify Scenario.parse
                  Scenario.glob Scenario.refresh_granted Scenario.single_ok
                  "2024-01-01T00:00:00.000Z" 0%Z (fun _ => 0%Z)
                  "5" client_with_garbage _ _ _ _ Hr Hm Hg eq_refl Hf eq_refl)).
Defined.


Lemma getTweet_without_entities_witness :
  ready Scenario.client0 ∧
  Scenario.getTweet single_plain "8" Scenario.client0 =
    (Throw (TypeError "Cannot read properties of undefined"),
     set_trace [ApiCall "singleTweet" 0] (set_api_calls 1 Scenario.client0)).
Proof.
  split; [exact client0_ready|].
  exact (getTweet_without_entities Scenario.stringify Scenario.parse
           Scenario.glob Scenario.refresh_granted single_plain
           "2024-01-01T00:00:00.000Z" 0%Z (fun _ => 0%Z)
           "8" Scenario.client0 (answer_plain "8")
           client0_ready eq_refl eq_refl eq_refl eq_refl).
Defined.

Section reconcile_more.
Context (stringToUuid : string → UUID).
Context (refreshOAuth2Token : string → nat → result (handle * string * string)).
Context (search : string → nat → result Wire.page).
Context (now_iso : string) (now_ms : Z) (getTime : string → Z).
Implicit Types (s : client) (tweet : Tweet.t) (agent : UUID).

Abbreviation memoryId := (memoryId stringToUuid).
Abbreviation roomIdOf := (roomIdOf stringToUuid).
Abbreviation tweetsToSave := (tweetsToSave stringToUuid).
Abbreviation cachedExistingIds := (cachedExistingIds stringToUuid).
Abbreviation newTweetMemory := (newTweetMemory stringToUuid).
Abbreviation cachedTweetMemory := (cachedTweetMemory stringToUuid).
Abbreviation tweetOfSearch := (tweetOfSearch now_iso now_ms getTime).
Abbreviation fetchSearchTweets :=
  (fetchSearchTweets refreshOAuth2Token search now_iso now_ms getTime).
Abbreviation populateFresh :=
  (populateFresh stringToUuid refreshOAuth2Token search now_iso now_ms getTime).
Abbreviation populateTimeline :=
  (populateTimeline stringToUuid refreshOAuth2Token search now_iso now_ms getTime).




(** X17: when the cache file is used.  [populateTimeline] takes the path
    of the cached results only if the id of some stored memory of the
    agent equals the raw id of a cached tweet; otherwise, and when there
    is no cache file, it does what a run without cache file does: it
    fetches and reconciles. *)
Theorem cache_file_branch s cachedResults :
  timeline_cache s = Some cachedResults →
  (∀ tweet m, tweet ∈ cachedResults → m ∈ memories s →
     Memory.agentId m = agentId s → Memory.id m ≠ Tweet.id tweet) →
  populateTimeline s = populateFresh s.
Proof.
  intros Hcache Hfresh.
  unfold ClientBase.populateTimeline, bind at 1, get at 1. rewrite Hcache.
  destruct (existsb _ cachedResults) eqn:Hex; [|done].
  exfalso. apply existsb_exists in Hex as (tweet & Hin & Hid).
  apply bool_decide_eq_true in Hid.
  apply list_elem_of_fmap in Hid as (m & Hm & Hstore).
  unfold getMemoriesByRoomIds in Hstore.
  rewrite list_elem_of_In, filter_In, <- list_elem_of_In in Hstore.
  destruct Hstore as [Hstore Hf].
  rewrite andb_true_iff, !bool_decide_eq_true in Hf. destruct Hf as [Hagent _].
  apply (Hfresh tweet m); [by apply list_elem_of_In | done | done | done].
Qed.


(** X19: a search that fails outright.  Without a cache file, when the
    search fails with an error that is neither an expired token nor a
    rate limit, [populateTimeline] throws that error after the one remote
    call: no memory is created and no cache file is written. *)
Theorem populate_search_failure s e :
  timeline_cache s = None →
  search ("@" +:+ to_string (twitterUsername s)) (api_calls s) = Throw e →
  credentialExpired e = false →
  code e ≠ Some 429%Z →
  populateTimeline s =
    (Throw e,
     set_trace (trace s ++ [ApiCall "search" (api_calls s)])
       (set_api_calls (S (api_calls s)) s)).
Proof.
  intros Hcache Hsearch He Hc.
  unfold ClientBase.populateTimeline, bind at 1, get at 1. rewrite Hcache.
  unfold ClientBase.populateFresh, bind at 1, get at 1.
  unfold ClientBase.fetchSearchTweets, executeWithTokenRefresh, try_catch, remote.
  unfold bind, get, modify, emit, modify, lift, ret. cbn.
  rewrite Hsearch. cbn. rewrite He. unfold rateLimited.
  by rewrite bool_decide_eq_false_2.
Qed.

Lemma app_nonempty_ne (r x : string) : x ≠ "" → r ≠ r +:+ x.
Proof.
  intros Hx. induction r as [|a r IH].
  - change ("" +:+ x) with x. congruence.
  - change (String a r +:+ x) with (String a (r +:+ x)).
    intros [= H]. by apply IH.
Qed.

(** X20: the two loops of [populateTimeline] write the same memory for a
    tweet, except for the link to the tweet it replies to: the loop over
    fetched tweets links to [stringToUuid(inReplyToStatusId)], the loop
    over cached tweets to [stringToUuid(inReplyToStatusId + "-" +
    agentId)], which is a different id wherever [stringToUuid] keeps
    different strings apart. *)
Theorem reply_links_differ agent me tweet r :
  Tweet.inReplyToStatusId tweet = JsStr r → r ≠ "" →
  let fresh := newTweetMemory agent me tweet in
  let cached := cachedTweetMemory agent me tweet in
  Memory.id fresh = Memory.id cached ∧
  Memory.userId fresh = Memory.userId cached ∧
  Memory.roomId fresh = Memory.roomId cached ∧
  Memory.createdAt fresh = Memory.createdAt cached ∧
  Memory.text (Memory.body fresh) = Memory.text (Memory.body cached) ∧
  Memory.inReplyTo (Memory.body fresh) = Some (stringToUuid r) ∧
  Memory.inReplyTo (Memory.body cached)
    = Some (stringToUuid (r +:+ "-" +:+ agent)) ∧
  (Inj (=) (=) stringToUuid →
   Memory.inReplyTo (Memory.body fresh) ≠ Memory.inReplyTo (Memory.body cached)).
Proof.
  intros Hr Hne. cbn. rewrite Hr.
  assert (Ht : truthy (JsStr r) = true) by (by destruct r).
  rewrite Ht. cbn. split_and!; try done.
  intros Hinj [= H]. apply Hinj in H. by apply app_nonempty_ne in H.
Qed.

End reconcile_more.


Lemma cache_file_branch_witness :
  timeline_cache client_cached_A = Some [Scenario.tweetA] ∧
  map Memory.id (memories client_cached_A) = ["uuid:1-agent"] ∧
  Scenario.populateTimeline client_cached_A =
  populateFresh Scenario.uuid Scenario.refresh_granted Scenario.search_abc
    "2024-01-01T00:00:00.000Z" 0%Z (fun _ => 0%Z) client_cached_A.
Proof.
  assert (Hc : timeline_cache client_cached_A = Some [Scenario.tweetA])
    by reflexivity.
  split; [exact Hc|]. split; [reflexivity|].
  apply (cache_file_branch Scenario.uuid Scenario.refresh_granted
           Scenario.search_abc "2024-01-01T00:00:00.000Z" 0%Z (fun _ => 0%Z)
           client_cached_A [Scenario.tweetA] Hc).
  intros tweet m Ht Hm _.
  apply list_elem_of_singleton in Ht. apply list_elem_of_singleton in Hm.
  subst. discriminate.
Defined.


Lemma populate_search_failure_witness :
  timeline_cache Scenario.client0 = None ∧
  credentialExpired forbidden = false ∧
  code forbidden ≠ Some 429%Z ∧
  ClientBase.populateTimeline Scenario.uuid Scenario.refresh_granted
    search_forbidden "2024-01-01T00:00:00.000Z" 0%Z (fun _ => 0%Z)
    Scenario.client0 =
  (Throw forbidden,
   set_trace [ApiCall "search" 0] (set_api_calls 1 Scenario.client0)).
Proof.
  assert (Hc : code forbidden ≠ Some 429%Z) by discriminate.
  split; [reflexivity|]. split; [reflexivity|]. split; [exact Hc|].
  exact (populate_search_failure Scenario.uuid Scenario.refresh_granted
           search_forbidden "2024-01-01T00:00:00.000Z" 0%Z (fun _ => 0%Z)
           Scenario.client0 forbidden eq_refl eq_refl eq_refl Hc).
Defined.

Lemma reply_links_differ_witness :
  Tweet.inReplyToStatusId reply_tweet = JsStr "3" ∧ "3" ≠ "" ∧
  Memory.inReplyTo (Memory.body
    (ClientBase.newTweetMemory Scenario.uuid "agent" (JsStr "42") reply_tweet))
    = Some "uuid:3" ∧
  Memory.inReplyTo (Memory.body
    (ClientBase.cachedTweetMemory Scenario.uuid "agent" (JsStr "42") reply_tweet))
    = Some "uuid:3-agent".
Proof.
  assert (Hr : Tweet.inReplyToStatusId reply_tweet = JsStr "3") by reflexivity.
  assert (Hne : "3" ≠ "") by discriminate.
  split; [exact Hr|]. split; [exact Hne|].
  destruct (reply_links_differ Scenario.uuid "agent" (JsStr "42") reply_tweet "3"
              Hr Hne) as (_ & _ & _ & _ & _ & H1 & H2 & _).
  split; [exact H1 | exact H2].
Defined.

End ClientBaseMore.

(** * More facts: fetchHomeTimeline *)

Module HomeTimelineFacts.
Import ClientBase ClientBaseObs HomeTimeline ClientBaseFacts ClientBaseMore.

Lemma or_null_cases a :
  (truthy a = false ∧ or_null a = JsNull) ∨
  (∃ c, c ≠ "" ∧ a = JsStr c ∧ or_null a = JsStr c).
Proof.
  unfold or_null. destruct a as [| |[|c r]]; cbn; auto.
  right. by exists (String c r).
Qed.

Section home_facts.
Context (stringToUuid : string → UUID).
Context (JSON_stringify : Tweet.t → string).
Context (refreshOAuth2Token : string → nat → result (handle * string * string)).
Context (homeTimeline : nat → nat → result (option (list HomeWire.t))).
Context (getTime : string → Z).

Lemma homeOperation_ok count s0 v s1 :
  homeOperation homeTimeline getTime count s0 = (Ok v, s1) →
  ∃ ws, homeTimeline count (api_calls s0) = Ok (Some ws) ∧
        v = map (tweetOfHome getTime) ws.
Proof.
  unfold homeOperation, try_catch, remote, bind, get, modify, emit, lift, ret,
    throw. cbn.
  destruct (homeTimeline count (api_calls s0)) as [[ws|]|e]; cbn; [|done..].
  intros [= <- <-]. eauto.
Qed.

(** X21: what [fetchHomeTimeline] returns.  It returns only on a ready
    client; the tweets it returns are the tweets of one answer of the
    remote side, in the order of that answer and with their ids and
    texts; each of them has neither user name nor name ([null]), links to
    [https://twitter.com/<author id>/status/<id>], and has as its
    conversation id either [null] or a string that is not empty, never
    [undefined] and never the empty string. *)
Theorem home_timeline_tweets count s tweets s' :
  fetchHomeTimeline refreshOAuth2Token homeTimeline getTime count s
    = (Ok tweets, s') →
  ready s ∧
  (∃ k ws, homeTimeline count k = Ok (Some ws) ∧
     map Tweet.id tweets = map HomeWire.id ws ∧
     map Tweet.text tweets = map HomeWire.text ws) ∧
  ∀ t, t ∈ tweets →
    Tweet.username t = JsNull ∧ Tweet.name t = JsNull ∧
    Tweet.permanentUrl t =
      "https://twitter.com/" +:+ Tweet.userId t +:+ "/status/" +:+ Tweet.id t ∧
    (Tweet.conversationId t = JsNull ∨
     ∃ c, c ≠ "" ∧ Tweet.conversationId t = JsStr c).
Proof.
  unfold fetchHomeTimeline. intros H.
  apply bind_ok in H as ([] & s0 & Hready & H).
  destruct (ensureReady_cases s) as [[Hr _] | [_ [e He]]]; [|congruence].
  split; [done|].
  apply guard_result in H as (s1 & s1' & H).
  apply homeOperation_ok in H as (ws & Hws & ->).
  split.
  { exists (api_calls s1), ws. rewrite !map_map. by split_and!. }
  intros t [w [-> _]]%list_elem_of_fmap. cbn. split_and!; try done.
  destruct (or_null_cases (HomeWire.conversation_id w))
    as [[_ ->] | (c & Hc & _ & ->)]; [by left | right; eauto].
Qed.

(** X22: a tweet of the home timeline whose answer carries no
    conversation id gets the conversation id [null] (it does not fall
    back to its own id, as the tweets built by [getTweet] and
    [fetchSearchTweets] do): [cacheTweet] throws on it before anything is
    written, and the reconciliation would place it in the fallback room
    of the agent. *)
Theorem home_tweet_without_conversation (w : HomeWire.t) (agent : UUID)
    (s : client) :
  truthy (HomeWire.conversation_id w) = false →
  let t := tweetOfHome getTime w in
  Tweet.conversationId t = JsNull ∧
  cacheTweet JSON_stringify (Some t) s =
    (Throw (TypeError "The path argument must be of type string"), s) ∧
  roomIdOf stringToUuid agent t = stringToUuid (fallbackRoom agent).
Proof.
  intros Hw t.
  assert (Hc : Tweet.conversationId t = JsNull).
  { subst t. cbn.
    destruct (or_null_cases (HomeWire.conversation_id w))
      as [[_ ->] | (c & Hc & E & _)]; [done|].
    rewrite E in Hw. by destruct c. }
  split_and!; [done | |].
  - apply cacheTweet_no_partition. by left.
  - unfold roomIdOf. by rewrite Hc.
Qed.

(** X23: when the answer of the remote side holds no array of tweets,
    [fetchHomeTimeline] on a ready client throws the error [Expected
    tweets to be an array, but got:] after that one remote call: the guard
    classifies it neither as an expired credential nor as a rate limit,
    so nothing is refreshed, nothing sleeps and the call is not
    repeated. *)
Theorem home_timeline_not_an_array count s :
  ready s →
  homeTimeline count (api_calls s) = Ok None →
  fetchHomeTimeline refreshOAuth2Token homeTimeline getTime count s =
    (Throw notAnArray,
     set_trace (trace s ++ [ApiCall "homeTimeline" (api_calls s)])
       (set_api_calls (S (api_calls s)) s)).
Proof.
  intros Hr Hh. unfold fetchHomeTimeline.
  destruct (ensureReady_cases s) as [[_ He] | [Hn _]]; [|done].
  unfold bind at 1. rewrite He.
  unfold executeWithTokenRefresh, homeOperation, try_catch, remote, bind, get,
    modify, emit, lift, ret, throw. cbn. rewrite Hh. done.
Qed.

End home_facts.

Lemma home_timeline_tweets_witness :
  ∃ tweets s',
    fetchHomeTimeline Scenario.refresh_granted home_ok (fun _ => 0%Z) 2
      Scenario.client0 = (Ok tweets, s') ∧
    map Tweet.id tweets = ["11"; "12"] ∧
    ready Scenario.client0 ∧
    ∀ t, t ∈ tweets →
      Tweet.username t = JsNull ∧ Tweet.name t = JsNull ∧
      Tweet.permanentUrl t =
        "https://twitter.com/" +:+ Tweet.userId t +:+ "/status/" +:+ Tweet.id t ∧
      (Tweet.conversationId t = JsNull ∨
       ∃ c, c ≠ "" ∧ Tweet.conversationId t = JsStr c).
Proof.
  eexists _, _. split; [reflexivity|]. split; [reflexivity|].
  destruct (home_timeline_tweets Scenario.refresh_granted home_ok
              (fun _ => 0%Z) 2 Scenario.client0 _ _ eq_refl) as (Hr & _ & Ht).
  split; [exact Hr | exact Ht].
Defined.

Lemma home_tweet_without_conversation_witness :
  truthy (HomeWire.conversation_id home2) = false ∧
  cacheTweet Scenario.stringify (Some (tweetOfHome (fun _ => 0%Z) home2))
    Scenario.client0 =
    (Throw (TypeError "The path argument must be of type string"),
     Scenario.client0) ∧
  roomIdOf Scenario.uuid "agent" (tweetOfHome (fun _ => 0%Z) home2) =
    Scenario.uuid (fallbackRoom "agent").
Proof.
  split; [reflexivity|].
  apply (home_tweet_without_conversation Scenario.uuid Scenario.stringify
           (fun _ => 0%Z) home2 "agent" Scenario.client0).
  reflexivity.
Defined.

Lemma home_timeline_not_an_array_witness :
  fetchHomeTimeline Scenario.refresh_granted home_not_array (fun _ => 0%Z) 2
    Scenario.client0 =
  (Throw notAnArray,
   set_trace [ApiCall "homeTimeline" 0] (set_api_calls 1 Scenario.client0)).
Proof.
  apply (home_timeline_not_an_array Scenario.refresh_granted home_not_array
           (fun _ => 0%Z) 2 Scenario.client0).
  - exact client0_ready.
  - reflexivity.
Defined.

End HomeTimelineFacts.

(** * More facts: initializeProfile *)

Module ProfileFacts.
Import Profile.

(** X24: [initializeProfile] returns [undefined] exactly when the user
    name of the client is not set.  Otherwise the profile carries that
    user name, the name of the account or else the name of the character
    as screen name, and a bio that is never the description of the
    account: the description only decides, by being set or not, between
    the bio of the character as it is (also when that is a list) and, for
    a list, its first line or the empty string. *)
Theorem initializeProfile_spec (u d n : nullable) (c : character) :
  (initializeProfile u d n c = None ↔ truthy u = false) ∧
  (∀ d', truthy d' = truthy d →
     initializeProfile u d' n c = initializeProfile u d n c) ∧
  ∀ p, initializeProfile u d n c = Some p →
    u = JsStr (username p) ∧
    screenName p = falsy_or n (name c) ∧
    (truthy d = true → profile_bio p = character_bio c) ∧
    (truthy d = false →
       match character_bio c with
       | Text b => profile_bio p = Text b
       | Lines l => profile_bio p = Text (hd "" l)
       end).
Proof.
  unfold initializeProfile, bioOf. split_and!.
  - by destruct (truthy u).
  - by intros d' ->.
  - destruct (truthy u) eqn:Hu; [cbn | done]. intros p [= <-]. cbn.
    split_and!.
    + by destruct u as [| |[|]].
    + done.
    + by intros ->.
    + intros ->. cbn. by destruct (character_bio c) as [b|[|first l]].
Qed.

Lemma initializeProfile_spec_witness :
  ∃ p, initializeProfile (JsStr "chitti") (JsStr "a bot") JsNull poet = Some p ∧
       screenName p = "Chitti" ∧
       profile_bio p = Lines ["writes verse"; "likes tea"].
Proof.
  eexists. split; [reflexivity|].
  destruct (initializeProfile_spec (JsStr "chitti") (JsStr "a bot") JsNull poet)
    as (_ & _ & H).
  destruct (H _ eq_refl) as (_ & Hn & Hb & _).
  split; [exact Hn | apply Hb; reflexivity].
Defined.

End ProfileFacts.

(** * More facts: extractAnswer *)

Module ExtractAnswerFacts.
Import JsString.

Lemma starts_with_app (a b : t) : starts_with a (a ++ b) = true.
Proof.
  induction a as [|c a IH]; cbn; [by destruct b|].
  by rewrite N.eqb_refl.
Qed.

Lemma starts_with_length (a s : t) :
  starts_with a s = true → length a ≤ length s.
Proof.
  revert s. induction a as [|c a IH]; intros s; cbn; [lia|].
  destruct s as [|x s]; cbn; [done|].
  intros [_ H%IH]%andb_true_iff. lia.
Qed.

(** An occurrence lies inside the string. *)
Lemma occurs_at_bound (needle hay : t) k :
  occurs_at needle hay k → k + length needle ≤ length hay ∨ length needle = 0.
Proof.
  unfold occurs_at. intros H%starts_with_length. rewrite length_drop in H. lia.
Qed.

Lemma search_eq (needle hay : t) i :
  search needle hay i =
  if starts_with needle hay then Z.of_nat i
  else match hay with
       | [] => (-1)%Z
       | _ :: rest => search needle rest (S i)
       end.
Proof. by destruct hay. Qed.

(** [search] returns the first index at which the needle occurs. *)
Lemma search_found (needle hay : t) i n :
  (∀ k, k < n → ¬ occurs_at needle hay k) →
  occurs_at needle hay n →
  n ≤ length hay →
  search needle hay i = Z.of_nat (i + n).
Proof.
  unfold occurs_at. revert hay i.
  induction n as [|n IH]; intros hay i Hbefore Hat Hlen.
  - rewrite drop_0 in Hat. by rewrite Nat.add_0_r, search_eq, Hat.
  - destruct hay as [|c hay]; [cbn in Hlen; lia|].
    assert (H0 : starts_with needle (c :: hay) = false).
    { apply not_true_is_false. apply (Hbefore 0). lia. }
    rewrite search_eq, H0. rewrite (IH hay (S i)).
    + f_equal. lia.
    + intros k Hk. apply (Hbefore (S k)). lia.
    + exact Hat.
    + cbn in Hlen. lia.
Qed.

Lemma search_none (needle hay : t) i :
  (∀ k, ¬ occurs_at needle hay k) → search needle hay i = (-1)%Z.
Proof.
  unfold occurs_at. revert i. induction hay as [|c hay IH]; intros i Hno.
  - pose proof (not_true_is_false _ (Hno 0)) as H0.
    rewrite drop_0 in H0. by rewrite search_eq, H0.
  - pose proof (not_true_is_false _ (Hno 0)) as H0.
    rewrite drop_0 in H0. rewrite search_eq, H0.
    apply IH. intros k. apply (Hno (S k)).
Qed.

Lemma indexOf_found (needle : t) position (hay : t) n :
  position ≤ n →
  (∀ k, position ≤ k < n → ¬ occurs_at needle hay k) →
  occurs_at needle hay n →
  n ≤ length hay →
  indexOf needle position hay = Z.of_nat n.
Proof.
  intros Hp Hbefore Hat Hlen. unfold indexOf.
  rewrite Nat.min_l by lia.
  rewrite (search_found needle (drop position hay) position (n - position)).
  - f_equal. lia.
  - intros k Hk. unfold occurs_at. rewrite drop_drop. apply Hbefore. lia.
  - unfold occurs_at. rewrite drop_drop.
    by replace (position + (n - position)) with n by lia.
  - rewrite length_drop. lia.
Qed.

Lemma indexOf_none (needle : t) position (hay : t) :
  (∀ k, position ≤ k → ¬ occurs_at needle hay k) →
  indexOf needle position hay = (-1)%Z.
Proof.
  intros Hno. unfold indexOf. apply search_none.
  intros k. unfold occurs_at. rewrite drop_drop.
  destruct (Nat.le_gt_cases position (length hay)) as [H | H].
  - rewrite Nat.min_l by done. apply Hno. lia.
  - rewrite drop_ge by lia. rewrite <- (drop_ge hay position) by lia.
    by apply Hno.
Qed.

Lemma slice_inside a b (s : t) :
  a ≤ b ≤ length s →
  slice (Z.of_nat a) (Z.of_nat b) s = take (b - a) (drop a s).
Proof.
  intros H. unfold slice, clamp.
  destruct (Z.ltb_spec (Z.of_nat a) 0); [lia|].
  destruct (Z.ltb_spec (Z.of_nat b) 0); [lia|].
  rewrite !Z.min_l by lia. rewrite Nat2Z.id. f_equal. lia.
Qed.

Lemma slice_to_last a (s : t) :
  a ≤ length s →
  slice (Z.of_nat a) (-1) s = take (length s - 1 - a) (drop a s).
Proof.
  intros H. unfold slice, clamp.
  destruct (Z.ltb_spec (Z.of_nat a) 0); [lia|].
  change (-1 <? 0)%Z with true. cbv iota.
  rewrite Z.min_l by lia. rewrite Nat2Z.id. f_equal. lia.
Qed.

Lemma length_label : length label = 8.
Proof. reflexivity. Qed.

Lemma length_endMarker : length endMarker = 13.
Proof. reflexivity. Qed.

(** X25: on a text of the expected shape, [<pre>Answer: <ans><|endoftext|><rest>],
    in which this is the first [Answer: ] and the first end marker from
    index 11 on, and in which the end marker starts at index 11 or later,
    [extractAnswer] returns exactly [<ans>].  Texts are sequences of
    UTF-16 code units and the indices count code units, as in the
    source. *)
Theorem extractAnswer_well_formed (pre ans rest : t) :
  let text := pre ++ label ++ ans ++ endMarker ++ rest in
  let stop := length pre + 8 + length ans in
  (∀ k, k < length pre → ¬ occurs_at label text k) →
  (∀ k, 11 ≤ k < stop → ¬ occurs_at endMarker text k) →
  11 ≤ stop →
  extractAnswer text = ans.
Proof.
  intros text stop Hfirst Hmarker Hstop.
  assert (Hlen : length text = stop + 13 + length rest).
  { subst text stop. rewrite !length_app, length_label, length_endMarker. lia. }
  assert (Ha : indexOf label 0 text = Z.of_nat (length pre)).
  { apply indexOf_found; [lia | | | lia].
    - intros k [_ Hk]. by apply Hfirst.
    - unfold occurs_at. subst text. rewrite drop_app_length.
      apply starts_with_app. }
  assert (Hb : indexOf endMarker 11 text = Z.of_nat stop).
  { apply indexOf_found; [done | done | | lia].
    unfold occurs_at.
    replace text with ((pre ++ label ++ ans) ++ endMarker ++ rest)
      by (subst text; by rewrite <- !app_assoc).
    replace stop with (length (pre ++ label ++ ans))
      by (subst stop; rewrite !length_app, length_label; lia).
    rewrite drop_app_length. apply starts_with_app. }
  unfold extractAnswer. rewrite Ha, Hb.
  replace (Z.of_nat (length pre) + 8)%Z
    with (Z.of_nat (length pre + 8)) by lia.
  rewrite slice_inside by lia.
  replace text with ((pre ++ label) ++ ans ++ endMarker ++ rest)
    by (subst text; by rewrite <- !app_assoc).
  replace (length pre + 8) with (length (pre ++ label))
    by (rewrite !length_app, length_label; lia).
  rewrite drop_app_length.
  replace (stop - length (pre ++ label)) with (length ans)
    by (subst stop; rewrite !length_app, length_label; lia).
  by rewrite take_app_length.
Qed.

(** X26: the search for the end marker starts at index 11, so on the text
    [Answer: <ans><|endoftext|>] with an answer of fewer than three
    code units the marker, which starts at index 8, 9 or 10, is not
    found: the end index is -1 and [extractAnswer] returns the answer
    followed by the marker without its last character. *)
Theorem extractAnswer_short_answer (ans : t) :
  length ans < 3 →
  extractAnswer (label ++ ans ++ endMarker) = ans ++ of_ascii "<|endoftext|".
Proof.
  intros Hshort. set (text := label ++ ans ++ endMarker).
  assert (Hlen : length text = 21 + length ans).
  { subst text. rewrite !length_app, length_label, length_endMarker. lia. }
  assert (Ha : indexOf label 0 text = 0%Z).
  { apply (indexOf_found _ 0 _ 0); [lia | lia | | lia].
    unfold occurs_at. rewrite drop_0. apply starts_with_app. }
  assert (Hb : indexOf endMarker 11 text = (-1)%Z).
  { apply indexOf_none. intros k Hk [H | H]%occurs_at_bound.
    - rewrite Hlen, length_endMarker in H. lia.
    - done. }
  unfold extractAnswer. fold text. rewrite Ha, Hb.
  change (0 + 8)%Z with (Z.of_nat 8). rewrite slice_to_last by lia.
  rewrite Hlen.
  replace (21 + length ans - 1 - 8) with (length ans + 12) by lia.
  subst text. rewrite <- length_label at 2. rewrite drop_app_length.
  by rewrite take_app_add.
Qed.

(** X27: on a text without [Answer: ], the start index is [-1 + 8]:
    when the end marker is found, at index 11 or later, [extractAnswer]
    returns the text before the marker without its first seven code
    units. *)
Theorem extractAnswer_without_label (body rest : t) :
  let text := body ++ endMarker ++ rest in
  (∀ k, ¬ occurs_at label text k) →
  (∀ k, 11 ≤ k < length body → ¬ occurs_at endMarker text k) →
  11 ≤ length body →
  extractAnswer text = drop 7 body.
Proof.
  intros text Hno Hmarker Hbody.
  assert (Hlen : length text = length body + 13 + length rest).
  { subst text. rewrite !length_app, length_endMarker. lia. }
  assert (Ha : indexOf label 0 text = (-1)%Z).
  { apply indexOf_none. intros k _. apply Hno. }
  assert (Hb : indexOf endMarker 11 text = Z.of_nat (length body)).
  { apply indexOf_found; [done | done | | lia].
    unfold occurs_at. subst text. rewrite drop_app_length.
    apply starts_with_app. }
  unfold extractAnswer. rewrite Ha, Hb.
  change (-1 + 8)%Z with (Z.of_nat 7). rewrite slice_inside by lia.
  subst text. rewrite drop_app_le by lia.
  replace (length body - 7) with (length (drop 7 body))
    by (rewrite length_drop; lia).
  by rewrite take_app_length.
Qed.

Lemma extractAnswer_well_formed_witness :
  extractAnswer (of_ascii "Question: 1+1? Answer: " ++ [e_acute; e_acute]
                 ++ of_ascii "<|endoftext|>")
  = [e_acute; e_acute].
Proof.
  apply (extractAnswer_well_formed (of_ascii "Question: 1+1? ")
           [e_acute; e_acute] []).
  - intros k Hk. unfold occurs_at.
    do 15 (destruct k as [|k]; [by vm_compute|]). cbn in Hk. lia.
  - intros k [Hk1 Hk2]. unfold occurs_at.
    do 25 (destruct k as [|k]; [first [by vm_compute | lia]|]).
    cbn in Hk2. lia.
  - cbn. lia.
Defined.

Lemma extractAnswer_short_answer_witness :
  extractAnswer (of_ascii "Answer: " ++ [e_acute; e_acute]
                 ++ of_ascii "<|endoftext|>")
  = [e_acute; e_acute] ++ of_ascii "<|endoftext|".
Proof. apply (extractAnswer_short_answer [e_acute; e_acute]). cbn. lia. Defined.

Lemma extractAnswer_without_label_witness :
  extractAnswer (of_ascii "I think so.<|endoftext|>") = of_ascii " so.".
Proof.
  apply (extractAnswer_without_label (of_ascii "I think so.") []).
  - intros k. unfold occurs_at.
    do 25 (destruct k as [|k]; [by vm_compute|]).
    by destruct k.
  - intros k [Hk1 Hk2]. cbn in Hk2. lia.
  - cbn. lia.
Defined.

End ExtractAnswerFacts.

(** * More facts: the cached results of populateTimeline *)

Module CachedPathFacts.
Import ClientBase ClientBaseObs ClientBaseFacts.

Lemma find_app_none {A} (f : A → bool) (l1 l2 : list A) :
  List.find f (l1 ++ l2) = None ↔ List.find f l1 = None ∧ List.find f l2 = None.
Proof.
  induction l1 as [|x l1 IH]; cbn; [by split; [|intros [_ ?]]|].
  destruct (f x); [|done]. by split; [|intros [? _]].
Qed.

Lemma find_app_some {A} (f : A → bool) (l1 l2 : list A) :
  is_Some (List.find f l1) → is_Some (List.find f (l1 ++ l2)).
Proof.
  induction l1 as [|x l1 IH]; cbn; [by intros [? ?]|].
  by destruct (f x).
Qed.

Lemma find_snoc_self {A} (f : A → bool) (l : list A) x :
  f x = true → is_Some (List.find f (l ++ [x])).
Proof.
  intros Hx. induction l as [|y l IH]; cbn; [by rewrite Hx|].
  by destruct (f y).
Qed.

Lemma ingested_creations l :
  omap (fun e => match e with CreateMemory m => Some (Memory.id m) | _ => None end) l
  = map Memory.id (creations l).
Proof.
  induction l as [|e l IH]; [done|]. unfold creations in *.
  destruct e; cbn; by rewrite ?IH.
Qed.

Section cached.
Context (stringToUuid : string → UUID).
Context (refreshOAuth2Token : string → nat → result (handle * string * string)).
Context (search : string → nat → result Wire.page).
Context (now_iso : string) (now_ms : Z) (getTime : string → Z).

Local Abbreviation saveCachedTweet := (ClientBase.saveCachedTweet stringToUuid).
Local Abbreviation memoryId := (ClientBase.memoryId stringToUuid).
Local Abbreviation populateTimeline :=
  (ClientBase.populateTimeline stringToUuid refreshOAuth2Token search
     now_iso now_ms getTime).

(** One turn of the loop over the cached tweets: the record is found and
    the turn ends, or it is not found and is created. *)
Lemma saveCachedTweet_cases tweet s :
  let m := cachedTweetMemory stringToUuid (agentId s) (twitterUserId s) tweet in
  let ec := EnsureConnection (Memory.userId m) (Memory.roomId m) in
  (is_Some (getMemoryById (Memory.id m) (memories s)) ∧
   saveCachedTweet tweet s = (Ok tt, set_trace (trace s ++ [ec]) s)) ∨
  (getMemoryById (Memory.id m) (memories s) = None ∧
   saveCachedTweet tweet s =
     (Ok tt, set_memories (memories s ++ [m])
               (set_trace ((trace s ++ [ec]) ++ [CreateMemory m]) s))).
Proof.
  cbn zeta.
  unfold ClientBase.saveCachedTweet, createMemory, getMemoryById, bind, get,
    modify, emit, ret.
  cbn.
  destruct (find _ (memories s)) as [m0|] eqn:Hm; cbn.
  - left. by split.
  - right. split; [done|]. by rewrite Hm.
Qed.

(** The loop over the cached tweets. *)
Lemma cached_loop l s :
  ∃ delta,
    let out := for_each l saveCachedTweet s in
    out.1 = Ok tt ∧
    trace out.2 = trace s ++ delta ∧
    memories out.2 = memories s ++ creations delta ∧
    api_calls out.2 = api_calls s ∧
    timeline_cache out.2 = timeline_cache s ∧
    agentId out.2 = agentId s ∧
    twitterUserId out.2 = twitterUserId s ∧
    NoDup (map Memory.id (creations delta)) ∧
    (∀ m, m ∈ creations delta → getMemoryById (Memory.id m) (memories s) = None) ∧
    (∀ tweet, tweet ∈ l →
       is_Some (getMemoryById (memoryId (agentId s) (Tweet.id tweet))
                  (memories out.2))).
Proof.
  revert s. induction l as [|tweet l IH]; intros s.
  { exists []. cbn. rewrite !app_nil_r. split_and!; try done.
    - constructor.
    - intros m Hm. by apply elem_of_nil in Hm.
    - intros t Ht. by apply elem_of_nil in Ht. }
  set (m := cachedTweetMemory stringToUuid (agentId s) (twitterUserId s) tweet).
  destruct (saveCachedTweet_cases tweet s) as [[Hsome Heq] | [Hnone Heq]];
    fold m in Hsome || fold m in Hnone; fold m in Heq;
    match type of Heq with _ = (_, ?s1) =>
      assert (Hstep : for_each (tweet :: l) saveCachedTweet s =
                      for_each l saveCachedTweet s1)
        by (cbn [for_each]; unfold bind; by rewrite Heq);
      rewrite Hstep;
      destruct (IH s1)
        as (delta & Hok & Htr & Hmem & Hapi & Hcache & Hag & Hme & Hnd & Hnew & Hall)
    end;
    cbn zeta in *;
    cbn [trace memories api_calls timeline_cache agentId twitterUserId
         set_trace set_memories] in *.
  - exists (EnsureConnection (Memory.userId m) (Memory.roomId m) :: delta).
    change (creations (EnsureConnection (Memory.userId m) (Memory.roomId m)
                       :: delta))
      with (creations delta).
    split_and!; try done.
    + by rewrite Htr, <- app_assoc.
    + intros t [-> | Ht]%elem_of_cons; [|by apply Hall].
      rewrite Hmem. by apply find_app_some.
  - exists (EnsureConnection (Memory.userId m) (Memory.roomId m)
            :: CreateMemory m :: delta).
    change (creations (EnsureConnection (Memory.userId m) (Memory.roomId m)
                       :: CreateMemory m :: delta))
      with (m :: creations delta).
    split_and!; try done.
    + by rewrite Htr, <- !app_assoc.
    + by rewrite Hmem, <- app_assoc.
    + cbn. constructor; [|done].
      intros (m' & Hid & Hm')%list_elem_of_fmap.
      apply Hnew in Hm'. apply find_app_none in Hm' as [_ Hm'].
      cbn in Hm'. rewrite Hid in Hm'. by rewrite bool_decide_true in Hm'.
    + intros m' [-> | Hm']%elem_of_cons; [done|].
      apply Hnew in Hm'. by apply find_app_none in Hm' as [Hm' _].
    + intros t [-> | Ht]%elem_of_cons; [|by apply Hall].
      rewrite Hmem. apply find_app_some. apply find_snoc_self.
      by apply bool_decide_eq_true.
Qed.

(** X28: the path of the cached results.  When the id of a stored record
    found for the cached tweets equals the raw id of one of them,
    [populateTimeline] returns normally without any remote call and
    leaves the cache file as it is.  Unlike the loop over fetched tweets,
    its loop asks the store before each record: it hands [createMemory]
    no key that the store held before the run and no key twice, and
    afterwards the store holds a record for every cached tweet that was
    left to save. *)
Theorem cached_path_creates_only_missing s cachedResults :
  timeline_cache s = Some cachedResults →
  existsb
    (fun tweet =>
       bool_decide (Tweet.id tweet ∈
         cachedExistingIds stringToUuid (agentId s) (memories s) cachedResults))
    cachedResults = true →
  let out := populateTimeline s in
  out.1 = Ok tt ∧
  api_calls out.2 = api_calls s ∧
  timeline_cache out.2 = Some cachedResults ∧
  NoDup (ingested s out.2) ∧
  (∀ id, id ∈ ingested s out.2 → getMemoryById id (memories s) = None) ∧
  (∀ tweet,
     tweet ∈ cachedTweetsToSave stringToUuid (agentId s) (memories s) cachedResults →
     is_Some (getMemoryById (memoryId (agentId s) (Tweet.id tweet))
                (memories out.2))).
Proof.
  intros Hcache Hex.
  assert (Hrun : populateTimeline s =
            for_each (cachedTweetsToSave stringToUuid (agentId s) (memories s)
                        cachedResults) saveCachedTweet s).
  { unfold ClientBase.populateTimeline, bind, get. by rewrite Hcache, Hex. }
  cbn zeta. rewrite Hrun.
  destruct (cached_loop
              (cachedTweetsToSave stringToUuid (agentId s) (memories s)
                 cachedResults) s)
    as (delta & Hok & Htr & Hmem & Hapi & Hc & _ & _ & Hnd & Hnew & Hall).
  cbn zeta in *.
  assert (Hing : ingested s
            (for_each (cachedTweetsToSave stringToUuid (agentId s) (memories s)
                         cachedResults) saveCachedTweet s).2
          = map Memory.id (creations delta)).
  { unfold ingested. rewrite Htr, drop_app_length. apply ingested_creations. }
  split_and!; try done.
  - by rewrite Hc.
  - by rewrite Hing.
  - intros id. rewrite Hing. intros (m & -> & Hm)%list_elem_of_fmap.
    by apply Hnew.
Qed.

End cached.

Lemma cached_path_creates_only_missing_witness :
  let out := Scenario.populateTimeline client_cached_path in
  ingested client_cached_path out.2 = ["uuid:2-agent"] ∧
  out.1 = Ok tt ∧
  api_calls out.2 = 0 ∧
  timeline_cache out.2 =
    Some [Scenario.tweetA; Scenario.tweetB; Scenario.tweetB] ∧
  NoDup (ingested client_cached_path out.2) ∧
  (∀ id, id ∈ ingested client_cached_path out.2 →
         getMemoryById id [raw_memory] = None) ∧
  (∀ tweet,
     tweet ∈ cachedTweetsToSave Scenario.uuid "agent" [raw_memory]
               [Scenario.tweetA; Scenario.tweetB; Scenario.tweetB] →
     is_Some (getMemoryById (ClientBase.memoryId Scenario.uuid "agent" (Tweet.id tweet))
                (memories out.2))).
Proof.
  split; [vm_compute; reflexivity|].
  apply (cached_path_creates_only_missing Scenario.uuid Scenario.refresh_granted
           Scenario.search_abc "2024-01-01T00:00:00.000Z" 0%Z (fun _ => 0%Z)
           client_cached_path
           [Scenario.tweetA; Scenario.tweetB; Scenario.tweetB]).
  - reflexivity.
  - vm_compute. reflexivity.
Defined.

End CachedPathFacts.
